(** * Finite-difference pricing of vanilla options: explicit and implicit schemes

    A shallow embedding of the two notebooks of the repository:
    - [VanillaOption_Explicit] (the Python 2 notebook, explicit scheme);
    - [compute_transition_probabilities], [create_tridiagonal_matrix],
      [initialize_option_matrix], [backward_iteration] and
      [vanilla_option_implicit] (Implicit_FDM.ipynb, implicit scheme).

    Conventions of the embedding.
    - A NumPy [float64] is an exact rational ([Q]); equality of computed
      numbers is [Qeq] ([==]).  Rounding of the values is not modelled.
    - [numpy.exp] and [numpy.linalg.inv] are library functions: they are the
      section variables [np_exp] and [la_inv].
    - The number of entries of [np.arange(0, S_max + dS, dS)] in the implicit
      notebook is decided by rounding: the exact quotient [(S_max + dS) / dS]
      is the integer [M + 1], and [float64] may compute a number just above
      it, whose ceiling is [M + 2].  That number of entries is the section
      variable [np_levels]; [Float64] computes it in IEEE arithmetic.
      The explicit notebook stops half a step later ([S_max + dS/2]): its
      quotient is [M + 1/2] and its ceiling is computed exactly.
    - A 1-D array is a [list Q], a 2-D array the list of its rows.
    - A Python exception is a [Raise]; Python's scalar [/] raises
      [ZeroDivisionError] on a zero divisor.  NumPy's elementwise division by
      a zero scalar produces [inf]/[nan], which [Q] does not have: statements
      about such quotients carry the hypothesis that the divisor is not zero.
    - [N] and [M] are natural numbers (the counts of time and space steps). *)

From Stdlib Require Import QArith Qround Qabs Qminmax ZArith List Lia Lqa Bool SpecFloat.
Import ListNotations.
Open Scope Q_scope.

(** ** Exceptions and the error monad *)

Inductive exn : Set :=
| ZeroDivisionError
| ValueError
| IndexError
| LinAlgError.

Inductive result (A : Type) : Type :=
| Ok (a : A)
| Raise (e : exn).
Arguments Ok {A} a.
Arguments Raise {A} e.

Definition bind {A B : Type} (m : result A) (f : A -> result B) : result B :=
  match m with
  | Ok a => f a
  | Raise e => Raise e
  end.

Notation "x <- m ;; k" := (bind m (fun x => k))
  (at level 61, m at next level, right associativity).


Definition succeeds {A : Type} (m : result A) : Prop :=
  match m with
  | Ok _ => True
  | Raise _ => False
  end.

(** ** Arrays *)

Abbreviation vec := (list Q) (only parsing).
Abbreviation matrix := (list (list Q)) (only parsing).

Fixpoint upd {A : Type} (i : nat) (x : A) (l : list A) : list A :=
  match l, i with
  | [], _ => []
  | _ :: t, O => x :: t
  | h :: t, S i' => h :: upd i' x t
  end.

Fixpoint zip_with {A B C : Type} (f : A -> B -> C) (l : list A) (l' : list B) : list C :=
  match l, l' with
  | x :: t, y :: t' => f x y :: zip_with f t t'
  | _, _ => []
  end.

Definition vsum (v : vec) : Q := fold_right Qplus 0 v.

Module Np.

(** [float(n)] *)
Definition float (n : nat) : Q := inject_Z (Z.of_nat n).

(** Python's [x / y] on scalars. *)
Definition py_div (x y : Q) : result Q :=
  if Qeq_bool y 0 then Raise ZeroDivisionError else Ok (x / y).

(** [np.zeros(n)] and [np.zeros((r, c))] *)
Definition zeros (n : nat) : vec := repeat 0 n.
Definition zeros2 (r c : nat) : matrix := repeat (zeros c) r.

(** [np.arange(0, n, dtype=float)] and [range(n)] as floats *)
Definition arange_n (n : nat) : vec := map float (seq 0 n).

(** [np.arange(start, stop, step)]: [ceil((stop - start) / step)] values
    [start + i * step]; a zero step raises. *)
Definition arange (start stop step : Q) : result vec :=
  if Qeq_bool step 0 then Raise ZeroDivisionError
  else Ok (map (fun i => start + float i * step)
               (seq 0 (Z.to_nat (Qceiling ((stop - start) / step))))).

(** [np.arange(start, stop, step)] when NumPy computes [n] for its number
    of entries, [ceil((stop - start) / step)] in [float64]: the values
    [start + i * step] for [i < n]; a zero step raises. *)
Definition arange_of_len (n : nat) (start step : Q) : result vec :=
  if Qeq_bool step 0 then Raise ZeroDivisionError
  else Ok (map (fun i => start + float i * step) (seq 0 n)).

(** The number of entries of [np.arange(0, S_max + dS, dS)] in exact
    arithmetic. *)
Definition levels_exact (S_max dS : Q) : nat :=
  Z.to_nat (Qceiling ((S_max + dS - 0) / dS)).

(** [v[i]] for an index [i >= 0]. *)
Definition item (v : vec) (i : nat) : result Q :=
  match nth_error v i with
  | Some x => Ok x
  | None => Raise IndexError
  end.

(** [v[i] = x] for an index [i >= 0]. *)
Definition set_item (v : vec) (i : nat) (x : Q) : result vec :=
  if (i <? length v)%nat then Ok (upd i x v) else Raise IndexError.

(** [FV[i, j]] *)
Definition get (FV : matrix) (i j : nat) : Q := nth j (nth i FV []) 0.

(** [FV.shape[1]] *)
Definition ncols (FV : matrix) : nat := length (hd [] FV).

(** [FV[:, j] = x] *)
Definition set_col_scalar (FV : matrix) (j : nat) (x : Q) : matrix :=
  map (upd j x) FV.

(** [FV[:, j] = xs] *)
Definition set_col (FV : matrix) (j : nat) (xs : vec) : matrix :=
  zip_with (fun row x => upd j x row) FV xs.

(** [FV[i, :] = row]; the shapes must agree. *)
Definition set_row (FV : matrix) (i : nat) (row : vec) : result matrix :=
  if (length row =? length (nth i FV []))%nat then Ok (upd i row FV)
  else Raise ValueError.

(** [FV[i, :] = row] where the length of [row] is not known beforehand: a
    row of one entry is broadcast, another length raises. *)
Definition set_row_broadcast (FV : matrix) (i : nat) (row : vec) : result matrix :=
  let n := length (nth i FV []) in
  if (length row =? n)%nat then Ok (upd i row FV)
  else if (length row =? 1)%nat then Ok (upd i (repeat (hd 0 row) n) FV)
  else Raise ValueError.

(** [FV[i, 0:m] = xs] *)
Definition set_row_prefix (FV : matrix) (i m : nat) (xs : vec) : matrix :=
  upd i (xs ++ skipn m (nth i FV [])) FV.

(** [np.maximum(x, y)] on two arrays of the same length, and
    [np.maximum(x, s)] with a scalar. *)
Definition maximum (x y : vec) : result vec :=
  if (length x =? length y)%nat then Ok (zip_with Qmax x y)
  else Raise ValueError.
Definition maximum_scalar (x : vec) (s : Q) : vec :=
  map (fun e => Qmax e s) x.

(** [np.diag(v, k)]: the square matrix of size [len(v) + |k|] with [v] on
    its [k]-th diagonal. *)
Definition diag (v : vec) (k : Z) : matrix :=
  let n := (length v + Z.abs_nat k)%nat in
  map (fun i =>
         map (fun j =>
                if (Z.of_nat j =? Z.of_nat i + k)%Z
                then nth (Nat.min i j) v 0 else 0)
             (seq 0 n))
      (seq 0 n).

Definition vadd (x y : vec) : vec := zip_with Qplus x y.
Definition madd (X Y : matrix) : matrix := zip_with vadd X Y.

(** [np.dot(v, A)] for a row vector [v]: entry [j] is the sum over [l] of
    [v[l] * A[l, j]]. *)
Definition column (A : matrix) (j : nat) : vec := map (fun row => nth j row 0) A.
Definition dot (v : vec) (A : matrix) : vec :=
  map (fun j => vsum (zip_with Qmult v (column A j))) (seq 0 (ncols A)).

(** [la.norm(A, np.inf)]: the largest absolute row sum. *)
Definition norm_inf (A : matrix) : Q :=
  fold_right Qmax 0 (map (fun row => vsum (map Qabs row)) A).

End Np.

(** ** IEEE arithmetic where it decides the outcome *)

(** [binary64], on the Standard Library's specification of IEEE 754
    arithmetic (round to nearest, ties to even). *)
Module Float64.

Definition prec : Z := 53.
Definition emax : Z := 1024.

(** [float(z)] *)
Definition of_Z (z : Z) : spec_float := binary_normalize prec emax z 0 false.

Definition add : spec_float -> spec_float -> spec_float := SFadd prec emax.
Definition sub : spec_float -> spec_float -> spec_float := SFsub prec emax.
Definition mul : spec_float -> spec_float -> spec_float := SFmul prec emax.
Definition div : spec_float -> spec_float -> spec_float := SFdiv prec emax.

(** The double nearest to a rational whose numerator and denominator are
    doubles. *)
Definition of_Q (x : Q) : spec_float := div (of_Z (Qnum x)) (of_Z (Zpos (Qden x))).

(** [ceil(x)] of a finite double. *)
Definition ceil (x : spec_float) : option Z :=
  match x with
  | S754_zero _ => Some 0%Z
  | S754_finite s m e =>
      let n := if s then Zneg m else Zpos m in
      Some (if (0 <=? e)%Z then n * 2 ^ e else - ((- n) / 2 ^ (- e)))%Z
  | _ => None
  end.

(** The number of entries of [np.arange(start, stop, step)] on doubles:
    [ceil((stop - start) / step)]. *)
Definition arange_len (start stop step : spec_float) : option Z :=
  ceil (div (sub stop start) step).

(** The number of entries of [np.arange(0, S_max + dS, dS)] when [S_max] and
    [dS] are the doubles nearest to two rationals (no entry when the quotient
    is not finite). *)
Definition levels (S_max dS : Q) : nat :=
  match arange_len (of_Z 0) (add (of_Q S_max) (of_Q dS)) (of_Q dS) with
  | Some n => Z.to_nat n
  | None => 0%nat
  end.

End Float64.

(** The number of price levels the implicit notebook computes for a strike
    [K] and [M] space steps: [S_max = 2.0 * K], [dS = S_max / M],
    [np.arange(0, S_max + dS, dS)]. *)
Definition implicit_levels64 (K : spec_float) (M : Z) : option Z :=
  let S_max := Float64.mul (Float64.of_Z 2) K in
  let dS := Float64.div S_max (Float64.of_Z M) in
  Float64.arange_len (Float64.of_Z 0) (Float64.add S_max dS) dS.

(** The number of price levels the explicit notebook computes:
    [dS = (S_max - S_min) / float(M)],
    [np.arange(S_min, S_max + dS / 2.0, dS)]. *)
Definition explicit_levels64 (K : spec_float) (M : Z) : option Z :=
  let S_max := Float64.mul (Float64.of_Z 2) K in
  let S_min := Float64.of_Z 0 in
  let dS := Float64.div (Float64.sub S_max S_min) (Float64.of_Z M) in
  Float64.arange_len S_min (Float64.add S_max (Float64.div dS (Float64.of_Z 2))) dS.

(** A NumPy quotient by a scalar that may be zero: [x / 0] is [nan] for
    [x = 0] and an infinity otherwise, and no exception. *)
Inductive np_float64 : Type :=
| Finite (x : Q)
| Infinity (negative : bool)
| NaN.

Definition np_true_divide (x y : Q) : np_float64 :=
  if Qeq_bool y 0 then
    if Qeq_bool x 0 then NaN else Infinity (negb (Qle_bool 0 x))
  else Finite (x / y).

(** The product of such a quotient by a finite number. *)
Definition np_multiply (x : np_float64) (y : Q) : np_float64 :=
  match x with
  | Finite a => Finite (a * y)
  | Infinity s => if Qeq_bool y 0 then NaN else Infinity (xorb s (negb (Qle_bool 0 y)))
  | NaN => NaN
  end.

(** The coefficient vector [a] of the explicit notebook, with NumPy's
    quotient, and the entry [k_i[0] = a[0] * FV[i+1, 0]] computed from it. *)
Definition explicit_a_ieee (M : nat) (dt r q sigma : Q) : list np_float64 :=
  map (fun j => np_true_divide
                  (- (1#2) * (r - q) * dt * j + (1#2) * sigma ^ 2 * dt * j ^ 2)
                  (1 + r * dt))
      (Np.arange_n M).

Definition explicit_k_i_0_ieee (a : list np_float64) (FV : matrix) (i : nat) : np_float64 :=
  np_multiply (nth 0 a NaN) (Np.get FV (i + 1) 0).

(** [A] applied to a column vector [v], as a matrix acts on a vector:
    entry [j] is the sum over [l] of [A[j, l] * v[l]].  The code never
    computes this product; it is what the specification's words
    "A applied to the vector" denote. *)
Definition mat_apply (A : matrix) (v : vec) : vec :=
  map (fun row => vsum (zip_with Qmult row v)) A.

(** What one pricing call computes: the discretisation steps, the coefficient
    vectors, the step operator ([A] for the explicit scheme, [B] for the
    implicit one), the grid after the boundary conditions, the grid after
    the backward iteration, and the returned pair (fair value, norm). *)
Record run : Type := mkRun {
  run_dS : Q;
  run_dt : Q;
  run_a : vec;
  run_b : vec;
  run_c : vec;
  run_op : matrix;
  run_init : matrix;
  run_grid : matrix;
  run_out : Q * Q
}.

Section Pricing.

(** [numpy.exp] *)
Variable np_exp : Q -> Q.
(** [numpy.linalg.inv]; raises [LinAlgError] on a singular matrix. *)
Variable la_inv : matrix -> result matrix.
(** The number of entries of [np.arange(0, S_max + dS, dS)] as [float64]
    computes it from [S_max] and [dS]. *)
Variable np_levels : Q -> Q -> nat.

(** The tridiagonal matrix both notebooks assemble:
    [np.diag(b) + np.diag(a[1:], k=-1) + np.diag(c[:-1], k=1)]. *)
Definition tridiagonal (a b c : vec) : matrix :=
  Np.madd (Np.madd (Np.diag b 0) (Np.diag (tl a) (-1))) (Np.diag (removelast c) 1).

(** *** The explicit scheme *)

Definition explicit_coefficients (M : nat) (dt r q sigma : Q) : vec * vec * vec :=
  let j := Np.arange_n M in
  (map (fun j => (- (1#2) * (r - q) * dt * j + (1#2) * sigma ^ 2 * dt * j ^ 2) / (1 + r * dt)) j,
   map (fun j => (1 - sigma ^ 2 * dt * j ^ 2) / (1 + r * dt)) j,
   map (fun j => ((1#2) * (r - q) * dt * j + (1#2) * sigma ^ 2 * dt * j ^ 2) / (1 + r * dt)) j).

(** The boundary columns and the terminal row (the [if(bool(isCall))]
    block). *)
Definition explicit_initialize (N M : nat) (S_min S_max dS K r dt : Q) (isCall : bool)
  : result matrix :=
  let FV := Np.zeros2 (N + 1) (M + 1) in
  if isCall then
    let FV := Np.set_col_scalar FV 0 S_min in
    let FV := Np.set_col FV M
                (map (fun j => S_max * np_exp (- r * (inject_Z (Z.of_nat N - Z.of_nat j)) * dt))
                     (seq 0 (N + 1))) in
    grid <- Np.arange S_min (S_max + dS / 2) dS ;;
    Np.set_row FV N (Np.maximum_scalar (map (fun s => s - K) grid) 0)
  else
    let FV := Np.set_col FV 0
                (map (fun j => K * np_exp (- r * (inject_Z (Z.of_nat N - Z.of_nat j)) * dt))
                     (seq 0 (N + 1))) in
    let FV := Np.set_col_scalar FV M 0 in
    grid <- Np.arange S_min (S_max + dS / 2) dS ;;
    Np.set_row FV N (Np.maximum_scalar (map (fun s => K - s) grid) 0).

(** The correction vector [k_i]. *)
Definition explicit_k_i (a c : vec) (FV : matrix) (i M : nat) : vec :=
  let k_i := Np.zeros M in
  let k_i := upd 0 (nth 0 a 0 * Np.get FV (i + 1) 0) k_i in
  upd (M - 1) (nth (M - 1) c 0 * Np.get FV (i + 1) M) k_i.

(** The induction step:
    [FV[i,0:M] = np.dot(FV[i+1,0:M], A) + k_i.transpose()]. *)
Definition explicit_step (A : matrix) (a c : vec) (M : nat) (FV : matrix) (i : nat) : matrix :=
  let k_i := explicit_k_i a c FV i M in
  Np.set_row_prefix FV i M (Np.vadd (Np.dot (firstn M (nth (i + 1) FV [])) A) k_i).

(** The early-exercise floor (the [if(bool(isAmerican))] block). *)
Definition explicit_floor (S_min S_max dS K : Q) (isCall : bool) (FV : matrix) (i : nat)
  : result matrix :=
  grid <- Np.arange S_min (S_max + dS / 2) dS ;;
  row <- Np.maximum (if isCall then map (fun s => s - K) grid
                     else map (fun s => K - s) grid)
                    (nth i FV []) ;;
  Np.set_row FV i row.

(** What one pass of the loop does to the grid. *)
Definition explicit_grid_body (A : matrix) (a c : vec) (M : nat) (S_min S_max dS K : Q)
    (isCall isAmerican : bool) (i : nat) (FV : matrix) : result matrix :=
  let FV := explicit_step A a c M FV i in
  if isAmerican then explicit_floor S_min S_max dS K isCall FV i else Ok FV.

(** The body of the loop; the state is the grid and [outVector[0]], which
    the last statement of the body assigns. *)
Definition explicit_body (A : matrix) (a c : vec) (M : nat) (S_min S_max dS K : Q)
    (isCall isAmerican : bool) (i : nat) (st : matrix * Q) : result (matrix * Q) :=
  FV <- explicit_grid_body A a c M S_min S_max dS K isCall isAmerican i (fst st) ;;
  Ok (FV, Np.get FV 0 ((Np.ncols FV + 1) / 2)).

(** [for i in range(N-1,-1,-1)]; [n] is the number of rows still to be
    computed. *)
Fixpoint explicit_loop (A : matrix) (a c : vec) (M : nat) (S_min S_max dS K : Q)
    (isCall isAmerican : bool) (n : nat) (st : matrix * Q) : result (matrix * Q) :=
  match n with
  | O => Ok st
  | S i =>
      st <- explicit_body A a c M S_min S_max dS K isCall isAmerican i st ;;
      explicit_loop A a c M S_min S_max dS K isCall isAmerican i st
  end.

(** The whole function, keeping its intermediate values. *)
Definition explicit_run (S_0 T K r q sigma : Q) (N M : nat) (isCall isAmerican : bool)
  : result run :=
  let S_max := 2 * K in
  let S_min := 0 in
  dS <- Np.py_div (S_max - S_min) (Np.float M) ;;
  dt <- Np.py_div T (Np.float N) ;;
  let '(a, b, c) := explicit_coefficients M dt r q sigma in
  let A := tridiagonal a b c in
  let infinityNormOfA := Np.norm_inf A in
  FV0 <- explicit_initialize N M S_min S_max dS K r dt isCall ;;
  st <- explicit_loop A a c M S_min S_max dS K isCall isAmerican N (FV0, 0) ;;
  Ok (mkRun dS dt a b c A FV0 (fst st) (snd st, infinityNormOfA)).

Definition VanillaOption_Explicit (S_0 T K r q sigma : Q) (N M : nat)
    (isCall isAmerican : bool) : result (Q * Q) :=
  out <- explicit_run S_0 T K r q sigma N M isCall isAmerican ;;
  Ok (run_out out).

(** *** The implicit scheme *)

Definition compute_transition_probabilities (M : nat) (dt r q sigma : Q) : vec * vec * vec :=
  let j := Np.arange_n M in
  (map (fun j => (1#2) * (r - q) * j * dt - (1#2) * sigma ^ 2 * j ^ 2 * dt) j,
   map (fun j => 1 + sigma ^ 2 * j ^ 2 * dt + r * dt) j,
   map (fun j => - (1#2) * (r - q) * j * dt - (1#2) * sigma ^ 2 * j ^ 2 * dt) j).

Definition create_tridiagonal_matrix (a b c : vec) : result (matrix * Q) :=
  let A := tridiagonal a b c in
  B <- la_inv A ;;
  Ok (B, Np.norm_inf B).

Definition initialize_option_matrix (N M : nat) (S_max dS K r dt : Q) (is_call : bool)
  : result matrix :=
  let FV := Np.zeros2 (N + 1) (M + 1) in
  if is_call then
    let FV := Np.set_col_scalar FV 0 0 in
    let FV := Np.set_col FV M
                (map (fun j => S_max * np_exp (- r * (inject_Z (Z.of_nat N - Z.of_nat j)) * dt))
                     (seq 0 (N + 1))) in
    grid <- Np.arange_of_len (np_levels S_max dS) 0 dS ;;
    Np.set_row_broadcast FV N (Np.maximum_scalar (map (fun s => s - K) grid) 0)
  else
    let FV := Np.set_col FV 0
                (map (fun j => K * np_exp (- r * (inject_Z (Z.of_nat N - Z.of_nat j)) * dt))
                     (seq 0 (N + 1))) in
    let FV := Np.set_col_scalar FV M 0 in
    grid <- Np.arange_of_len (np_levels S_max dS) 0 dS ;;
    Np.set_row_broadcast FV N (Np.maximum_scalar (map (fun s => K - s) grid) 0).

(** The correction vector [k_i]; [a] and [c] are arguments of
    [backward_iteration], and [a[0]], [c[M - 1]] raise [IndexError] when the
    vector is too short. *)
Definition implicit_k_i (a c : vec) (FV : matrix) (i M : nat) : result vec :=
  let k_i := Np.zeros M in
  a_0 <- Np.item a 0 ;;
  k_i <- Np.set_item k_i 0 (- a_0 * Np.get FV (i + 1) 0) ;;
  c_M <- Np.item c (M - 1) ;;
  Np.set_item k_i (M - 1) (- c_M * Np.get FV (i + 1) M).

(** The induction step: [FV[i, :M] = np.dot(FV[i + 1, :M] + k_i, B)]. *)
Definition implicit_step (B : matrix) (a c : vec) (M : nat) (FV : matrix) (i : nat)
  : result matrix :=
  k_i <- implicit_k_i a c FV i M ;;
  Ok (Np.set_row_prefix FV i M (Np.dot (Np.vadd (firstn M (nth (i + 1) FV [])) k_i) B)).

(** The early-exercise floor (the [if is_american] block). *)
Definition implicit_floor (M : nat) (dS K : Q) (is_call : bool) (FV : matrix) (i : nat)
  : result matrix :=
  intrinsic_value <-
    Np.maximum (if is_call then map (fun j => j * dS - K) (Np.arange_n (M + 1))
                else map (fun j => K - j * dS) (Np.arange_n (M + 1)))
               (nth i FV []) ;;
  Np.set_row FV i intrinsic_value.

Definition implicit_body (B : matrix) (a c : vec) (M : nat) (dS K : Q)
    (is_call is_american : bool) (i : nat) (FV : matrix) : result matrix :=
  FV <- implicit_step B a c M FV i ;;
  if is_american then implicit_floor M dS K is_call FV i else Ok FV.

(** [for i in range(N - 1, -1, -1)]; [n] is the number of rows still to
    be computed. *)
Fixpoint backward_loop (B : matrix) (a c : vec) (M : nat) (dS K : Q)
    (is_call is_american : bool) (n : nat) (FV : matrix) : result matrix :=
  match n with
  | O => Ok FV
  | S i =>
      FV <- implicit_body B a c M dS K is_call is_american i FV ;;
      backward_loop B a c M dS K is_call is_american i FV
  end.

Definition backward_iteration (FV B : matrix) (a c : vec) (N M : nat) (dS K : Q)
    (is_call is_american : bool) : result matrix :=
  backward_loop B a c M dS K is_call is_american N FV.

(** The whole function, keeping its intermediate values. *)
Definition implicit_run (S_0 T K r q sigma : Q) (N M : nat) (is_call is_american : bool)
  : result run :=
  let S_max := 2 * K in
  dS <- Np.py_div S_max (Np.float M) ;;
  dt <- Np.py_div T (Np.float N) ;;
  let '(a, b, c) := compute_transition_probabilities M dt r q sigma in
  Binf <- create_tridiagonal_matrix a b c ;;
  let B := fst Binf in
  let infinity_norm := snd Binf in
  FV0 <- initialize_option_matrix N M S_max dS K r dt is_call ;;
  FV <- backward_iteration FV0 B a c N M dS K is_call is_american ;;
  Ok (mkRun dS dt a b c B FV0 FV (Np.get FV 0 (M / 2), infinity_norm)).

Definition vanilla_option_implicit (S_0 T K r q sigma : Q) (N M : nat)
    (is_call is_american : bool) : result (Q * Q) :=
  out <- implicit_run S_0 T K r q sigma N M is_call is_american ;;
  Ok (run_out out).

End Pricing.

(** * Vocabulary of the statements *)

(** A grid of [n] rows of [m] entries. *)
Definition shape (n m : nat) (X : matrix) : Prop :=
  length X = n /\ Forall (fun row => length row = m) X.

(** A matrix or a vector without negative entries. *)
Definition nonneg (v : vec) : Prop := Forall (fun x => 0 <= x) v.
Definition nonneg_matrix (A : matrix) : Prop := Forall nonneg A.

(** [FV <= FV'] entry by entry, for two grids of the same shape. *)
Definition vec_le (v v' : vec) : Prop := Forall2 Qle v v'.
Definition grid_le (FV FV' : matrix) : Prop := Forall2 vec_le FV FV'.

(** The loops of the two notebooks have one form: row [i] receives, in its
    columns [0..M-1], a vector computed from row [i+1]; an American contract
    then takes the entrywise maximum of the row with a row of exercise
    values.  [loop_with] is that form, without the error monad; the two
    loops are proved equal to it when the shapes are right. *)
Definition step_with (f : vec -> vec) (M : nat) (FV : matrix) (i : nat) : matrix :=
  Np.set_row_prefix FV i M (f (nth (i + 1) FV [])).

Definition floored (floor_row : vec) (FV : matrix) (i : nat) : matrix :=
  upd i (zip_with Qmax floor_row (nth i FV [])) FV.

Definition body_with (f : vec -> vec) (floor_row : vec) (american : bool) (M : nat)
    (i : nat) (FV : matrix) : matrix :=
  let FV := step_with f M FV i in
  if american then floored floor_row FV i else FV.

Fixpoint loop_with (f : vec -> vec) (floor_row : vec) (american : bool) (M : nat)
    (n : nat) (FV : matrix) : matrix :=
  match n with
  | O => FV
  | S i => loop_with f floor_row american M i (body_with f floor_row american M i FV)
  end.

(** The vector the explicit step writes, as a function of row [i+1]:
    [np.dot(row[0:M], A) + k_i]. *)
Definition explicit_row (A : matrix) (a c : vec) (M : nat) (row : vec) : vec :=
  Np.vadd (Np.dot (firstn M row) A)
    (upd (M - 1) (nth (M - 1) c 0 * nth M row 0)
       (upd 0 (nth 0 a 0 * nth 0 row 0) (Np.zeros M))).

(** The vector the implicit step writes: [np.dot(row[:M] + k_i, B)]. *)
Definition implicit_row (B : matrix) (a c : vec) (M : nat) (row : vec) : vec :=
  Np.dot (Np.vadd (firstn M row)
            (upd (M - 1) (- nth (M - 1) c 0 * nth M row 0)
               (upd 0 (- nth 0 a 0 * nth 0 row 0) (Np.zeros M)))) B.

(** The price levels [j * dS] as the two notebooks compute them, and the
    exercise values the floor compares with. *)
Definition price_levels (dS : Q) (M : nat) : vec :=
  map (fun i => 0 + Np.float i * dS) (seq 0 (M + 1)).

Definition explicit_floor_row (K : Q) (isCall : bool) (levels : vec) : vec :=
  if isCall then map (fun s => s - K) levels else map (fun s => K - s) levels.

Definition implicit_floor_row (M : nat) (dS K : Q) (is_call : bool) : vec :=
  if is_call then map (fun j => j * dS - K) (Np.arange_n (M + 1))
  else map (fun j => K - j * dS) (Np.arange_n (M + 1)).

(** The payoff of the contract at the price [S], and its exercise value
    (the payoff without the floor at 0). *)
Definition payoff (isCall : bool) (K S : Q) : Q :=
  if isCall then Qmax (S - K) 0 else Qmax (K - S) 0.

Definition exercise_value (isCall : bool) (K S : Q) : Q :=
  if isCall then S - K else K - S.

(** The early-exercise floor, applied to the first [M] columns of a row. *)
Definition floor_if (american : bool) (floor_row x : vec) : vec :=
  if american then zip_with Qmax floor_row x else x.

(** The operator each scheme assembles from its coefficients. *)
Definition explicit_operator (M : nat) (dt r q sigma : Q) : matrix :=
  let '(a, b, c) := explicit_coefficients M dt r q sigma in tridiagonal a b c.

Definition implicit_operator (M : nat) (dt r q sigma : Q) : matrix :=
  let '(a, b, c) := compute_transition_probabilities M dt r q sigma in tridiagonal a b c.

(** The exact inverse of a 2 x 2 matrix, by the adjugate formula: what
    [la.inv] computes on such a matrix.  It instantiates [la_inv] in the
    examples with [M = 2]. *)
Definition inv_2x2 (A : matrix) : result matrix :=
  match A with
  | [[p; q]; [r; s]] =>
      let det := p * s - q * r in
      if Qeq_bool det 0 then Raise LinAlgError
      else Ok [[s / det; - q / det]; [- r / det; p / det]]
  | _ => Raise LinAlgError
  end.

(** The exact inverse of a square matrix, by Gauss-Jordan elimination on
    [A | I] with the first non-zero pivot of each column: what [la.inv]
    computes in exact arithmetic, with [LinAlgError] on a singular matrix.
    It instantiates [la_inv] in the examples with [M = 4]. *)
Definition vscale (k : Q) (v : vec) : vec := map (fun x => Qred (k * x)) v.

Definition vsub_scaled (v : vec) (k : Q) (p : vec) : vec :=
  zip_with (fun x y => Qred (x - k * y)) v p.

Fixpoint find_pivot (rows : matrix) (col : nat) : option nat :=
  match rows with
  | [] => None
  | row :: rest =>
      if Qeq_bool (nth col row 0) 0 then option_map S (find_pivot rest col) else Some 0%nat
  end.

Fixpoint eliminate (col i : nat) (p : vec) (rows : matrix) : matrix :=
  match rows with
  | [] => []
  | row :: rest =>
      (if (i =? col)%nat then p else vsub_scaled row (nth col row 0) p)
        :: eliminate col (S i) p rest
  end.

Fixpoint gauss_jordan (fuel col : nat) (rows : matrix) : result matrix :=
  match fuel with
  | O => Ok rows
  | S fuel' =>
      match find_pivot (skipn col rows) col with
      | None => Raise LinAlgError
      | Some k =>
          let p := nth (col + k) rows [] in
          let rows := upd (col + k) (nth col rows []) rows in
          let p := vscale (/ nth col p 0) p in
          gauss_jordan fuel' (S col) (eliminate col 0 p rows)
      end
  end.

Definition identity (n : nat) : matrix :=
  map (fun i => map (fun j => if (i =? j)%nat then 1 else 0) (seq 0 n)) (seq 0 n).

Definition inv_exact (A : matrix) : result matrix :=
  let n := length A in
  rows <- gauss_jordan n 0 (zip_with (@app Q) A (identity n)) ;;
  Ok (map (skipn n) rows).

(** [np.dot(B, A)] is the identity matrix of size [M]: what the test of the
    notebook asserts of the matrix [B] that [la.inv] returned for [A]
    (there up to rounding, here exactly). *)
Definition is_left_inverse (M : nat) (B A : matrix) : Prop :=
  forall l k, (l < M)%nat -> (k < M)%nat ->
    nth k (Np.dot (nth l B []) A) 0 == if (l =? k)%nat then 1 else 0.

Definition left_inverse_check (M : nat) (B A : matrix) : bool :=
  forallb (fun l =>
    forallb (fun k =>
      Qeq_bool (nth k (Np.dot (nth l B []) A) 0) (if (l =? k)%nat then 1 else 0))
      (seq 0 M)) (seq 0 M).

(** Rows compared, and their sign taken, from column 1 on.  Column 0 is
    left out: its coefficient [a[1]] has the sign of [r - q - sigma^2]. *)
Definition tail_le (v v' : vec) : Prop := vec_le (tl v) (tl v').
Definition tail_nonneg (v : vec) : Prop := nonneg (tl v).

(** A matrix whose product with a row vector keeps that order and that sign:
    outside its first column, its first row is zero and its other rows have
    no negative entry. *)
Definition tail_monotone (A : matrix) : Prop :=
  forall j, (1 <= j)%nat ->
    nth j (hd [] A) 0 == 0 /\ Forall (fun row => 0 <= nth j row 0) (tl A).

(** Entry [k] of the product of a row vector [g] with the tridiagonal matrix
    of [a], [b], [c]: the entries of column [k] are [c[k-1]], [b[k]] and
    [a[k+1]]. *)
Definition tridiagonal_column (a b c : vec) (M : nat) (g : nat -> Q) (k : nat) : Q :=
  (if (1 <=? k)%nat then g (k - 1)%nat * nth (k - 1) c 0 else 0)
  + g k * nth k b 0
  + (if (k + 1 <? M)%nat then g (k + 1)%nat * nth (k + 1) a 0 else 0).

(** The range of the parameters in which the step of each scheme keeps the
    order and the sign of rows from column 1 on ([dt] is the time step).
    Explicit scheme: [a[j] >= 0] from [j = 2] on and [b[j], c[j] >= 0] from
    [j = 1] on.  Implicit scheme: [a[j] <= 0] from [j = 2] on, [c[j] <= 0]
    from [j = 1] on, and the entries [c[k-1] + b[k] + a[k+1]] of each column
    of the operator sum to the positive number [1 + (2r - q - sigma^2) dt]. *)
Definition explicit_monotone_range (M : nat) (dt r q sigma : Q) : Prop :=
  0 <= dt /\ 0 < 1 + r * dt /\ r - q <= 2 * sigma ^ 2 /\ q - r <= sigma ^ 2 /\
  sigma ^ 2 * dt * Np.float (M - 1) ^ 2 <= 1.

Definition implicit_monotone_range (dt r q sigma : Q) : Prop :=
  0 <= dt /\ r - q <= 2 * sigma ^ 2 /\ q - r <= sigma ^ 2 /\
  0 < 1 + (2 * r - q - sigma ^ 2) * dt.

(** A positive function standing for [numpy.exp] in the examples:
    [1 + x] for [x >= 0] and [1 / (1 - x)] for [x < 0]. *)
Definition exp_approx (x : Q) : Q :=
  if Qle_bool 0 x then 1 + x else 1 / (1 - x).

(** [np.arange(0, S_max + dS, dS)], as the implicit entry point calls it for
    the strike [K] and [M] space steps, has the [M + 1] entries of a row of
    the grid. *)
Definition levels_fit (np_levels : Q -> Q -> nat) (K : Q) (M : nat) : Prop :=
  np_levels (2 * K) (2 * K / Np.float M) = (M + 1)%nat.


(** The inputs the specification calls valid. *)
Definition valid_input (T K sigma : Q) (N M : nat) : Prop :=
  0 < T /\ 0 < K /\ 0 < sigma /\ (1 <= N)%nat /\ (1 <= M)%nat /\ Nat.even M = true.

(** Two grids of [N + 1] rows and [M + 1] columns that agree from row [n]
    on, and in column [M] above it. *)
Definition agree_from (N M n : nat) (FV FV' : matrix) : Prop :=
  shape (N + 1) (M + 1) FV /\ shape (N + 1) (M + 1) FV' /\
  (forall i, (n <= i)%nat -> nth i FV [] = nth i FV' []) /\
  (forall i, (i < n)%nat -> Np.get FV i M = Np.get FV' i M).

Section Vocabulary.

Variable np_exp : Q -> Q.

(** The value written in the discounted boundary column at time row [i]. *)
Definition discounted (N : nat) (X r dt : Q) (i : nat) : Q :=
  X * np_exp (- r * (inject_Z (Z.of_nat N - Z.of_nat i)) * dt).

(** The grid after the two column assignments, and the row assigned last. *)
Definition boundary_columns (N M : nat) (low S_max K r dt : Q) (isCall : bool) : matrix :=
  if isCall then
    Np.set_col (Np.set_col_scalar (Np.zeros2 (N + 1) (M + 1)) 0 low) M
      (map (discounted N S_max r dt) (seq 0 (N + 1)))
  else
    Np.set_col_scalar
      (Np.set_col (Np.zeros2 (N + 1) (M + 1)) 0
         (map (discounted N K r dt) (seq 0 (N + 1)))) M 0.

Definition terminal_payoffs (K : Q) (isCall : bool) (levels : vec) : vec :=
  Np.maximum_scalar
    (if isCall then map (fun s => s - K) levels else map (fun s => K - s) levels) 0.

(** The grid the boundary conditions produce from the price levels. *)
Definition initial_grid (N M : nat) (dS K r dt : Q) (isCall : bool) : matrix :=
  upd N (terminal_payoffs K isCall (price_levels dS M))
    (boundary_columns N M 0 (2 * K) K r dt isCall).

(** The values of one call of [VanillaOption_Explicit], in closed form. *)
Definition explicit_trace (T K r q sigma : Q) (N M : nat) (isCall isAmerican : bool) : run :=
  let dS := (2 * K - 0) / Np.float M in
  let dt := T / Np.float N in
  let '(a, b, c) := explicit_coefficients M dt r q sigma in
  let A := tridiagonal a b c in
  let FV0 := initial_grid N M dS K r dt isCall in
  let FV := loop_with (explicit_row A a c M)
              (explicit_floor_row K isCall (price_levels dS M)) isAmerican M N FV0 in
  mkRun dS dt a b c A FV0 FV (Np.get FV 0 ((M + 1 + 1) / 2), Np.norm_inf A).

(** The values of one call of [vanilla_option_implicit] in closed form,
    given the matrix [B] that [la.inv] returned. *)
Definition implicit_trace (B : matrix) (T K r q sigma : Q) (N M : nat)
    (is_call is_american : bool) : run :=
  let dS := 2 * K / Np.float M in
  let dt := T / Np.float N in
  let '(a, b, c) := compute_transition_probabilities M dt r q sigma in
  let FV0 := initial_grid N M dS K r dt is_call in
  let FV := loop_with (implicit_row B a c M)
              (implicit_floor_row M dS K is_call) is_american M N FV0 in
  mkRun dS dt a b c B FV0 FV (Np.get FV 0 (M / 2), Np.norm_inf B).

End Vocabulary.

(** * Facts about the array operations *)

Section ListFacts.

Context {A : Type}.

Lemma length_upd (i : nat) (x : A) (l : list A) : length (upd i x l) = length l.
Proof.
  revert i; induction l as [|h t IH]; intros [|i]; simpl; auto.
Qed.

Lemma nth_upd_eq (i : nat) (x d : A) (l : list A) :
  (i < length l)%nat -> nth i (upd i x l) d = x.
Proof.
  revert i; induction l as [|h t IH]; intros [|i] H; simpl in *; try lia; auto.
  apply IH; lia.
Qed.

Lemma nth_upd_neq (i j : nat) (x d : A) (l : list A) :
  i <> j -> nth j (upd i x l) d = nth j l d.
Proof.
  revert i j; induction l as [|h t IH]; intros [|i] [|j] H; simpl; auto; try lia.
Qed.

Lemma upd_out_of_range (i : nat) (x : A) (l : list A) :
  (length l <= i)%nat -> upd i x l = l.
Proof.
  revert i; induction l as [|h t IH]; intros [|i] H; simpl in *; auto; try lia.
  f_equal; apply IH; lia.
Qed.

Lemma Forall_upd (P : A -> Prop) (i : nat) (x : A) (l : list A) :
  Forall P l -> P x -> Forall P (upd i x l).
Proof.
  intros Hl Hx; revert i; induction Hl as [|h t Hh Ht IH]; intros [|i]; simpl; auto.
Qed.

End ListFacts.

Lemma length_zip_with {A B C : Type} (f : A -> B -> C) (l : list A) (l' : list B) :
  length (zip_with f l l') = Nat.min (length l) (length l').
Proof.
  revert l'; induction l as [|x t IH]; intros [|y t']; simpl; auto.
Qed.

Lemma nth_zip_with {A B C : Type} (f : A -> B -> C) (l : list A) (l' : list B)
    (i : nat) (a : A) (b : B) (c : C) :
  (i < length l)%nat -> (i < length l')%nat ->
  nth i (zip_with f l l') c = f (nth i l a) (nth i l' b).
Proof.
  revert l' i; induction l as [|x t IH]; intros [|y t'] [|i] H H'; simpl in *; try lia; auto.
  apply IH; lia.
Qed.

Lemma shape_row (n m i : nat) (X : matrix) :
  shape n m X -> (i < n)%nat -> length (nth i X []) = m.
Proof.
  intros [Hn Hr] Hi. rewrite Forall_forall in Hr. apply Hr, nth_In. lia.
Qed.

Lemma shape_ncols (n m : nat) (X : matrix) :
  shape n m X -> (1 <= n)%nat -> Np.ncols X = m.
Proof.
  intros H Hn. unfold Np.ncols.
  replace (hd [] X) with (nth 0 X []) by (destruct X; reflexivity).
  apply (shape_row n); auto.
Qed.

Lemma shape_zeros2 (n m : nat) : shape n m (Np.zeros2 n m).
Proof.
  split.
  - apply repeat_length.
  - apply Forall_forall. intros row H. apply repeat_spec in H. subst.
    apply repeat_length.
Qed.

Lemma shape_upd (n m i : nat) (row : vec) (X : matrix) :
  shape n m X -> length row = m -> shape n m (upd i row X).
Proof.
  intros [Hn Hr] H. split.
  - now rewrite length_upd.
  - now apply Forall_upd.
Qed.

Lemma shape_set_col_scalar (n m j : nat) (x : Q) (X : matrix) :
  shape n m X -> shape n m (Np.set_col_scalar X j x).
Proof.
  intros [Hn Hr]. split.
  - unfold Np.set_col_scalar. now rewrite length_map.
  - unfold Np.set_col_scalar. apply Forall_map.
    eapply Forall_impl; [|exact Hr]. intros row H. simpl. now rewrite length_upd.
Qed.

Lemma shape_set_col (n m j : nat) (xs : vec) (X : matrix) :
  shape n m X -> length xs = n -> shape n m (Np.set_col X j xs).
Proof.
  intros [Hn Hr] Hx. split.
  - unfold Np.set_col. rewrite length_zip_with. lia.
  - unfold Np.set_col. clear Hn Hx. revert xs.
    induction Hr as [|row t Hrow Ht IH]; intros [|x xs]; simpl; auto.
    constructor; auto. now rewrite length_upd.
Qed.

Lemma shape_set_row_prefix (n m i k : nat) (xs : vec) (X : matrix) :
  shape n m X -> length xs = k -> (k <= m)%nat ->
  shape n m (Np.set_row_prefix X i k xs).
Proof.
  intros HX Hx Hk. unfold Np.set_row_prefix.
  destruct (Nat.lt_ge_cases i n) as [Hi|Hi].
  - apply shape_upd; auto.
    rewrite length_app, length_skipn, (shape_row n m i X HX Hi). lia.
  - rewrite upd_out_of_range; auto. destruct HX; lia.
Qed.

(** Reading the grid after an update of one row or of one column. *)

Lemma get_upd_same (X : matrix) (i j : nat) (row : vec) :
  (i < length X)%nat -> Np.get (upd i row X) i j = nth j row 0.
Proof.
  intros H. unfold Np.get. now rewrite nth_upd_eq.
Qed.

Lemma get_upd_other (X : matrix) (i i' j : nat) (row : vec) :
  i <> i' -> Np.get (upd i row X) i' j = Np.get X i' j.
Proof.
  intros H. unfold Np.get. now rewrite nth_upd_neq.
Qed.

Lemma row_upd_other (X : matrix) (i i' : nat) (row : vec) :
  i <> i' -> nth i' (upd i row X) [] = nth i' X [].
Proof.
  intros H. now rewrite nth_upd_neq.
Qed.

Lemma get_set_row_prefix_other (X : matrix) (i i' j k : nat) (xs : vec) :
  i <> i' -> Np.get (Np.set_row_prefix X i k xs) i' j = Np.get X i' j.
Proof.
  intros H. unfold Np.set_row_prefix. now apply get_upd_other.
Qed.

Lemma row_set_row_prefix (n m i k : nat) (X : matrix) (xs : vec) :
  shape n m X -> (i < n)%nat ->
  nth i (Np.set_row_prefix X i k xs) [] = xs ++ skipn k (nth i X []).
Proof.
  intros [Hn _] Hi. unfold Np.set_row_prefix. apply nth_upd_eq. lia.
Qed.

Lemma get_set_row_prefix_low (n m i j k : nat) (X : matrix) (xs : vec) :
  shape n m X -> (i < n)%nat -> length xs = k -> (j < k)%nat ->
  Np.get (Np.set_row_prefix X i k xs) i j = nth j xs 0.
Proof.
  intros HX Hi Hx Hj. unfold Np.get.
  rewrite (row_set_row_prefix n m); auto. rewrite app_nth1; auto. lia.
Qed.

Lemma get_set_row_prefix_high (n m i j k : nat) (X : matrix) (xs : vec) :
  shape n m X -> (i < n)%nat -> length xs = k -> (k <= j)%nat ->
  Np.get (Np.set_row_prefix X i k xs) i j = Np.get X i j.
Proof.
  intros HX Hi Hx Hj. unfold Np.get.
  rewrite (row_set_row_prefix n m); auto. rewrite app_nth2 by lia.
  rewrite nth_skipn. f_equal. lia.
Qed.

Lemma firstn_set_row_prefix (n m i k : nat) (X : matrix) (xs : vec) :
  shape n m X -> (i < n)%nat -> length xs = k ->
  firstn k (nth i (Np.set_row_prefix X i k xs) []) = xs.
Proof.
  intros HX Hi Hx. rewrite (row_set_row_prefix n m); auto.
  rewrite firstn_app, <- Hx, firstn_all, Nat.sub_diag. simpl. apply app_nil_r.
Qed.

(** ** Numbers *)

Lemma Qceiling_unique (x : Q) (z : Z) :
  inject_Z z - 1 < x -> x <= inject_Z z -> Qceiling x = z.
Proof.
  intros Hlo Hhi.
  assert (Hle : (Qceiling x <= z)%Z).
  { rewrite <- (Qceiling_Z z). now apply Qceiling_resp_le. }
  assert (Hlt : (z - 1 < Qceiling x)%Z).
  { rewrite Zlt_Qlt. unfold Z.sub. rewrite inject_Z_plus, inject_Z_opp.
    eapply Qlt_le_trans; [|apply Qle_ceiling].
    change (inject_Z 1) with 1. lra. }
  lia.
Qed.

Lemma float_S (n : nat) : Np.float (S n) == Np.float n + 1.
Proof.
  unfold Np.float. rewrite Nat2Z.inj_succ. unfold Z.succ.
  rewrite inject_Z_plus. reflexivity.
Qed.

Lemma float_nonneg (n : nat) : 0 <= Np.float n.
Proof.
  unfold Np.float. change 0 with (inject_Z 0). rewrite <- Zle_Qle. lia.
Qed.

Lemma float_pos (n : nat) : (1 <= n)%nat -> 0 < Np.float n.
Proof.
  intros H. unfold Np.float. change 0 with (inject_Z 0). rewrite <- Zlt_Qlt. lia.
Qed.

Lemma py_div_ok (x y : Q) : ~ y == 0 -> Np.py_div x y = Ok (x / y).
Proof.
  intros H. unfold Np.py_div.
  destruct (Qeq_bool y 0) eqn:E; auto.
  apply Qeq_bool_eq in E. contradiction.
Qed.

Lemma py_div_zero (x y : Q) : y == 0 -> Np.py_div x y = Raise ZeroDivisionError.
Proof.
  intros H. unfold Np.py_div. apply Qeq_bool_iff in H. now rewrite H.
Qed.

Lemma py_div_float_ok (x : Q) (n : nat) :
  (1 <= n)%nat -> Np.py_div x (Np.float n) = Ok (x / Np.float n).
Proof.
  intros H. apply py_div_ok. pose proof (float_pos n H). lra.
Qed.

Lemma nth_map_seq {A : Type} (f : nat -> A) (n i : nat) (d : A) :
  (i < n)%nat -> nth i (map f (seq 0 n)) d = f i.
Proof.
  intros H. rewrite (nth_indep _ d (f 0%nat)) by (now rewrite length_map, length_seq).
  rewrite map_nth, seq_nth; auto.
Qed.

Lemma arange_ok (start stop step : Q) (n : nat) :
  ~ step == 0 -> Qceiling ((stop - start) / step) = Z.of_nat n ->
  Np.arange start stop step = Ok (map (fun i => start + Np.float i * step) (seq 0 n)).
Proof.
  intros Hs Hn. unfold Np.arange.
  destruct (Qeq_bool step 0) eqn:E.
  - apply Qeq_bool_eq in E. contradiction.
  - now rewrite Hn, Nat2Z.id.
Qed.

Lemma arange_zero_step (start stop step : Q) :
  step == 0 -> Np.arange start stop step = Raise ZeroDivisionError.
Proof.
  intros H. unfold Np.arange. apply Qeq_bool_iff in H. now rewrite H.
Qed.

(** The price levels of the explicit notebook:
    [np.arange(S_min, S_max + dS/2, dS)] has [M + 1] entries. *)
Lemma explicit_price_levels (K : Q) (M : nat) :
  (1 <= M)%nat -> ~ K == 0 ->
  let dS := (2 * K - 0) / Np.float M in
  Np.arange 0 (2 * K + dS / 2) dS
  = Ok (map (fun i => 0 + Np.float i * dS) (seq 0 (M + 1))).
Proof.
  intros HM HK dS. pose proof (float_pos M HM) as Hf.
  assert (HdS : ~ dS == 0).
  { unfold dS. intros H. apply HK.
    assert (E : 2 * K == (2 * K - 0) / Np.float M * Np.float M) by (field; lra).
    rewrite H in E. lra. }
  apply arange_ok; auto.
  assert (E : (2 * K + dS / 2 - 0) / dS == Np.float M + (1#2)).
  { unfold dS. field. split; lra. }
  rewrite E. apply Qceiling_unique.
  - replace (M + 1)%nat with (S M) by lia.
    change (inject_Z (Z.of_nat (S M))) with (Np.float (S M)). rewrite float_S. lra.
  - replace (M + 1)%nat with (S M) by lia.
    change (inject_Z (Z.of_nat (S M))) with (Np.float (S M)). rewrite float_S. lra.
Qed.

(** The price levels of the implicit notebook:
    [np.arange(0, S_max + dS, dS)] has [M + 1] entries. *)
Lemma arange_of_len_ok (n : nat) (start step : Q) :
  ~ step == 0 ->
  Np.arange_of_len n start step
  = Ok (map (fun i => start + Np.float i * step) (seq 0 n)).
Proof.
  intros Hs. unfold Np.arange_of_len.
  destruct (Qeq_bool step 0) eqn:E; [|reflexivity].
  apply Qeq_bool_eq in E. contradiction.
Qed.

Lemma arange_of_len_zero_step (n : nat) (start step : Q) :
  step == 0 -> Np.arange_of_len n start step = Raise ZeroDivisionError.
Proof.
  intros H. unfold Np.arange_of_len. apply Qeq_bool_iff in H. now rewrite H.
Qed.

Lemma step_nonzero (K : Q) (M : nat) :
  (1 <= M)%nat -> ~ K == 0 -> ~ 2 * K / Np.float M == 0.
Proof.
  intros HM HK H. pose proof (float_pos M HM) as Hf. apply HK.
  assert (E : 2 * K == 2 * K / Np.float M * Np.float M) by (field; lra).
  rewrite H in E. lra.
Qed.

(** In exact arithmetic the implicit notebook's [np.arange] has the [M + 1]
    entries of a row. *)
Lemma implicit_levels_exact (K : Q) (M : nat) :
  (1 <= M)%nat -> ~ K == 0 ->
  levels_fit Np.levels_exact K M.
Proof.
  intros HM HK. set (dS := 2 * K / Np.float M). pose proof (float_pos M HM) as Hf.
  pose proof (step_nonzero K M HM HK) as HdS. fold dS in HdS.
  unfold levels_fit, Np.levels_exact. fold dS.
  assert (E : (2 * K + dS - 0) / dS == Np.float M + 1).
  { unfold dS. field. split; lra. }
  rewrite E. rewrite <- (Nat2Z.id (M + 1)). f_equal. apply Qceiling_unique.
  - replace (M + 1)%nat with (S M) by lia.
    change (inject_Z (Z.of_nat (S M))) with (Np.float (S M)). rewrite float_S. lra.
  - replace (M + 1)%nat with (S M) by lia.
    change (inject_Z (Z.of_nat (S M))) with (Np.float (S M)). rewrite float_S. lra.
Qed.

(** ** The grid after the boundary conditions *)

Lemma get_set_col_scalar (X : matrix) (i j j' : nat) (x : Q) (n m : nat) :
  shape n m X -> (i < n)%nat -> (j < m)%nat ->
  Np.get (Np.set_col_scalar X j x) i j' = if (j' =? j)%nat then x else Np.get X i j'.
Proof.
  intros HX Hi Hj. unfold Np.get, Np.set_col_scalar.
  rewrite (nth_indep _ [] (upd j x [])) by (rewrite length_map; destruct HX; lia).
  rewrite (map_nth (upd j x)).
  destruct (Nat.eqb_spec j' j) as [->|Hne].
  - apply nth_upd_eq. rewrite (shape_row n m); auto.
  - apply nth_upd_neq. auto.
Qed.

Lemma get_set_col (X : matrix) (i j j' : nat) (xs : vec) (n m : nat) :
  shape n m X -> length xs = n -> (i < n)%nat -> (j < m)%nat ->
  Np.get (Np.set_col X j xs) i j' = if (j' =? j)%nat then nth i xs 0 else Np.get X i j'.
Proof.
  intros HX Hx Hi Hj. unfold Np.get, Np.set_col.
  rewrite (nth_zip_with _ X xs i [] 0 []) by (destruct HX; lia).
  destruct (Nat.eqb_spec j' j) as [->|Hne].
  - apply nth_upd_eq. rewrite (shape_row n m); auto.
  - apply nth_upd_neq. auto.
Qed.

Lemma get_zeros2 (n m i j : nat) : Np.get (Np.zeros2 n m) i j = 0.
Proof.
  unfold Np.get, Np.zeros2, Np.zeros.
  destruct (Nat.lt_ge_cases i n) as [Hi|Hi].
  - rewrite nth_repeat_lt by auto.
    destruct (Nat.lt_ge_cases j m) as [Hj|Hj].
    + now rewrite nth_repeat_lt.
    + apply nth_overflow. now rewrite repeat_length.
  - rewrite (nth_overflow (repeat (repeat 0 m) n)) by (now rewrite repeat_length).
    now destruct j.
Qed.

Section Boundary.

Variable np_exp : Q -> Q.

Lemma explicit_initialize_unfold (N M : nat) (S_min S_max dS K r dt : Q) (isCall : bool) :
  explicit_initialize np_exp N M S_min S_max dS K r dt isCall
  = (grid <- Np.arange S_min (S_max + dS / 2) dS ;;
     Np.set_row (boundary_columns np_exp N M S_min S_max K r dt isCall) N
       (terminal_payoffs K isCall grid)).
Proof. destruct isCall; reflexivity. Qed.

Lemma initialize_option_matrix_unfold (np_levels : Q -> Q -> nat)
    (N M : nat) (S_max dS K r dt : Q) (is_call : bool) :
  initialize_option_matrix np_exp np_levels N M S_max dS K r dt is_call
  = (grid <- Np.arange_of_len (np_levels S_max dS) 0 dS ;;
     Np.set_row_broadcast (boundary_columns np_exp N M 0 S_max K r dt is_call) N
       (terminal_payoffs K is_call grid)).
Proof. destruct is_call; reflexivity. Qed.

Lemma shape_boundary_columns (N M : nat) (low S_max K r dt : Q) (isCall : bool) :
  shape (N + 1) (M + 1) (boundary_columns np_exp N M low S_max K r dt isCall).
Proof.
  unfold boundary_columns. destruct isCall.
  - apply shape_set_col; [apply shape_set_col_scalar, shape_zeros2|].
    now rewrite length_map, length_seq.
  - apply shape_set_col_scalar, shape_set_col; [apply shape_zeros2|].
    now rewrite length_map, length_seq.
Qed.

(** The entries of the boundary columns: the call has [low] in column 0
    and the discounted [S_max] in column [M]; the put the discounted
    strike in column 0 and 0 in column [M]; every other entry is 0. *)
Lemma get_boundary_columns (N M : nat) (low S_max K r dt : Q) (isCall : bool) (i j : nat) :
  (1 <= M)%nat -> (i <= N)%nat ->
  Np.get (boundary_columns np_exp N M low S_max K r dt isCall) i j
  = if isCall then
      if (j =? M)%nat then discounted np_exp N S_max r dt i
      else if (j =? 0)%nat then low else 0
    else
      if (j =? M)%nat then 0
      else if (j =? 0)%nat then discounted np_exp N K r dt i else 0.
Proof.
  intros HM Hi. unfold boundary_columns. destruct isCall.
  - rewrite (get_set_col _ i M j _ (N + 1) (M + 1)); try lia.
    + destruct (j =? M)%nat.
      * apply nth_map_seq. lia.
      * rewrite (get_set_col_scalar _ i 0 j _ (N + 1) (M + 1)); try lia.
        -- now rewrite get_zeros2.
        -- apply shape_zeros2.
    + apply shape_set_col_scalar, shape_zeros2.
    + now rewrite length_map, length_seq.
  - rewrite (get_set_col_scalar _ i M j _ (N + 1) (M + 1)); try lia.
    + destruct (j =? M)%nat; auto.
      rewrite (get_set_col _ i 0 j _ (N + 1) (M + 1)); try lia.
      * destruct (j =? 0)%nat.
        -- apply nth_map_seq. lia.
        -- now rewrite get_zeros2.
      * apply shape_zeros2.
      * now rewrite length_map, length_seq.
    + apply shape_set_col; [apply shape_zeros2|].
      now rewrite length_map, length_seq.
Qed.

Lemma length_terminal_payoffs (K : Q) (isCall : bool) (levels : vec) :
  length (terminal_payoffs K isCall levels) = length levels.
Proof.
  unfold terminal_payoffs, Np.maximum_scalar.
  destruct isCall; now rewrite !length_map.
Qed.

Lemma nth_terminal_payoffs (K dS : Q) (isCall : bool) (n j : nat) :
  (j < n)%nat ->
  nth j (terminal_payoffs K isCall
           (map (fun i => 0 + Np.float i * dS) (seq 0 n))) 0
  = if isCall then Qmax (0 + Np.float j * dS - K) 0
    else Qmax (K - (0 + Np.float j * dS)) 0.
Proof.
  intros Hj. unfold terminal_payoffs, Np.maximum_scalar.
  destruct isCall; rewrite !map_map; now rewrite nth_map_seq.
Qed.

(** What the boundary conditions leave in the grid, given the price
    levels [arange] returned. *)
Lemma set_terminal_row_broadcast (N M : nat) (low S_max K r dt : Q) (isCall : bool)
    (levels : vec) :
  length levels = (M + 1)%nat ->
  Np.set_row_broadcast (boundary_columns np_exp N M low S_max K r dt isCall) N
    (terminal_payoffs K isCall levels)
  = Ok (upd N (terminal_payoffs K isCall levels)
          (boundary_columns np_exp N M low S_max K r dt isCall)).
Proof.
  intros H. unfold Np.set_row_broadcast.
  rewrite length_terminal_payoffs, H.
  rewrite (shape_row (N + 1) (M + 1)); [|apply shape_boundary_columns|lia].
  now rewrite Nat.eqb_refl.
Qed.

(** A row of levels that is neither a row of the grid nor a single entry is
    refused. *)
Lemma set_terminal_row_mismatch (N M : nat) (low S_max K r dt : Q) (isCall : bool)
    (levels : vec) :
  length levels <> (M + 1)%nat -> length levels <> 1%nat ->
  Np.set_row_broadcast (boundary_columns np_exp N M low S_max K r dt isCall) N
    (terminal_payoffs K isCall levels)
  = Raise ValueError.
Proof.
  intros H H1. unfold Np.set_row_broadcast.
  rewrite length_terminal_payoffs.
  rewrite (shape_row (N + 1) (M + 1)); [|apply shape_boundary_columns|lia].
  destruct (Nat.eqb_spec (length levels) (M + 1)); [contradiction|].
  destruct (Nat.eqb_spec (length levels) 1); [contradiction|reflexivity].
Qed.

Lemma set_terminal_row (N M : nat) (low S_max K r dt : Q) (isCall : bool) (levels : vec) :
  length levels = (M + 1)%nat ->
  Np.set_row (boundary_columns np_exp N M low S_max K r dt isCall) N
    (terminal_payoffs K isCall levels)
  = Ok (upd N (terminal_payoffs K isCall levels)
          (boundary_columns np_exp N M low S_max K r dt isCall)).
Proof.
  intros H. unfold Np.set_row.
  rewrite length_terminal_payoffs, H.
  rewrite (shape_row (N + 1) (M + 1)); [|apply shape_boundary_columns|lia].
  now rewrite Nat.eqb_refl.
Qed.

End Boundary.

(** ** Entrywise order *)

Lemma Forall2_upd {A B : Type} (R : A -> B -> Prop) (i : nat) (x : A) (y : B)
    (l : list A) (l' : list B) :
  Forall2 R l l' -> R x y -> Forall2 R (upd i x l) (upd i y l').
Proof.
  intros H Hxy; revert i; induction H as [|a b t t' Hab Ht IH]; intros [|i]; simpl; auto.
Qed.

Lemma Forall2_firstn {A B : Type} (R : A -> B -> Prop) (n : nat) (l : list A) (l' : list B) :
  Forall2 R l l' -> Forall2 R (firstn n l) (firstn n l').
Proof.
  intros H; revert n; induction H as [|a b t t' Hab Ht IH]; intros [|n]; simpl; auto.
Qed.

Lemma Forall2_skipn {A B : Type} (R : A -> B -> Prop) (n : nat) (l : list A) (l' : list B) :
  Forall2 R l l' -> Forall2 R (skipn n l) (skipn n l').
Proof.
  intros H; revert n; induction H as [|a b t t' Hab Ht IH]; intros [|n]; simpl; auto.
Qed.

Lemma Forall2_nth {A B : Type} (R : A -> B -> Prop) (i : nat) (a : A) (b : B)
    (l : list A) (l' : list B) :
  Forall2 R l l' -> R a b -> R (nth i l a) (nth i l' b).
Proof.
  intros H Hab; revert i; induction H as [|x y t t' Hxy Ht IH]; intros [|i]; simpl; auto.
Qed.

Lemma Forall2_map_seq {A B : Type} (R : A -> B -> Prop) (f : nat -> A) (g : nat -> B)
    (l : list nat) :
  (forall i, R (f i) (g i)) -> Forall2 R (map f l) (map g l).
Proof.
  intros H; induction l; simpl; auto.
Qed.

Lemma Forall2_zip_with {A B C A' B' C' : Type} (R : A -> A' -> Prop) (S : B -> B' -> Prop)
    (T : C -> C' -> Prop) (f : A -> B -> C) (g : A' -> B' -> C')
    (l : list A) (l' : list A') (m : list B) (m' : list B') :
  (forall a a' b b', R a a' -> S b b' -> T (f a b) (g a' b')) ->
  Forall2 R l l' -> Forall2 S m m' ->
  Forall2 T (zip_with f l m) (zip_with g l' m').
Proof.
  intros H Hl; revert m m'; induction Hl as [|a a' t t' Ha Ht IH];
    intros m m' Hm; destruct Hm; simpl; auto.
Qed.

Lemma Forall_nth {A : Type} (P : A -> Prop) (i : nat) (d : A) (l : list A) :
  Forall P l -> P d -> P (nth i l d).
Proof.
  intros H Hd; revert i; induction H as [|x t Hx Ht IH]; intros [|i]; simpl; auto.
Qed.

Lemma Forall_firstn {A : Type} (P : A -> Prop) (n : nat) (l : list A) :
  Forall P l -> Forall P (firstn n l).
Proof.
  intros H; revert n; induction H as [|x t Hx Ht IH]; intros [|n]; simpl; auto.
Qed.

Lemma Forall_skipn {A : Type} (P : A -> Prop) (n : nat) (l : list A) :
  Forall P l -> Forall P (skipn n l).
Proof.
  intros H; revert n; induction H as [|x t Hx Ht IH]; intros [|n]; simpl; auto.
Qed.

Lemma Forall_zip_with {A B C : Type} (P : A -> Prop) (P' : B -> Prop) (P'' : C -> Prop)
    (f : A -> B -> C) (l : list A) (l' : list B) :
  (forall a b, P a -> P' b -> P'' (f a b)) ->
  Forall P l -> Forall P' l' -> Forall P'' (zip_with f l l').
Proof.
  intros H Hl; revert l'; induction Hl as [|a t Ha Ht IH]; intros l' Hl';
    destruct Hl'; simpl; auto.
Qed.

Lemma vec_le_refl (v : vec) : vec_le v v.
Proof. induction v; constructor; auto. apply Qle_refl. Qed.

Lemma vec_le_trans (u v w : vec) : vec_le u v -> vec_le v w -> vec_le u w.
Proof.
  intros H; revert w; induction H as [|a b t t' Hab Ht IH]; intros w Hw;
    inversion Hw; subst; constructor.
  - eapply Qle_trans; eauto.
  - now apply IH.
Qed.

Lemma grid_le_refl (X : matrix) : grid_le X X.
Proof. induction X; constructor; auto. apply vec_le_refl. Qed.

Lemma grid_le_get (X Y : matrix) (i j : nat) :
  grid_le X Y -> Np.get X i j <= Np.get Y i j.
Proof.
  intros H. unfold Np.get. apply Forall2_nth; [|apply Qle_refl].
  apply (Forall2_nth vec_le); [exact H|constructor].
Qed.

Lemma grid_le_row (X Y : matrix) (i : nat) :
  grid_le X Y -> vec_le (nth i X []) (nth i Y []).
Proof.
  intros H. apply (Forall2_nth vec_le); [exact H|constructor].
Qed.

Lemma nonneg_nth (v : vec) (i : nat) : nonneg v -> 0 <= nth i v 0.
Proof. intros H. apply Forall_nth; auto. apply Qle_refl. Qed.

Lemma nonneg_matrix_get (A : matrix) (i j : nat) : nonneg_matrix A -> 0 <= Np.get A i j.
Proof.
  intros H. unfold Np.get. apply nonneg_nth.
  apply (Forall_nth nonneg); [exact H|constructor].
Qed.

Lemma nonneg_column (A : matrix) (j : nat) : nonneg_matrix A -> nonneg (Np.column A j).
Proof.
  intros H. unfold Np.column. apply Forall_map.
  eapply Forall_impl; [|exact H]. intros row Hrow. now apply nonneg_nth.
Qed.

(** ** Sums and products *)

Lemma vsum_mul_mono (v v' col : vec) :
  vec_le v v' -> nonneg col ->
  vsum (zip_with Qmult v col) <= vsum (zip_with Qmult v' col).
Proof.
  intros H; revert col; induction H as [|a b t t' Hab Ht IH]; intros col Hc.
  - apply Qle_refl.
  - destruct Hc as [|x col Hx Hc]; simpl; [apply Qle_refl|].
    apply Qplus_le_compat; [|now apply IH].
    now apply Qmult_le_compat_r.
Qed.

Lemma vsum_mul_nonneg (v col : vec) :
  nonneg v -> nonneg col -> 0 <= vsum (zip_with Qmult v col).
Proof.
  intros H; revert col; induction H as [|a t Ha Ht IH]; intros col Hc.
  - apply Qle_refl.
  - destruct Hc as [|x col Hx Hc]; simpl; [apply Qle_refl|].
    pose proof (Qmult_le_0_compat _ _ Ha Hx). pose proof (IH col Hc). lra.
Qed.

Lemma length_dot (v : vec) (A : matrix) : length (Np.dot v A) = Np.ncols A.
Proof. unfold Np.dot. now rewrite length_map, length_seq. Qed.

Lemma nth_dot (v : vec) (A : matrix) (j : nat) :
  (j < Np.ncols A)%nat ->
  nth j (Np.dot v A) 0 = vsum (zip_with Qmult v (Np.column A j)).
Proof. intros H. unfold Np.dot. now rewrite nth_map_seq. Qed.

Lemma dot_mono (v v' : vec) (A : matrix) :
  vec_le v v' -> nonneg_matrix A -> vec_le (Np.dot v A) (Np.dot v' A).
Proof.
  intros Hv HA. unfold Np.dot. apply Forall2_map_seq. intros j.
  apply vsum_mul_mono; auto. now apply nonneg_column.
Qed.

Lemma dot_nonneg (v : vec) (A : matrix) :
  nonneg v -> nonneg_matrix A -> nonneg (Np.dot v A).
Proof.
  intros Hv HA. unfold Np.dot. apply Forall_map, Forall_forall. intros j _.
  apply vsum_mul_nonneg; auto. now apply nonneg_column.
Qed.

Lemma length_vadd (x y : vec) : length (Np.vadd x y) = Nat.min (length x) (length y).
Proof. apply length_zip_with. Qed.

Lemma vadd_mono (x x' y y' : vec) :
  vec_le x x' -> vec_le y y' -> vec_le (Np.vadd x y) (Np.vadd x' y').
Proof.
  intros Hx Hy. unfold Np.vadd.
  apply (Forall2_zip_with Qle Qle Qle); auto.
  intros. now apply Qplus_le_compat.
Qed.

Lemma vadd_nonneg (x y : vec) : nonneg x -> nonneg y -> nonneg (Np.vadd x y).
Proof.
  intros Hx Hy. unfold Np.vadd.
  apply (Forall_zip_with (fun x => 0 <= x) (fun x => 0 <= x)); auto.
  intros a b Ha Hb. simpl in *. lra.
Qed.

(** ** The tridiagonal operator *)

Lemma shape_diag (v : vec) (k : Z) :
  shape (length v + Z.abs_nat k) (length v + Z.abs_nat k) (Np.diag v k).
Proof.
  unfold Np.diag. split.
  - now rewrite length_map, length_seq.
  - apply Forall_map, Forall_forall. intros i _. now rewrite length_map, length_seq.
Qed.

Lemma nonneg_diag (v : vec) (k : Z) : nonneg v -> nonneg_matrix (Np.diag v k).
Proof.
  intros H. unfold Np.diag. apply Forall_map, Forall_forall. intros i _.
  apply Forall_map, Forall_forall. intros j _.
  destruct (Z.of_nat j =? Z.of_nat i + k)%Z; [now apply nonneg_nth|apply Qle_refl].
Qed.

Lemma shape_madd (n m : nat) (X Y : matrix) :
  shape n m X -> shape n m Y -> shape n m (Np.madd X Y).
Proof.
  intros [HXn HXr] [HYn HYr]. split.
  - unfold Np.madd. rewrite length_zip_with. lia.
  - unfold Np.madd.
    apply (Forall_zip_with (fun row => length row = m) (fun row => length row = m)); auto.
    intros a b Ha Hb. rewrite length_vadd. lia.
Qed.

Lemma nonneg_madd (X Y : matrix) :
  nonneg_matrix X -> nonneg_matrix Y -> nonneg_matrix (Np.madd X Y).
Proof.
  intros HX HY. unfold Np.madd.
  apply (Forall_zip_with nonneg nonneg); auto. apply vadd_nonneg.
Qed.

Lemma length_tl {A : Type} (l : list A) : length (tl l) = (length l - 1)%nat.
Proof. destruct l; simpl; lia. Qed.

Lemma length_removelast' {A : Type} (l : list A) :
  length (removelast l) = (length l - 1)%nat.
Proof.
  rewrite removelast_firstn_len, length_firstn. lia.
Qed.

Lemma nonneg_tl (v : vec) : nonneg v -> nonneg (tl v).
Proof. intros H. destruct H; simpl; auto. constructor. Qed.

Lemma nonneg_removelast (v : vec) : nonneg v -> nonneg (removelast v).
Proof. intros H. rewrite removelast_firstn_len. now apply Forall_firstn. Qed.

Lemma shape_tridiagonal (a b c : vec) (M : nat) :
  (1 <= M)%nat -> length a = M -> length b = M -> length c = M ->
  shape M M (tridiagonal a b c).
Proof.
  intros HM Ha Hb Hc. unfold tridiagonal.
  pose proof (shape_diag b 0) as H0.
  pose proof (shape_diag (tl a) (-1)) as H1.
  pose proof (shape_diag (removelast c) 1) as H2.
  rewrite length_tl, Ha in H1. rewrite length_removelast', Hc in H2. rewrite Hb in H0.
  simpl Z.abs_nat in *.
  replace (M - 1 + Pos.to_nat 1)%nat with M in * by lia.
  replace (M + 0)%nat with M in * by lia.
  now repeat apply shape_madd.
Qed.

Lemma nonneg_tridiagonal (a b c : vec) :
  nonneg a -> nonneg b -> nonneg c -> nonneg_matrix (tridiagonal a b c).
Proof.
  intros Ha Hb Hc. unfold tridiagonal.
  repeat apply nonneg_madd; apply nonneg_diag; auto using nonneg_tl, nonneg_removelast.
Qed.

Lemma length_explicit_coefficients (M : nat) (dt r q sigma : Q) (a b c : vec) :
  explicit_coefficients M dt r q sigma = (a, b, c) ->
  length a = M /\ length b = M /\ length c = M.
Proof.
  unfold explicit_coefficients, Np.arange_n. intros H. inversion H; subst.
  now rewrite !length_map, length_seq.
Qed.

Lemma length_compute_transition_probabilities (M : nat) (dt r q sigma : Q) (a b c : vec) :
  compute_transition_probabilities M dt r q sigma = (a, b, c) ->
  length a = M /\ length b = M /\ length c = M.
Proof.
  unfold compute_transition_probabilities, Np.arange_n. intros H. inversion H; subst.
  now rewrite !length_map, length_seq.
Qed.

(** ** The loops in closed form *)

Section LoopShape.

Variables (f : vec -> vec) (floor_row : vec) (american : bool) (N M : nat).
Hypothesis f_length : forall row, length (f row) = M.

Lemma shape_step_with (FV : matrix) (i : nat) :
  shape (N + 1) (M + 1) FV -> shape (N + 1) (M + 1) (step_with f M FV i).
Proof.
  intros H. unfold step_with. apply shape_set_row_prefix; auto. lia.
Qed.

Hypothesis floor_length : length floor_row = (M + 1)%nat.

Lemma shape_floored (FV : matrix) (i : nat) :
  shape (N + 1) (M + 1) FV -> shape (N + 1) (M + 1) (floored floor_row FV i).
Proof.
  intros H. unfold floored.
  destruct (Nat.lt_ge_cases i (N + 1)) as [Hi|Hi].
  - apply shape_upd; auto.
    rewrite length_zip_with, floor_length, (shape_row (N + 1) (M + 1)); auto. lia.
  - rewrite upd_out_of_range; auto. destruct H; lia.
Qed.

Lemma shape_body_with (FV : matrix) (i : nat) :
  shape (N + 1) (M + 1) FV ->
  shape (N + 1) (M + 1) (body_with f floor_row american M i FV).
Proof.
  intros H. unfold body_with. destruct american.
  - now apply shape_floored, shape_step_with.
  - now apply shape_step_with.
Qed.

Lemma shape_loop_with (n : nat) (FV : matrix) :
  shape (N + 1) (M + 1) FV ->
  shape (N + 1) (M + 1) (loop_with f floor_row american M n FV).
Proof.
  revert FV; induction n as [|i IH]; intros FV H; simpl; auto.
  now apply IH, shape_body_with.
Qed.

End LoopShape.

Lemma length_explicit_row (A : matrix) (a c : vec) (M : nat) (row : vec) :
  shape M M A -> (1 <= M)%nat -> length (explicit_row A a c M row) = M.
Proof.
  intros HA HM. unfold explicit_row.
  rewrite length_vadd, length_dot, (shape_ncols M M A HA HM), !length_upd.
  unfold Np.zeros. rewrite repeat_length. lia.
Qed.

Lemma length_implicit_row (B : matrix) (a c : vec) (M : nat) (row : vec) :
  shape M M B -> (1 <= M)%nat -> length (implicit_row B a c M row) = M.
Proof.
  intros HB HM. unfold implicit_row.
  now rewrite length_dot, (shape_ncols M M B HB HM).
Qed.

Lemma length_price_levels (dS : Q) (M : nat) : length (price_levels dS M) = (M + 1)%nat.
Proof. unfold price_levels. now rewrite length_map, length_seq. Qed.

Lemma length_explicit_floor_row (K : Q) (isCall : bool) (levels : vec) :
  length (explicit_floor_row K isCall levels) = length levels.
Proof. unfold explicit_floor_row. destruct isCall; now rewrite length_map. Qed.

Lemma length_implicit_floor_row (M : nat) (dS K : Q) (is_call : bool) :
  length (implicit_floor_row M dS K is_call) = (M + 1)%nat.
Proof.
  unfold implicit_floor_row, Np.arange_n.
  destruct is_call; now rewrite !length_map, length_seq.
Qed.

(** One pass of the explicit loop succeeds on a well-shaped grid and is
    [body_with]. *)
Lemma explicit_grid_body_ok (A : matrix) (a c : vec) (N M : nat) (S_min S_max dS K : Q)
    (isCall isAmerican : bool) (levels : vec) (i : nat) (FV : matrix) :
  shape M M A -> (1 <= M)%nat -> (i < N + 1)%nat ->
  Np.arange S_min (S_max + dS / 2) dS = Ok levels -> length levels = (M + 1)%nat ->
  shape (N + 1) (M + 1) FV ->
  explicit_grid_body A a c M S_min S_max dS K isCall isAmerican i FV
  = Ok (body_with (explicit_row A a c M) (explicit_floor_row K isCall levels)
          isAmerican M i FV).
Proof.
  intros HA HM Hi Hgrid Hlen HFV.
  unfold explicit_grid_body, body_with.
  change (explicit_step A a c M FV i) with (step_with (explicit_row A a c M) M FV i).
  destruct isAmerican; auto.
  assert (Hs : shape (N + 1) (M + 1) (step_with (explicit_row A a c M) M FV i)).
  { apply shape_step_with; auto. intros row. now apply length_explicit_row. }
  unfold explicit_floor. rewrite Hgrid. simpl.
  fold (explicit_floor_row K isCall levels).
  unfold Np.maximum.
  rewrite length_explicit_floor_row, Hlen, (shape_row (N + 1) (M + 1)); auto.
  rewrite Nat.eqb_refl. simpl.
  unfold Np.set_row.
  rewrite length_zip_with, length_explicit_floor_row, Hlen,
    (shape_row (N + 1) (M + 1)); auto.
  rewrite Nat.min_id, Nat.eqb_refl. reflexivity.
Qed.

Lemma explicit_loop_ok (A : matrix) (a c : vec) (N M : nat) (S_min S_max dS K : Q)
    (isCall isAmerican : bool) (levels : vec) (n : nat) (FV : matrix) (out : Q) :
  shape M M A -> (1 <= M)%nat -> (n <= N)%nat ->
  Np.arange S_min (S_max + dS / 2) dS = Ok levels -> length levels = (M + 1)%nat ->
  shape (N + 1) (M + 1) FV ->
  let FV' := loop_with (explicit_row A a c M) (explicit_floor_row K isCall levels)
               isAmerican M n FV in
  explicit_loop A a c M S_min S_max dS K isCall isAmerican n (FV, out)
  = Ok (FV', match n with O => out | S _ => Np.get FV' 0 ((M + 1 + 1) / 2) end).
Proof.
  intros HA HM Hn Hgrid Hlen. revert FV out.
  induction n as [|i IH]; intros FV out HFV; simpl; auto.
  unfold explicit_body at 1. simpl fst.
  rewrite (explicit_grid_body_ok A a c N M S_min S_max dS K isCall isAmerican levels);
    auto; try lia.
  simpl.
  set (FV1 := body_with (explicit_row A a c M) (explicit_floor_row K isCall levels)
                isAmerican M i FV).
  assert (H1 : shape (N + 1) (M + 1) FV1).
  { apply shape_body_with; auto.
    - intros row. now apply length_explicit_row.
    - now rewrite length_explicit_floor_row. }
  rewrite IH; auto; try lia.
  destruct i; simpl; auto.
  now rewrite (shape_ncols (N + 1) (M + 1) FV1 H1) by lia.
Qed.

(** One pass of the implicit loop succeeds on a well-shaped grid and is
    [body_with]. *)
Lemma item_ok (v : vec) (i : nat) :
  (i < length v)%nat -> Np.item v i = Ok (nth i v 0).
Proof.
  intros H. unfold Np.item.
  destruct (nth_error v i) as [x|] eqn:E.
  - now rewrite (nth_error_nth v i 0 E).
  - apply nth_error_None in E. lia.
Qed.

Lemma item_out_of_range (v : vec) (i : nat) :
  (length v <= i)%nat -> Np.item v i = Raise IndexError.
Proof.
  intros H. unfold Np.item. apply nth_error_None in H. now rewrite H.
Qed.

(** [k_i] is computed when [a] has an entry and [c] has [M] of them. *)
Lemma implicit_k_i_ok (a c : vec) (FV : matrix) (i M : nat) :
  (1 <= M)%nat -> (1 <= length a)%nat -> (M <= length c)%nat ->
  implicit_k_i a c FV i M
  = Ok (upd (M - 1) (- nth (M - 1) c 0 * Np.get FV (i + 1) M)
          (upd 0 (- nth 0 a 0 * Np.get FV (i + 1) 0) (Np.zeros M))).
Proof.
  intros HM Ha Hc. unfold implicit_k_i.
  rewrite item_ok by lia. cbn [bind].
  unfold Np.set_item at 1. unfold Np.zeros at 1. rewrite repeat_length.
  destruct (Nat.ltb_spec 0 M); [|lia]. cbn [bind].
  rewrite item_ok by lia. cbn [bind].
  unfold Np.set_item. rewrite length_upd. unfold Np.zeros. rewrite repeat_length.
  destruct (Nat.ltb_spec (M - 1) M); [|lia]. reflexivity.
Qed.

(** A vector [a] without entries, or a vector [c] with fewer than [M], is an
    [IndexError]. *)
Lemma implicit_k_i_short (a c : vec) (FV : matrix) (i M : nat) :
  (1 <= M)%nat -> (length a = 0 \/ length c < M)%nat ->
  implicit_k_i a c FV i M = Raise IndexError.
Proof.
  intros HM H. unfold implicit_k_i.
  destruct a as [|a0 a'].
  - reflexivity.
  - destruct H as [H|H]; [discriminate|].
    rewrite item_ok by (simpl; lia). cbn [bind].
    unfold Np.set_item at 1. unfold Np.zeros at 1. rewrite repeat_length.
    destruct (Nat.ltb_spec 0 M); [|lia]. cbn [bind].
    now rewrite item_out_of_range by lia.
Qed.

Lemma implicit_step_ok (B : matrix) (a c : vec) (M : nat) (FV : matrix) (i : nat) :
  (1 <= M)%nat -> (1 <= length a)%nat -> (M <= length c)%nat ->
  implicit_step B a c M FV i = Ok (step_with (implicit_row B a c M) M FV i).
Proof.
  intros HM Ha Hc. unfold implicit_step. rewrite implicit_k_i_ok by auto. reflexivity.
Qed.

Lemma implicit_body_ok (B : matrix) (a c : vec) (N M : nat) (dS K : Q)
    (is_call is_american : bool) (i : nat) (FV : matrix) :
  shape M M B -> (1 <= M)%nat -> (i < N + 1)%nat ->
  (1 <= length a)%nat -> (M <= length c)%nat ->
  shape (N + 1) (M + 1) FV ->
  implicit_body B a c M dS K is_call is_american i FV
  = Ok (body_with (implicit_row B a c M) (implicit_floor_row M dS K is_call)
          is_american M i FV).
Proof.
  intros HB HM Hi Ha Hc HFV.
  unfold implicit_body, body_with.
  rewrite implicit_step_ok by auto. cbn [bind].
  destruct is_american; auto.
  assert (Hs : shape (N + 1) (M + 1) (step_with (implicit_row B a c M) M FV i)).
  { apply shape_step_with; auto. intros row. now apply length_implicit_row. }
  unfold implicit_floor.
  fold (implicit_floor_row M dS K is_call).
  unfold Np.maximum.
  rewrite length_implicit_floor_row, (shape_row (N + 1) (M + 1)); auto.
  rewrite Nat.eqb_refl. simpl.
  unfold Np.set_row.
  rewrite length_zip_with, length_implicit_floor_row, (shape_row (N + 1) (M + 1)); auto.
  rewrite Nat.min_id, Nat.eqb_refl. reflexivity.
Qed.

Lemma backward_loop_ok (B : matrix) (a c : vec) (N M : nat) (dS K : Q)
    (is_call is_american : bool) (n : nat) (FV : matrix) :
  shape M M B -> (1 <= M)%nat -> (n <= N)%nat ->
  (1 <= length a)%nat -> (M <= length c)%nat ->
  shape (N + 1) (M + 1) FV ->
  backward_loop B a c M dS K is_call is_american n FV
  = Ok (loop_with (implicit_row B a c M) (implicit_floor_row M dS K is_call)
          is_american M n FV).
Proof.
  intros HB HM Hn Ha Hc. revert FV.
  induction n as [|i IH]; intros FV HFV; simpl; auto.
  rewrite (implicit_body_ok B a c N M); auto; try lia. simpl.
  apply IH; try lia.
  apply shape_body_with; auto.
  - intros row. now apply length_implicit_row.
  - apply length_implicit_floor_row.
Qed.

(** ** The two entry points in closed form *)

Section Traces.

Variable np_exp : Q -> Q.
Variable la_inv : matrix -> result matrix.
Variable np_levels : Q -> Q -> nat.

Lemma shape_initial_grid (N M : nat) (dS K r dt : Q) (isCall : bool) :
  shape (N + 1) (M + 1) (initial_grid np_exp N M dS K r dt isCall).
Proof.
  unfold initial_grid. apply shape_upd; [apply shape_boundary_columns|].
  now rewrite length_terminal_payoffs, length_price_levels.
Qed.

Lemma explicit_initialize_ok (N M : nat) (K r dt : Q) (isCall : bool) :
  (1 <= M)%nat -> ~ K == 0 ->
  let dS := (2 * K - 0) / Np.float M in
  explicit_initialize np_exp N M 0 (2 * K) dS K r dt isCall
  = Ok (initial_grid np_exp N M dS K r dt isCall).
Proof.
  intros HM HK dS. rewrite explicit_initialize_unfold.
  unfold dS. rewrite (explicit_price_levels K M HM HK). cbn [bind].
  fold (price_levels ((2 * K - 0) / Np.float M) M).
  apply set_terminal_row, length_price_levels.
Qed.

(** The implicit notebook's boundary conditions succeed when [np.arange]
    has the [M + 1] entries of a row. *)
Lemma initialize_option_matrix_ok (N M : nat) (K r dt : Q) (is_call : bool) :
  (1 <= M)%nat -> ~ K == 0 ->
  let dS := 2 * K / Np.float M in
  levels_fit np_levels K M ->
  initialize_option_matrix np_exp np_levels N M (2 * K) dS K r dt is_call
  = Ok (initial_grid np_exp N M dS K r dt is_call).
Proof.
  intros HM HK dS HL. rewrite initialize_option_matrix_unfold.
  rewrite arange_of_len_ok by (now apply step_nonzero).
  unfold levels_fit in HL. fold dS in HL. rewrite HL. cbn [bind].
  fold (price_levels dS M).
  apply set_terminal_row_broadcast, length_price_levels.
Qed.

(** With more than the [M + 1] entries of a row, the assignment of row [N]
    raises [ValueError]. *)
Lemma initialize_option_matrix_too_many (N M : nat) (K r dt : Q) (is_call : bool) :
  (1 <= M)%nat -> ~ K == 0 ->
  let dS := 2 * K / Np.float M in
  np_levels (2 * K) dS <> (M + 1)%nat ->
  np_levels (2 * K) dS <> 1%nat ->
  initialize_option_matrix np_exp np_levels N M (2 * K) dS K r dt is_call
  = Raise ValueError.
Proof.
  intros HM HK dS HL HL1. rewrite initialize_option_matrix_unfold.
  rewrite arange_of_len_ok by (now apply step_nonzero). cbn [bind].
  apply set_terminal_row_mismatch; now rewrite length_map, length_seq.
Qed.

(** For [N >= 1], [M >= 1] and [K <> 0], [VanillaOption_Explicit] runs to
    its end and computes [explicit_trace]. *)
Lemma explicit_run_ok (S_0 T K r q sigma : Q) (N M : nat) (isCall isAmerican : bool) :
  (1 <= N)%nat -> (1 <= M)%nat -> ~ K == 0 ->
  explicit_run np_exp S_0 T K r q sigma N M isCall isAmerican
  = Ok (explicit_trace np_exp T K r q sigma N M isCall isAmerican).
Proof.
  intros HN HM HK. unfold explicit_run, explicit_trace. cbv zeta.
  rewrite !py_div_float_ok by auto. cbn [bind].
  destruct (explicit_coefficients M (T / Np.float N) r q sigma) as [[a b] c] eqn:E.
  cbv beta iota.
  destruct (length_explicit_coefficients _ _ _ _ _ _ _ _ E) as (Ha & Hb & Hc).
  rewrite (explicit_initialize_ok N M K r (T / Np.float N) isCall HM HK). cbn [bind].
  rewrite (explicit_loop_ok _ a c N M 0 (2 * K) ((2 * K - 0) / Np.float M) K isCall
             isAmerican (price_levels ((2 * K - 0) / Np.float M) M));
    auto using shape_tridiagonal, shape_initial_grid, length_price_levels.
  - destruct N; [lia|]. reflexivity.
  - apply (explicit_price_levels K M HM HK).
Qed.

(** For [N >= 1], [M >= 1] and [K <> 0], [vanilla_option_implicit] runs to
    its end whenever [la.inv] returns a matrix [B] of the shape of [A], and
    computes [implicit_trace B]. *)
Lemma implicit_run_ok (S_0 T K r q sigma : Q) (N M : nat) (is_call is_american : bool)
    (B : matrix) :
  (1 <= N)%nat -> (1 <= M)%nat -> ~ K == 0 ->
  la_inv (implicit_operator M (T / Np.float N) r q sigma) = Ok B ->
  shape M M B ->
  levels_fit np_levels K M ->
  implicit_run np_exp la_inv np_levels S_0 T K r q sigma N M is_call is_american
  = Ok (implicit_trace np_exp B T K r q sigma N M is_call is_american).
Proof.
  intros HN HM HK Hinv HB HL. unfold implicit_run, implicit_trace. cbv zeta.
  unfold implicit_operator in Hinv.
  rewrite !py_div_float_ok by auto. cbn [bind].
  destruct (compute_transition_probabilities M (T / Np.float N) r q sigma)
    as [[a b] c] eqn:E.
  cbv beta iota.
  unfold create_tridiagonal_matrix. rewrite Hinv. cbn [bind]. simpl fst. simpl snd.
  rewrite (initialize_option_matrix_ok N M K r (T / Np.float N) is_call HM HK HL).
  cbn [bind]. unfold backward_iteration.
  destruct (length_compute_transition_probabilities _ _ _ _ _ _ _ _ E) as (La & Lb & Lc).
  rewrite (backward_loop_ok B a c N M); auto using shape_initial_grid; lia.
Qed.



End Traces.

(** ** What the loop changes and what it leaves *)

Lemma firstn_zip_with {A B C : Type} (g : A -> B -> C) (n : nat) (l : list A) (l' : list B) :
  firstn n (zip_with g l l') = zip_with g (firstn n l) (firstn n l').
Proof.
  revert l l'; induction n as [|n IH]; intros [|x t] [|y t']; simpl; auto.
  now rewrite IH.
Qed.

Lemma vec_le_zip_max_r (fl x y : vec) :
  vec_le x y -> length fl = length y -> vec_le x (zip_with Qmax fl y).
Proof.
  intros H; revert fl; induction H as [|a b t t' Hab Ht IH]; intros [|u fl] Hl;
    simpl in *; try discriminate; constructor.
  - eapply Qle_trans; [exact Hab|apply Q.le_max_r].
  - apply IH. lia.
Qed.

Lemma vec_le_zip_max_l (fl y : vec) :
  length fl = length y -> vec_le fl (zip_with Qmax fl y).
Proof.
  revert y; induction fl as [|u fl IH]; intros [|b y] Hl; simpl in *;
    try discriminate; constructor.
  - apply Q.le_max_l.
  - apply IH. lia.
Qed.

Lemma nonneg_zip_max_r (fl y : vec) : nonneg y -> nonneg (zip_with Qmax fl y).
Proof.
  intros H; revert fl; induction H as [|b y Hb Hy IH]; intros [|u fl]; simpl;
    constructor.
  - eapply Qle_trans; [exact Hb|apply Q.le_max_r].
  - apply IH.
Qed.

Section LoopFacts.

Variables (f : vec -> vec) (floor_row : vec) (N M : nat).

(** Pass [k] writes row [k] only. *)
Lemma body_with_other_row (american : bool) (FV : matrix) (k i : nat) :
  k <> i -> nth i (body_with f floor_row american M k FV) [] = nth i FV [].
Proof.
  intros H. unfold body_with, floored, step_with, Np.set_row_prefix.
  destruct american; now rewrite ?nth_upd_neq by auto.
Qed.

(** The rows from [n] on are not touched by the last [n] passes. *)
Lemma loop_with_frame_rows (american : bool) (n : nat) (FV : matrix) (i : nat) :
  (n <= i)%nat -> nth i (loop_with f floor_row american M n FV) [] = nth i FV [].
Proof.
  revert FV; induction n as [|k IH]; intros FV H; cbn [loop_with]; auto.
  rewrite IH by lia. apply body_with_other_row. lia.
Qed.

Hypothesis f_length : forall row, length (f row) = M.

(** Without the early-exercise floor no pass writes column [M]. *)
Lemma loop_with_frame_last_column (n : nat) (FV : matrix) (i : nat) :
  shape (N + 1) (M + 1) FV ->
  Np.get (loop_with f floor_row false M n FV) i M = Np.get FV i M.
Proof.
  revert FV; induction n as [|k IH]; intros FV H; cbn [loop_with]; auto.
  rewrite IH by (apply shape_step_with; auto).
  unfold body_with, step_with.
  destruct (Nat.eq_dec k i) as [->|Hne].
  - destruct (Nat.lt_ge_cases i (N + 1)) as [Hi|Hi].
    + apply (get_set_row_prefix_high (N + 1) (M + 1)); auto.
    + unfold Np.set_row_prefix. rewrite upd_out_of_range; auto. destruct H; lia.
  - now apply get_set_row_prefix_other.
Qed.

(** Row [i] holds, in its first [M] columns, the vector computed from row
    [i + 1], after the floor when the contract is American. *)
Lemma loop_with_recurrence (american : bool) (n : nat) (FV : matrix) (i : nat) :
  length floor_row = (M + 1)%nat ->
  shape (N + 1) (M + 1) FV -> (n <= N)%nat -> (i < n)%nat ->
  let FV' := loop_with f floor_row american M n FV in
  firstn M (nth i FV' [])
  = if american then zip_with Qmax (firstn M floor_row) (f (nth (i + 1) FV' []))
    else f (nth (i + 1) FV' []).
Proof.
  intros Hf. revert FV; induction n as [|k IH]; intros FV H Hn Hi; [lia|].
  cbn [loop_with].
  assert (Hb : shape (N + 1) (M + 1) (body_with f floor_row american M k FV))
    by (apply shape_body_with; auto).
  destruct (Nat.eq_dec i k) as [->|Hne].
  - rewrite !loop_with_frame_rows by lia.
    rewrite (body_with_other_row american FV k (k + 1)) by lia.
    unfold body_with, floored.
    assert (Hs : shape (N + 1) (M + 1) (step_with f M FV k))
      by (apply shape_step_with; auto).
    destruct american.
    + rewrite nth_upd_eq by (destruct Hs; lia).
      rewrite firstn_zip_with. f_equal.
      unfold step_with. apply (firstn_set_row_prefix (N + 1) (M + 1)); auto. lia.
    + unfold step_with. apply (firstn_set_row_prefix (N + 1) (M + 1)); auto. lia.
  - apply IH; auto; lia.
Qed.

(** After a pass with the floor, row [k] dominates the exercise values. *)
Lemma loop_with_floor (n : nat) (FV : matrix) (i : nat) :
  length floor_row = (M + 1)%nat ->
  shape (N + 1) (M + 1) FV -> (n <= N + 1)%nat -> (i < n)%nat ->
  vec_le floor_row (nth i (loop_with f floor_row true M n FV) []).
Proof.
  intros Hf. revert FV; induction n as [|k IH]; intros FV H Hn Hi; [lia|].
  cbn [loop_with].
  destruct (Nat.eq_dec i k) as [->|Hne].
  - rewrite loop_with_frame_rows by lia.
    assert (Hs : shape (N + 1) (M + 1) (step_with f M FV k))
      by (apply shape_step_with; auto).
    unfold body_with, floored. rewrite nth_upd_eq by (destruct Hs; lia).
    apply vec_le_zip_max_l. rewrite (shape_row (N + 1) (M + 1)); auto; lia.
  - apply IH; auto; try lia. apply shape_body_with; auto.
Qed.

Hypothesis f_mono : forall row row', vec_le row row' -> vec_le (f row) (f row').

(** The loop with the floor dominates the loop without it. *)
Lemma loop_with_american_dominates (n : nat) (FVe FVa : matrix) :
  length floor_row = (M + 1)%nat ->
  shape (N + 1) (M + 1) FVa ->
  grid_le FVe FVa ->
  grid_le (loop_with f floor_row false M n FVe) (loop_with f floor_row true M n FVa).
Proof.
  intros Hf. revert FVe FVa; induction n as [|k IH]; intros FVe FVa Ha Hle; cbn [loop_with]; auto.
  apply IH.
  - apply shape_body_with; auto.
  - assert (Hs : shape (N + 1) (M + 1) (step_with f M FVa k))
      by (apply shape_step_with; auto).
    assert (Hstep : grid_le (step_with f M FVe k) (step_with f M FVa k)).
    { unfold step_with, Np.set_row_prefix. apply Forall2_upd; auto.
      apply Forall2_app.
      - apply f_mono. now apply grid_le_row.
      - apply Forall2_skipn. now apply grid_le_row. }
    unfold body_with, floored.
    destruct (Nat.lt_ge_cases k (N + 1)) as [Hk|Hk].
    + replace (step_with f M FVe k)
        with (upd k (nth k (step_with f M FVe k) []) (step_with f M FVe k)) at 1.
      * apply Forall2_upd; auto.
        apply vec_le_zip_max_r; [now apply grid_le_row|].
        rewrite (shape_row (N + 1) (M + 1)); auto.
      * clear. generalize (step_with f M FVe k) as X. intros X. revert k.
        induction X as [|row X IHX]; intros [|k]; simpl; auto. now rewrite IHX.
    + rewrite upd_out_of_range; auto. destruct Hs; lia.
Qed.

Hypothesis f_nonneg : forall row, nonneg row -> nonneg (f row).

(** Non-negative grids stay non-negative. *)
Lemma loop_with_nonneg (american : bool) (n : nat) (FV : matrix) :
  nonneg_matrix FV -> nonneg_matrix (loop_with f floor_row american M n FV).
Proof.
  revert FV; induction n as [|k IH]; intros FV H; cbn [loop_with]; auto.
  apply IH.
  assert (Hstep : nonneg_matrix (step_with f M FV k)).
  { unfold step_with, Np.set_row_prefix. apply Forall_upd; auto.
    apply Forall_app. split.
    - apply f_nonneg. apply (Forall_nth nonneg); [exact H|constructor].
    - apply Forall_skipn. apply (Forall_nth nonneg); [exact H|constructor]. }
  unfold body_with, floored. destruct american; auto.
  apply Forall_upd; auto.
  apply nonneg_zip_max_r. apply (Forall_nth nonneg); [exact Hstep|constructor].
Qed.

End LoopFacts.

(** * The claims *)

(** ** C6: the terminal row is the discretized payoff *)

Lemma get_initial_grid_terminal (np_exp : Q -> Q) (N M : nat) (dS K r dt : Q)
    (isCall : bool) (j : nat) :
  (j <= M)%nat ->
  Np.get (initial_grid np_exp N M dS K r dt isCall) N j
  == payoff isCall K (Np.float j * dS).
Proof.
  intros Hj. unfold initial_grid.
  rewrite get_upd_same
    by (destruct (shape_boundary_columns np_exp N M 0 (2 * K) K r dt isCall); lia).
  unfold price_levels. rewrite nth_terminal_payoffs by lia.
  unfold payoff. destruct isCall; apply Q.max_compat; try reflexivity; ring.
Qed.

(** The lengths [Float64] computes for the inputs of the examples. *)
Lemma float64_levels_50_4 : levels_fit Float64.levels 50 4.
Proof. vm_compute. reflexivity. Qed.

Lemma float64_levels_50_2 : levels_fit Float64.levels 50 2.
Proof. vm_compute. reflexivity. Qed.

(** C6 (the implicit notebook does not always build the terminal row).
    For every valid input the explicit notebook's boundary conditions return
    a grid whose row [N] holds, at every column [j = 0..M], the payoff at the
    price [j * dS].  The implicit notebook's [initialize_option_matrix],
    called with the arguments the entry point passes, does so when
    [np.arange(0, S_max + dS, dS)] has [M + 1] entries, and raises
    [ValueError] at [FV[N, :] = ...] when it has more.  In [float64] it has
    more for [K = 1], [M = 6]: [2.0/6] rounds down, [2.0 + 2.0/6] rounds up,
    their quotient is above 7 and its ceiling is 8 where the row has 7
    columns; the explicit notebook's [np.arange] has 7 entries there. *)
Theorem terminal_row_unless_arange_rounds_up :
  (forall (np_exp : Q -> Q) (T K r sigma : Q) (N M : nat) (isCall : bool),
      valid_input T K sigma N M ->
      exists FV,
        explicit_initialize np_exp N M 0 (2 * K) ((2 * K - 0) / Np.float M) K r
          (T / Np.float N) isCall = Ok FV /\
        forall j, (j <= M)%nat ->
          Np.get FV N j == payoff isCall K (Np.float j * ((2 * K - 0) / Np.float M)))
  /\
  (forall (np_exp : Q -> Q) (np_levels : Q -> Q -> nat)
          (T K r sigma : Q) (N M : nat) (isCall : bool),
      valid_input T K sigma N M ->
      let dS := 2 * K / Np.float M in
      let levels := np_levels (2 * K) dS in
      (levels = (M + 1)%nat ->
       exists FV,
         initialize_option_matrix np_exp np_levels N M (2 * K) dS K r
           (T / Np.float N) isCall = Ok FV /\
         forall j, (j <= M)%nat -> Np.get FV N j == payoff isCall K (Np.float j * dS))
      /\
      ((M + 1 < levels)%nat ->
       initialize_option_matrix np_exp np_levels N M (2 * K) dS K r
         (T / Np.float N) isCall = Raise ValueError))
  /\
  implicit_levels64 (Float64.of_Z 1) 6 = Some 8%Z
  /\
  explicit_levels64 (Float64.of_Z 1) 6 = Some 7%Z
  /\
  (forall (np_exp : Q -> Q) (T r : Q) (N : nat) (isCall : bool),
      initialize_option_matrix np_exp Float64.levels N 6 (2 * 1) (2 * 1 / Np.float 6) 1 r
        (T / Np.float N) isCall = Raise ValueError).
Proof.
  split; [|split; [|split; [|split]]].
  - intros np_exp T K r sigma N M isCall (HT & HK & Hs & HN & HM & He).
    assert (HK' : ~ K == 0) by lra.
    exists (initial_grid np_exp N M ((2 * K - 0) / Np.float M) K r (T / Np.float N) isCall).
    split.
    + now apply explicit_initialize_ok.
    + intros j Hj. now apply get_initial_grid_terminal.
  - intros np_exp np_levels T K r sigma N M isCall (HT & HK & Hs & HN & HM & He) dS levels.
    assert (HK' : ~ K == 0) by lra.
    split.
    + intros HL.
      exists (initial_grid np_exp N M dS K r (T / Np.float N) isCall). split.
      * now apply initialize_option_matrix_ok.
      * intros j Hj. now apply get_initial_grid_terminal.
    + intros HL. apply initialize_option_matrix_too_many; auto; fold dS; fold levels; lia.
  - vm_compute. reflexivity.
  - vm_compute. reflexivity.
  - intros np_exp T r N isCall.
    apply initialize_option_matrix_too_many.
    + lia.
    + discriminate.
    + vm_compute. discriminate.
    + vm_compute. discriminate.
Qed.

(** C6, witness: [T = 1], [K = 50], [sigma = 0.25], [N = 2], [M = 4], a call,
    with the number of levels [float64] computes (5); column 3 is the
    price 75. *)
Lemma terminal_row_unless_arange_rounds_up_witness :
  valid_input 1 50 (1#4) 2 4 /\
  (exists FV,
      explicit_initialize exp_approx 2 4 0 (2 * 50) ((2 * 50 - 0) / Np.float 4) 50
        (1#10) (1 / Np.float 2) true = Ok FV /\
      Np.get FV 2 3 == 25) /\
  (exists FV,
      initialize_option_matrix exp_approx Float64.levels 2 4 (2 * 50)
        (2 * 50 / Np.float 4) 50 (1#10) (1 / Np.float 2) true = Ok FV /\
      Np.get FV 2 3 == 25).
Proof.
  assert (Hv : valid_input 1 50 (1#4) 2 4).
  { repeat split; try reflexivity; lia. }
  split; [exact Hv|].
  destruct terminal_row_unless_arange_rounds_up as (He & Hi & _).
  destruct (He exp_approx 1 50 (1#10) (1#4) 2%nat 4%nat true Hv) as (FV & HFV & H).
  destruct (Hi exp_approx Float64.levels 1 50 (1#10) (1#4) 2%nat 4%nat true Hv)
    as [Hok _].
  destruct (Hok float64_levels_50_4) as (FV' & HFV' & H').
  split.
  - exists FV. split; [exact HFV|]. rewrite (H 3%nat) by lia. reflexivity.
  - exists FV'. split; [exact HFV'|]. rewrite (H' 3%nat) by lia. reflexivity.
Defined.

(** ** C1: the column the fair value is read from *)

(** [vanilla_option_implicit] returns the entry of row 0 and column [M // 2]
    of the final grid. *)
Lemma implicit_fair_value_column (np_exp : Q -> Q) (la_inv : matrix -> result matrix)
    (np_levels : Q -> Q -> nat)
    (S_0 T K r q sigma : Q) (N M : nat) (is_call is_american : bool) (out : Q * Q) :
  vanilla_option_implicit np_exp la_inv np_levels S_0 T K r q sigma N M is_call is_american = Ok out ->
  exists r0,
    implicit_run np_exp la_inv np_levels S_0 T K r q sigma N M is_call is_american = Ok r0 /\
    out = run_out r0 /\
    fst out = Np.get (run_grid r0) 0 (M / 2).
Proof.
  unfold vanilla_option_implicit. intros H.
  destruct (implicit_run np_exp la_inv np_levels S_0 T K r q sigma N M is_call is_american)
    as [r0|e] eqn:E; cbn [bind] in H; [|discriminate].
  exists r0. inversion H; subst. repeat split.
  unfold implicit_run in E. cbv zeta in E.
  destruct (Np.py_div (2 * K) (Np.float M)) as [dS|]; cbn [bind] in E; [|discriminate].
  destruct (Np.py_div T (Np.float N)) as [dt|]; cbn [bind] in E; [|discriminate].
  destruct (compute_transition_probabilities M dt r q sigma) as [[a b] c].
  destruct (create_tridiagonal_matrix la_inv a b c) as [Binf|];
    cbn [bind] in E; [|discriminate].
  destruct (initialize_option_matrix np_exp np_levels N M (2 * K) dS K r dt is_call) as [FV0|];
    cbn [bind] in E; [|discriminate].
  destruct (backward_iteration FV0 (fst Binf) a c N M dS K is_call is_american) as [FV|];
    cbn [bind] in E; [|discriminate].
  inversion E; subst. reflexivity.
Qed.

(** For an even [M], [VanillaOption_Explicit] returns the entry of row 0 and
    column [M/2 + 1] of the final grid: [(FV.shape[1]+1)/2] is [(M + 2)/2]. *)
Lemma explicit_fair_value_column (np_exp : Q -> Q)
    (S_0 T K r q sigma : Q) (N M : nat) (isCall isAmerican : bool) :
  (1 <= N)%nat -> (1 <= M)%nat -> ~ K == 0 -> Nat.even M = true ->
  exists r0,
    explicit_run np_exp S_0 T K r q sigma N M isCall isAmerican = Ok r0 /\
    VanillaOption_Explicit np_exp S_0 T K r q sigma N M isCall isAmerican
    = Ok (run_out r0) /\
    fst (run_out r0) = Np.get (run_grid r0) 0 (M / 2 + 1).
Proof.
  intros HN HM HK He.
  exists (explicit_trace np_exp T K r q sigma N M isCall isAmerican).
  split; [now apply explicit_run_ok|]. split.
  - unfold VanillaOption_Explicit. now rewrite explicit_run_ok.
  - unfold explicit_trace.
    destruct (explicit_coefficients M (T / Np.float N) r q sigma) as [[a b] c].
    cbn [run_out run_grid fst]. f_equal.
    apply Nat.even_spec in He. destruct He as [k ->].
    replace (2 * k + 1 + 1)%nat with ((k + 1) * 2)%nat by lia.
    rewrite Nat.div_mul by lia.
    replace (2 * k)%nat with (k * 2)%nat by lia.
    rewrite Nat.div_mul by lia. reflexivity.
Qed.

(** C1 (the explicit scheme reads the wrong column).  On
    [S_0 = 50, T = 1, K = 50, r = 0.1, q = 0, sigma = 0.25, N = 1, M = 4], a
    European call, whatever [numpy.exp] computes, [VanillaOption_Explicit]
    returns [FV[0, 3] = 325/11], the entry right of the middle column, and
    not the middle entry [FV[0, 2] = 525/176]. *)
Theorem explicit_fair_value_is_right_of_the_middle :
  forall np_exp : Q -> Q,
  exists r0,
    explicit_run np_exp 50 1 50 (1#10) 0 (1#4) 1 4 true false = Ok r0 /\
    VanillaOption_Explicit np_exp 50 1 50 (1#10) 0 (1#4) 1 4 true false
    = Ok (run_out r0) /\
    fst (run_out r0) == Np.get (run_grid r0) 0 3 /\
    fst (run_out r0) == 325 # 11 /\
    Np.get (run_grid r0) 0 (4 / 2) == 525 # 176.
Proof.
  intros np_exp.
  exists (explicit_trace np_exp 1 50 (1#10) 0 (1#4) 1 4 true false).
  split; [apply explicit_run_ok; lia || discriminate|]. split.
  - unfold VanillaOption_Explicit.
    rewrite explicit_run_ok by (lia || discriminate). reflexivity.
  - repeat split; vm_compute; reflexivity.
Qed.

(** ** C2: no parameter is validated *)

Lemma explicit_entry_ok (np_exp : Q -> Q) (S_0 T K r q sigma : Q) (N M : nat)
    (isCall isAmerican : bool) :
  (1 <= N)%nat -> (1 <= M)%nat -> ~ K == 0 ->
  VanillaOption_Explicit np_exp S_0 T K r q sigma N M isCall isAmerican
  = Ok (run_out (explicit_trace np_exp T K r q sigma N M isCall isAmerican)).
Proof.
  intros HN HM HK. unfold VanillaOption_Explicit. now rewrite explicit_run_ok.
Qed.

Lemma implicit_entry_ok (np_exp : Q -> Q) (la_inv : matrix -> result matrix)
    (np_levels : Q -> Q -> nat)
    (S_0 T K r q sigma : Q) (N M : nat) (is_call is_american : bool) (B : matrix) :
  (1 <= N)%nat -> (1 <= M)%nat -> ~ K == 0 ->
  la_inv (implicit_operator M (T / Np.float N) r q sigma) = Ok B ->
  shape M M B ->
  levels_fit np_levels K M ->
  vanilla_option_implicit np_exp la_inv np_levels S_0 T K r q sigma N M is_call is_american
  = Ok (run_out (implicit_trace np_exp B T K r q sigma N M is_call is_american)).
Proof.
  intros HN HM HK Hinv HB HL. unfold vanilla_option_implicit.
  now rewrite (implicit_run_ok np_exp la_inv np_levels S_0 T K r q sigma N M _ _ B).
Qed.




(** ** C10: the low-boundary coefficient vanishes *)

Lemma implicit_a0_zero (M : nat) (dt r q sigma : Q) (a b c : vec) :
  compute_transition_probabilities M dt r q sigma = (a, b, c) ->
  nth 0 a 0 == 0 /\ nth 0 c 0 == 0.
Proof.
  unfold compute_transition_probabilities, Np.arange_n. intros H. inversion H; subst.
  destruct M as [|M']; simpl; split; try reflexivity;
    change (Np.float 0) with 0; ring.
Qed.

Lemma explicit_a0_zero (M : nat) (dt r q sigma : Q) (a b c : vec) :
  ~ 1 + r * dt == 0 ->
  explicit_coefficients M dt r q sigma = (a, b, c) ->
  nth 0 a 0 == 0 /\ nth 0 c 0 == 0.
Proof.
  unfold explicit_coefficients, Np.arange_n. intros Hd H. inversion H; subst.
  destruct M as [|M']; simpl; split; try reflexivity;
    change (Np.float 0) with 0; field; exact Hd.
Qed.

(** The correction vector with its first assignment left out. *)
Lemma k_i_without_low_boundary (M j : nat) (w v : Q) :
  (1 <= M)%nat -> (M = 1%nat -> v == 0) -> w == 0 ->
  nth j (upd (M - 1) v (upd 0 w (Np.zeros M))) 0
  == nth j (upd (M - 1) v (Np.zeros M)) 0.
Proof.
  intros HM Hv Hw.
  destruct (Nat.eq_dec j (M - 1)) as [->|Hj].
  - rewrite !nth_upd_eq; try reflexivity;
      rewrite ?length_upd; unfold Np.zeros; rewrite repeat_length; lia.
  - rewrite !(nth_upd_neq (M - 1) j) by auto.
    destruct j as [|j].
    + rewrite nth_upd_eq by (unfold Np.zeros; rewrite repeat_length; lia).
      rewrite Hw. unfold Np.zeros. destruct M; [lia|]. reflexivity.
    + now rewrite nth_upd_neq by lia.
Qed.

(** Where the normaliser is not zero, NumPy's quotient is the rational
    one. *)
Lemma explicit_a_ieee_finite (M : nat) (dt r q sigma : Q) (a b c : vec) :
  ~ 1 + r * dt == 0 ->
  explicit_coefficients M dt r q sigma = (a, b, c) ->
  explicit_a_ieee M dt r q sigma = map Finite a.
Proof.
  intros Hd H. unfold explicit_coefficients in H. inversion H; subst. clear H.
  unfold explicit_a_ieee. rewrite map_map. apply map_ext. intros j.
  unfold np_true_divide.
  destruct (Qeq_bool (1 + r * dt) 0) eqn:E; [|reflexivity].
  apply Qeq_bool_eq in E. contradiction.
Qed.

(** C10 (as the code behaves).  For [M >= 1] the first coefficient is zero
    in the implicit scheme, and in the explicit scheme when the normaliser
    [1 + r*dt] is not zero (the coefficients are then finite and [a[0] = 0]).
    Then, at every step and on every grid, the entry [k_i[0]] of the
    correction vector is zero and the whole vector is the one with the
    high-boundary entry only: the low-boundary column does not enter the
    step through [k_i]. *)
Theorem low_boundary_never_enters_the_correction
    (M : nat) (dt r q sigma : Q) (FV : matrix) (i : nat) :
  (1 <= M)%nat ->
  (let '(a, b, c) := compute_transition_probabilities M dt r q sigma in
   nth 0 a 0 == 0 /\
   exists k_i,
     implicit_k_i a c FV i M = Ok k_i /\
     nth 0 k_i 0 == 0 /\
     forall j,
       nth j k_i 0
       == nth j (upd (M - 1) (- nth (M - 1) c 0 * Np.get FV (i + 1) M) (Np.zeros M)) 0)
  /\
  (~ 1 + r * dt == 0 ->
   let '(a, b, c) := explicit_coefficients M dt r q sigma in
   explicit_a_ieee M dt r q sigma = map Finite a /\
   nth 0 a 0 == 0 /\
   nth 0 (explicit_k_i a c FV i M) 0 == 0 /\
   forall j,
     nth j (explicit_k_i a c FV i M) 0
     == nth j (upd (M - 1) (nth (M - 1) c 0 * Np.get FV (i + 1) M) (Np.zeros M)) 0).
Proof.
  intros HM. split.
  - destruct (compute_transition_probabilities M dt r q sigma) as [[a b] c] eqn:E.
    destruct (implicit_a0_zero M dt r q sigma a b c E) as [Ha Hc].
    destruct (length_compute_transition_probabilities _ _ _ _ _ _ _ _ E) as (La & Lb & Lc).
    split; [exact Ha|].
    eexists. split; [apply implicit_k_i_ok; lia|].
    assert (Hk : forall j,
      nth j (upd (M - 1) (- nth (M - 1) c 0 * Np.get FV (i + 1) M)
               (upd 0 (- nth 0 a 0 * Np.get FV (i + 1) 0) (Np.zeros M))) 0
      == nth j (upd (M - 1) (- nth (M - 1) c 0 * Np.get FV (i + 1) M) (Np.zeros M)) 0).
    { intros j. apply k_i_without_low_boundary; auto.
      - intros ->. simpl. rewrite Hc. ring.
      - rewrite Ha. ring. }
    split; auto.
    rewrite Hk. destruct (Nat.eq_dec M 1) as [->|HM1].
    + simpl. rewrite Hc. ring.
    + rewrite nth_upd_neq by lia. unfold Np.zeros. destruct M; [lia|]. reflexivity.
  - intros Hd.
    destruct (explicit_coefficients M dt r q sigma) as [[a b] c] eqn:E.
    destruct (explicit_a0_zero M dt r q sigma a b c Hd E) as [Ha Hc].
    assert (Hk : forall j,
      nth j (explicit_k_i a c FV i M) 0
      == nth j (upd (M - 1) (nth (M - 1) c 0 * Np.get FV (i + 1) M) (Np.zeros M)) 0).
    { intros j. unfold explicit_k_i. apply k_i_without_low_boundary; auto.
      - intros ->. simpl. rewrite Hc. ring.
      - rewrite Ha. ring. }
    split; [now apply (explicit_a_ieee_finite M dt r q sigma a b c)|].
    repeat split; auto.
    rewrite Hk. destruct (Nat.eq_dec M 1) as [->|HM1].
    + simpl. rewrite Hc. ring.
    + rewrite nth_upd_neq by lia. unfold Np.zeros. destruct M; [lia|]. reflexivity.
Qed.

(** C10, counterexample.  [T = 1], [N = 1], [r = -1] (so [1 + r*dt = 0]),
    [q = 0], [sigma = 0.25], [M = 4], explicit scheme: [a[0]] is [0.0 / 0.0],
    a [nan] and not 0, and [k_i[0] = a[0] * FV[i+1, 0]] is [nan] on every
    grid. *)
Lemma explicit_low_coefficient_is_nan :
  nth 0 (explicit_a_ieee 4 (1 / Np.float 1) (- (1)) 0 (1#4)) (Finite 0) = NaN /\
  forall (FV : matrix) (i : nat),
    explicit_k_i_0_ieee (explicit_a_ieee 4 (1 / Np.float 1) (- (1)) 0 (1#4)) FV i = NaN.
Proof.
  split; [vm_compute; reflexivity|].
  intros FV i. unfold explicit_k_i_0_ieee.
  replace (nth 0 (explicit_a_ieee 4 (1 / Np.float 1) (- (1)) 0 (1 # 4)) NaN) with NaN
    by (vm_compute; reflexivity).
  reflexivity.
Qed.

(** C10, witness: [M = 40], [dt = 1/100], [r = 0.1], [q = 0], [sigma = 0.25],
    on the grid of zeros, step 99. *)
Lemma low_boundary_never_enters_the_correction_witness :
  (1 <= 40)%nat /\ ~ 1 + (1#10) * (1#100) == 0 /\
  nth 0 (fst (fst (compute_transition_probabilities 40 (1#100) (1#10) 0 (1#4)))) 0 == 0 /\
  nth 0 (fst (fst (explicit_coefficients 40 (1#100) (1#10) 0 (1#4)))) 0 == 0.
Proof.
  assert (H1 : (1 <= 40)%nat) by lia.
  assert (H2 : ~ 1 + (1#10) * (1#100) == 0) by discriminate.
  destruct (low_boundary_never_enters_the_correction 40 (1#100) (1#10) 0 (1#4)
              (Np.zeros2 101 41) 99 H1) as [Hi He].
  specialize (He H2).
  destruct (compute_transition_probabilities 40 (1#100) (1#10) 0 (1#4)) as [[a b] c].
  destruct (explicit_coefficients 40 (1#100) (1#10) 0 (1#4)) as [[a' b'] c'].
  repeat split; auto; [apply Hi|apply He].
Defined.

(** ** The final grids *)

Section Grids.

Variable np_exp : Q -> Q.

Lemma explicit_trace_fields (T K r q sigma : Q) (N M : nat) (isCall isAmerican : bool) :
  let r0 := explicit_trace np_exp T K r q sigma N M isCall isAmerican in
  run_dS r0 = (2 * K - 0) / Np.float M /\
  run_dt r0 = T / Np.float N /\
  explicit_coefficients M (run_dt r0) r q sigma = (run_a r0, run_b r0, run_c r0) /\
  run_op r0 = tridiagonal (run_a r0) (run_b r0) (run_c r0) /\
  run_init r0 = initial_grid np_exp N M (run_dS r0) K r (run_dt r0) isCall /\
  run_grid r0 = loop_with (explicit_row (run_op r0) (run_a r0) (run_c r0) M)
                  (explicit_floor_row K isCall (price_levels (run_dS r0) M))
                  isAmerican M N (run_init r0) /\
  run_out r0 = (Np.get (run_grid r0) 0 ((M + 1 + 1) / 2), Np.norm_inf (run_op r0)).
Proof.
  unfold explicit_trace.
  destruct (explicit_coefficients M (T / Np.float N) r q sigma) as [[a b] c] eqn:E.
  cbn. rewrite E. repeat split.
Qed.

Lemma implicit_trace_fields (B : matrix) (T K r q sigma : Q) (N M : nat)
    (is_call is_american : bool) :
  let r0 := implicit_trace np_exp B T K r q sigma N M is_call is_american in
  run_dS r0 = 2 * K / Np.float M /\
  run_dt r0 = T / Np.float N /\
  compute_transition_probabilities M (run_dt r0) r q sigma
  = (run_a r0, run_b r0, run_c r0) /\
  run_op r0 = B /\
  run_init r0 = initial_grid np_exp N M (run_dS r0) K r (run_dt r0) is_call /\
  run_grid r0 = loop_with (implicit_row B (run_a r0) (run_c r0) M)
                  (implicit_floor_row M (run_dS r0) K is_call)
                  is_american M N (run_init r0) /\
  run_out r0 = (Np.get (run_grid r0) 0 (M / 2), Np.norm_inf B).
Proof.
  unfold implicit_trace.
  destruct (compute_transition_probabilities M (T / Np.float N) r q sigma)
    as [[a b] c] eqn:E.
  cbn. rewrite E. repeat split.
Qed.

Lemma shape_explicit_operator (T K r q sigma : Q) (N M : nat) (isCall isAmerican : bool) :
  (1 <= M)%nat ->
  shape M M (run_op (explicit_trace np_exp T K r q sigma N M isCall isAmerican)).
Proof.
  intros HM.
  destruct (explicit_trace_fields T K r q sigma N M isCall isAmerican)
    as (_ & _ & Hc & Hop & _).
  rewrite Hop. apply length_explicit_coefficients in Hc. destruct Hc as (? & ? & ?).
  now apply shape_tridiagonal.
Qed.

End Grids.

(** ** C3: the boundary columns *)

Lemma get_initial_grid_boundary (np_exp : Q -> Q) (N M : nat) (dS K r dt : Q)
    (isCall : bool) (i : nat) :
  (1 <= M)%nat -> (i < N)%nat ->
  Np.get (initial_grid np_exp N M dS K r dt isCall) i M
  = if isCall then discounted np_exp N (2 * K) r dt i else 0.
Proof.
  intros HM Hi. unfold initial_grid.
  rewrite get_upd_other by lia.
  rewrite get_boundary_columns by lia.
  rewrite Nat.eqb_refl. reflexivity.
Qed.

Lemma Ok_inj {A : Type} (x y : A) : Ok x = Ok y -> x = y.
Proof. intros H. now inversion H. Qed.

(** C3 (as the code behaves).  For a European contract with [N >= 1],
    [M >= 1], [K <> 0], in both schemes (for the implicit one, in a call
    that [la.inv] and the assignment of the terminal row let through):
    column [M] of the final grid is, in every row [i = 0..N], what the
    boundary conditions put there (for [i < N] the discounted [S_max] of a
    call, 0 for a put): the induction never writes it.  Column 0 is not part
    of the statement: every step writes [FV[i, 0]]. *)
Theorem last_column_keeps_its_boundary_values
    (np_exp : Q -> Q) (la_inv : matrix -> result matrix)
    (np_levels : Q -> Q -> nat)
    (S_0 T K r q sigma : Q) (N M : nat) (isCall : bool) :
  (1 <= N)%nat -> (1 <= M)%nat -> ~ K == 0 ->
  (exists r0,
      explicit_run np_exp S_0 T K r q sigma N M isCall false = Ok r0 /\
      forall i, (i <= N)%nat ->
        Np.get (run_grid r0) i M = Np.get (run_init r0) i M /\
        ((i < N)%nat ->
         Np.get (run_grid r0) i M
         = if isCall then discounted np_exp N (2 * K) r (run_dt r0) i else 0))
  /\
  (forall B,
      la_inv (implicit_operator M (T / Np.float N) r q sigma) = Ok B -> shape M M B ->
      levels_fit np_levels K M ->
      exists r0,
        implicit_run np_exp la_inv np_levels S_0 T K r q sigma N M isCall false = Ok r0 /\
        forall i, (i <= N)%nat ->
          Np.get (run_grid r0) i M = Np.get (run_init r0) i M /\
          ((i < N)%nat ->
           Np.get (run_grid r0) i M
           = if isCall then discounted np_exp N (2 * K) r (run_dt r0) i else 0)).
Proof.
  intros HN HM HK. split.
  - exists (explicit_trace np_exp T K r q sigma N M isCall false).
    split; [now apply explicit_run_ok|].
    destruct (explicit_trace_fields np_exp T K r q sigma N M isCall false)
      as (HdS & Hdt & Hc & Hop & Hinit & Hgrid & _).
    intros i Hi.
    assert (E : Np.get (run_grid (explicit_trace np_exp T K r q sigma N M isCall false)) i M
                = Np.get (run_init (explicit_trace np_exp T K r q sigma N M isCall false)) i M).
    { rewrite Hgrid. apply (loop_with_frame_last_column _ _ N M).
      - intros row. apply length_explicit_row; auto. now apply shape_explicit_operator.
      - rewrite Hinit. apply shape_initial_grid. }
    split; auto. intros Hlt. rewrite E, Hinit. now apply get_initial_grid_boundary.
  - intros B Hinv HB HL.
    exists (implicit_trace np_exp B T K r q sigma N M isCall false).
    split; [now apply implicit_run_ok|].
    destruct (implicit_trace_fields np_exp B T K r q sigma N M isCall false)
      as (HdS & Hdt & Hc & Hop & Hinit & Hgrid & _).
    intros i Hi.
    assert (E : Np.get (run_grid (implicit_trace np_exp B T K r q sigma N M isCall false)) i M
                = Np.get (run_init (implicit_trace np_exp B T K r q sigma N M isCall false)) i M).
    { rewrite Hgrid. apply (loop_with_frame_last_column _ _ N M).
      - intros row. now apply length_implicit_row.
      - rewrite Hinit. apply shape_initial_grid. }
    split; auto. intros Hlt. rewrite E, Hinit. now apply get_initial_grid_boundary.
Qed.

(** C3, counterexample.  European call, [K = 50], [T = 1], [r = 0.1],
    [q = 0], [sigma = 0.25], [N = 2], [M = 2], explicit scheme: the boundary
    conditions put 0 in [FV[0, 0]] and the induction leaves [-325/18816]
    there, whatever [numpy.exp] computes. *)
Lemma first_column_is_overwritten :
  ~ exists (np_exp : Q -> Q) (r0 : run),
      explicit_run np_exp 50 1 50 (1#10) 0 (1#4) 2 2 true false = Ok r0 /\
      forall i, (i <= 2)%nat ->
        Np.get (run_grid r0) i 0 == Np.get (run_init r0) i 0 /\
        Np.get (run_grid r0) i 2 == Np.get (run_init r0) i 2.
Proof.
  intros (np_exp & r0 & Hrun & H).
  rewrite explicit_run_ok in Hrun by (lia || discriminate).
  inversion Hrun; subst r0; clear Hrun.
  destruct (H 0%nat) as [H0 _]; [lia|].
  vm_compute in H0. discriminate H0.
Qed.

(** C3, witness: a European call, [K = 50], [T = 1], [r = 0.1], [N = 2],
    [M = 2], with [exp_approx] for [numpy.exp]: the entry [FV[0, 2]] of the
    final grid is the discounted [S_max], [100 / 1.1]. *)
Lemma last_column_keeps_its_boundary_values_witness :
  ((1 <= 2)%nat /\ (1 <= 2)%nat /\ ~ 50 == 0 /\ levels_fit Float64.levels 50 2) /\
  (exists r0,
      explicit_run exp_approx 50 1 50 (1#10) 0 (1#4) 2 2 true false = Ok r0 /\
      Np.get (run_grid r0) 0 2 == 1000 # 11) /\
  (exists r0,
      implicit_run exp_approx inv_2x2 Float64.levels 50 1 50 (1#10) 0 (1#4) 2 2
        true false = Ok r0 /\
      Np.get (run_grid r0) 0 2 == 1000 # 11).
Proof.
  assert (H1 : (1 <= 2)%nat) by lia.
  assert (H3 : ~ 50 == 0) by discriminate.
  assert (H4 : levels_fit Float64.levels 50 2) by (vm_compute; reflexivity).
  split; [auto|].
  destruct (last_column_keeps_its_boundary_values exp_approx inv_2x2 Float64.levels
              50 1 50 (1#10) 0 (1#4) 2 2 true H1 H1 H3) as [(r0 & Hr & He) Hi].
  split.
  - exists r0. split; auto. destruct (He 0%nat) as [_ H]; [lia|]. rewrite H by lia.
    vm_compute in Hr. apply Ok_inj in Hr. rewrite <- Hr. vm_compute. reflexivity.
  - edestruct Hi as (r1 & Hr1 & H).
    + vm_compute. reflexivity.
    + split; [reflexivity|]. repeat constructor.
    + exact H4.
    + exists r1. split; auto. destruct (H 0%nat) as [_ H']; [lia|]. rewrite H' by lia.
      vm_compute in Hr1. apply Ok_inj in Hr1. rewrite <- Hr1. vm_compute. reflexivity.
Defined.

(** ** C4: the induction step *)

(** C4 (as the code behaves).  For [N >= 1], [M >= 1], [K <> 0], in the grid
    either scheme returns (the implicit one in a call that [la.inv] and the
    assignment of the terminal row let through), every row [i < N] holds in
    its columns [0..M-1]
    the product of the ROW vector [FV[i+1, 0:M]] by the operator,
    [np.dot(v, A)], whose entry [j] is the sum over [l] of [v[l] * A[l, j]]
    (the transpose of [A] applied to [v], not [A]):
    - explicit scheme: [np.dot(FV[i+1, 0:M], A) + k_i], with [A] the
      tridiagonal matrix of [a], [b], [c];
    - implicit scheme: [np.dot(FV[i+1, 0:M] + k_i, B)], with [B] what
      [la.inv] returned for that tridiagonal matrix;
    followed, for an American contract, by the entrywise maximum with the
    exercise values. *)
Theorem step_multiplies_the_row_vector_by_the_operator
    (np_exp : Q -> Q) (la_inv : matrix -> result matrix)
    (np_levels : Q -> Q -> nat)
    (S_0 T K r q sigma : Q) (N M : nat) (isCall isAmerican : bool) :
  (1 <= N)%nat -> (1 <= M)%nat -> ~ K == 0 ->
  (exists r0,
      explicit_run np_exp S_0 T K r q sigma N M isCall isAmerican = Ok r0 /\
      run_op r0 = tridiagonal (run_a r0) (run_b r0) (run_c r0) /\
      forall i, (i < N)%nat ->
        firstn M (nth i (run_grid r0) [])
        = floor_if isAmerican
            (firstn M (explicit_floor_row K isCall (price_levels (run_dS r0) M)))
            (Np.vadd (Np.dot (firstn M (nth (i + 1) (run_grid r0) [])) (run_op r0))
                     (explicit_k_i (run_a r0) (run_c r0) (run_grid r0) i M)))
  /\
  (forall B,
      la_inv (implicit_operator M (T / Np.float N) r q sigma) = Ok B -> shape M M B ->
      levels_fit np_levels K M ->
      exists r0,
        implicit_run np_exp la_inv np_levels S_0 T K r q sigma N M isCall isAmerican
        = Ok r0 /\
        la_inv (tridiagonal (run_a r0) (run_b r0) (run_c r0)) = Ok (run_op r0) /\
        forall i, (i < N)%nat ->
          exists k_i,
            implicit_k_i (run_a r0) (run_c r0) (run_grid r0) i M = Ok k_i /\
            firstn M (nth i (run_grid r0) [])
            = floor_if isAmerican
                (firstn M (implicit_floor_row M (run_dS r0) K isCall))
                (Np.dot (Np.vadd (firstn M (nth (i + 1) (run_grid r0) [])) k_i)
                        (run_op r0))).
Proof.
  intros HN HM HK. split.
  - exists (explicit_trace np_exp T K r q sigma N M isCall isAmerican).
    split; [now apply explicit_run_ok|].
    destruct (explicit_trace_fields np_exp T K r q sigma N M isCall isAmerican)
      as (HdS & Hdt & Hc & Hop & Hinit & Hgrid & _).
    split; auto. intros i Hi.
    pose proof (loop_with_recurrence
                  (explicit_row (run_op (explicit_trace np_exp T K r q sigma N M isCall isAmerican))
                     (run_a (explicit_trace np_exp T K r q sigma N M isCall isAmerican))
                     (run_c (explicit_trace np_exp T K r q sigma N M isCall isAmerican)) M)
                  (explicit_floor_row K isCall
                     (price_levels
                        (run_dS (explicit_trace np_exp T K r q sigma N M isCall isAmerican)) M))
                  N M) as R.
    specialize (R ltac:(intros row; apply length_explicit_row; auto;
                        now apply shape_explicit_operator)).
    specialize (R isAmerican N
                  (run_init (explicit_trace np_exp T K r q sigma N M isCall isAmerican)) i).
    cbv zeta in R. rewrite <- Hgrid in R.
    rewrite R; auto.
    + now rewrite length_explicit_floor_row, length_price_levels.
    + rewrite Hinit. apply shape_initial_grid.
  - intros B Hinv HB HL.
    exists (implicit_trace np_exp B T K r q sigma N M isCall isAmerican).
    split; [now apply implicit_run_ok|].
    destruct (implicit_trace_fields np_exp B T K r q sigma N M isCall isAmerican)
      as (HdS & Hdt & Hc & Hop & Hinit & Hgrid & _).
    split.
    + rewrite Hop, <- Hinv. unfold implicit_operator. rewrite <- Hdt, Hc. reflexivity.
    + intros i Hi.
      destruct (length_compute_transition_probabilities _ _ _ _ _ _ _ _ Hc) as (La & _ & Lc).
      eexists. split; [apply implicit_k_i_ok; lia|].
      pose proof (loop_with_recurrence
                    (implicit_row B
                       (run_a (implicit_trace np_exp B T K r q sigma N M isCall isAmerican))
                       (run_c (implicit_trace np_exp B T K r q sigma N M isCall isAmerican)) M)
                    (implicit_floor_row M
                       (run_dS (implicit_trace np_exp B T K r q sigma N M isCall isAmerican))
                       K isCall)
                    N M) as R.
      specialize (R ltac:(intros row; now apply length_implicit_row)).
      specialize (R isAmerican N
                    (run_init (implicit_trace np_exp B T K r q sigma N M isCall isAmerican)) i).
      cbv zeta in R. rewrite <- Hgrid in R.
      rewrite R, Hop; auto.
      * apply length_implicit_floor_row.
      * rewrite Hinit. apply shape_initial_grid.
Qed.

(** C4, counterexample.  European call, [K = 50], [T = 1], [r = 0.1],
    [q = 0], [sigma = 0.25], [N = 1], [M = 4], explicit scheme: row 0 is not
    [A] applied to row 1 plus [k_0]; the entries of column 2 are [525/176]
    and [225/44]. *)
Lemma step_is_not_the_operator_applied_to_the_column_vector :
  ~ exists (np_exp : Q -> Q) (r0 : run),
      explicit_run np_exp 50 1 50 (1#10) 0 (1#4) 1 4 true false = Ok r0 /\
      forall j, (j < 4)%nat ->
        Np.get (run_grid r0) 0 j
        == nth j (Np.vadd (mat_apply (run_op r0) (firstn 4 (nth 1 (run_grid r0) [])))
                          (explicit_k_i (run_a r0) (run_c r0) (run_grid r0) 0 4)) 0.
Proof.
  intros (np_exp & r0 & Hrun & H).
  rewrite explicit_run_ok in Hrun by (lia || discriminate).
  inversion Hrun; subst r0; clear Hrun.
  assert (H2 := H 2%nat ltac:(lia)).
  vm_compute in H2. discriminate H2.
Qed.

(** C4, witness: an American put, [N = 2], [M = 2]. *)
Lemma step_multiplies_the_row_vector_by_the_operator_witness :
  ((1 <= 2)%nat /\ (1 <= 2)%nat /\ ~ 50 == 0 /\ levels_fit Float64.levels 50 2) /\
  (exists r0,
      explicit_run exp_approx 50 1 50 (1#10) 0 (1#4) 2 2 false true = Ok r0 /\
      firstn 2 (nth 0 (run_grid r0) [])
      = floor_if true
          (firstn 2 (explicit_floor_row 50 false (price_levels (run_dS r0) 2)))
          (Np.vadd (Np.dot (firstn 2 (nth 1 (run_grid r0) [])) (run_op r0))
                   (explicit_k_i (run_a r0) (run_c r0) (run_grid r0) 0 2))) /\
  (exists r0,
      implicit_run exp_approx inv_2x2 Float64.levels 50 1 50 (1#10) 0 (1#4) 2 2
        false true = Ok r0 /\
      exists k_i,
        implicit_k_i (run_a r0) (run_c r0) (run_grid r0) 0 2 = Ok k_i /\
        firstn 2 (nth 0 (run_grid r0) [])
        = floor_if true
            (firstn 2 (implicit_floor_row 2 (run_dS r0) 50 false))
            (Np.dot (Np.vadd (firstn 2 (nth 1 (run_grid r0) [])) k_i) (run_op r0))).
Proof.
  assert (H1 : (1 <= 2)%nat) by lia.
  assert (H3 : ~ 50 == 0) by discriminate.
  assert (H4 : levels_fit Float64.levels 50 2) by (vm_compute; reflexivity).
  split; [auto|].
  destruct (step_multiplies_the_row_vector_by_the_operator exp_approx inv_2x2
              Float64.levels 50 1 50 (1#10) 0 (1#4) 2 2 false true H1 H1 H3)
    as [(r0 & Hr & _ & He) Hi].
  split.
  - exists r0. split; [exact Hr|apply He; lia].
  - edestruct Hi as (r1 & Hr1 & _ & H).
    + vm_compute. reflexivity.
    + split; [reflexivity|]. repeat constructor.
    + exact H4.
    + exists r1. split; [exact Hr1|apply H; lia].
Defined.

(** ** C5: the early-exercise floor *)

Lemma nth_explicit_floor_row (K dS : Q) (isCall : bool) (M j : nat) :
  (j <= M)%nat ->
  nth j (explicit_floor_row K isCall (price_levels dS M)) 0
  == exercise_value isCall K (Np.float j * dS).
Proof.
  intros Hj. unfold explicit_floor_row, price_levels, exercise_value.
  destruct isCall; rewrite map_map, nth_map_seq by lia; ring.
Qed.

Lemma nth_implicit_floor_row (K dS : Q) (is_call : bool) (M j : nat) :
  (j <= M)%nat ->
  nth j (implicit_floor_row M dS K is_call) 0
  == exercise_value is_call K (Np.float j * dS).
Proof.
  intros Hj. unfold implicit_floor_row, Np.arange_n, exercise_value.
  destruct is_call; rewrite map_map, nth_map_seq by lia; ring.
Qed.

Lemma payoff_ge_exercise_value (isCall : bool) (K S : Q) :
  exercise_value isCall K S <= payoff isCall K S.
Proof. unfold exercise_value, payoff. destruct isCall; apply Q.le_max_l. Qed.

(** An American grid in closed form dominates the exercise values. *)
Lemma american_grid_floor (np_exp : Q -> Q) (f : vec -> vec) (floor_row : vec)
    (N M : nat) (dS K r dt : Q) (isCall : bool) (i j : nat) :
  (forall row, length (f row) = M) ->
  length floor_row = (M + 1)%nat ->
  (forall j, (j <= M)%nat -> nth j floor_row 0 == exercise_value isCall K (Np.float j * dS)) ->
  (i <= N)%nat -> (j <= M)%nat ->
  exercise_value isCall K (Np.float j * dS)
  <= Np.get (loop_with f floor_row true M N (initial_grid np_exp N M dS K r dt isCall)) i j.
Proof.
  intros Hf Hl Hfloor Hi Hj.
  destruct (Nat.eq_dec i N) as [->|Hne].
  - unfold Np.get. rewrite loop_with_frame_rows by lia.
    fold (Np.get (initial_grid np_exp N M dS K r dt isCall) N j).
    rewrite get_initial_grid_terminal by auto. apply payoff_ge_exercise_value.
  - rewrite <- Hfloor by auto. unfold Np.get.
    apply Forall2_nth; [|apply Qle_refl].
    apply (loop_with_floor f floor_row N M); auto; try lia.
    apply shape_initial_grid.
Qed.

(** C5 (as the code behaves).  For an American contract with [N >= 1],
    [M >= 1], [K <> 0], in both schemes every entry of the final grid is at
    least the exercise value of its column, [j*dS - K] for a call and
    [K - j*dS] for a put: the floor the code applies is that value, not
    [max(., 0)].  The explicit scheme is taken with [1 + r*dt <> 0] (its
    coefficients are [nan] or infinite otherwise, and so is the grid); the
    implicit one in a call that [la.inv] and the assignment of the terminal
    row let through. *)
Theorem american_grid_dominates_exercise_value
    (np_exp : Q -> Q) (la_inv : matrix -> result matrix)
    (np_levels : Q -> Q -> nat)
    (S_0 T K r q sigma : Q) (N M : nat) (isCall : bool) :
  (1 <= N)%nat -> (1 <= M)%nat -> ~ K == 0 ->
  (~ 1 + r * (T / Np.float N) == 0 ->
   exists r0,
     explicit_run np_exp S_0 T K r q sigma N M isCall true = Ok r0 /\
     forall i j, (i <= N)%nat -> (j <= M)%nat ->
       exercise_value isCall K (Np.float j * run_dS r0) <= Np.get (run_grid r0) i j)
  /\
  (forall B,
      la_inv (implicit_operator M (T / Np.float N) r q sigma) = Ok B -> shape M M B ->
      levels_fit np_levels K M ->
      exists r0,
        implicit_run np_exp la_inv np_levels S_0 T K r q sigma N M isCall true = Ok r0 /\
        forall i j, (i <= N)%nat -> (j <= M)%nat ->
          exercise_value isCall K (Np.float j * run_dS r0) <= Np.get (run_grid r0) i j).
Proof.
  intros HN HM HK. split.
  - intros _.
    exists (explicit_trace np_exp T K r q sigma N M isCall true).
    split; [now apply explicit_run_ok|].
    destruct (explicit_trace_fields np_exp T K r q sigma N M isCall true)
      as (HdS & Hdt & Hc & Hop & Hinit & Hgrid & _).
    intros i j Hi Hj. rewrite Hgrid, Hinit.
    apply american_grid_floor; auto.
    + intros row. apply length_explicit_row; auto. now apply shape_explicit_operator.
    + now rewrite length_explicit_floor_row, length_price_levels.
    + intros j' Hj'. now apply nth_explicit_floor_row.
  - intros B Hinv HB HL.
    exists (implicit_trace np_exp B T K r q sigma N M isCall true).
    split; [now apply implicit_run_ok|].
    destruct (implicit_trace_fields np_exp B T K r q sigma N M isCall true)
      as (HdS & Hdt & Hc & Hop & Hinit & Hgrid & _).
    intros i j Hi Hj. rewrite Hgrid, Hinit.
    apply american_grid_floor; auto.
    + intros row. now apply length_implicit_row.
    + apply length_implicit_floor_row.
    + intros j' Hj'. now apply nth_implicit_floor_row.
Qed.

(** C5, counterexample.  American call, [K = 50], [T = 1], [r = 0.1],
    [q = 0], [sigma = 0.2], [N = 2], [M = 4], explicit scheme: [FV[0, 1]] is
    [-1/294], below the intrinsic value [max(1 * 25 - 50, 0) = 0], whatever
    [numpy.exp] computes. *)
Lemma american_grid_entry_below_intrinsic_value :
  ~ exists (np_exp : Q -> Q) (r0 : run),
      explicit_run np_exp 50 1 50 (1#10) 0 (1#5) 2 4 true true = Ok r0 /\
      forall i j, (i <= 2)%nat -> (j <= 4)%nat ->
        payoff true 50 (Np.float j * run_dS r0) <= Np.get (run_grid r0) i j.
Proof.
  intros (np_exp & r0 & Hrun & H).
  rewrite explicit_run_ok in Hrun by (lia || discriminate).
  inversion Hrun; subst r0; clear Hrun.
  assert (H01 := H 0%nat 1%nat ltac:(lia) ltac:(lia)).
  vm_compute in H01. apply H01. reflexivity.
Qed.

(** C5, witness: an American put, [K = 50], [N = 2], [M = 2]; at the price
    0 (column 0) the exercise value is 50, and the entry of row 0 is at least
    50 in both schemes. *)
Lemma american_grid_dominates_exercise_value_witness :
  ((1 <= 2)%nat /\ (1 <= 2)%nat /\ ~ 50 == 0 /\ ~ 1 + (1#10) * (1 / Np.float 2) == 0 /\
   levels_fit Float64.levels 50 2) /\
  (exists r0,
      explicit_run exp_approx 50 1 50 (1#10) 0 (1#4) 2 2 false true = Ok r0 /\
      exercise_value false 50 (Np.float 0 * run_dS r0) == 50 /\
      exercise_value false 50 (Np.float 0 * run_dS r0) <= Np.get (run_grid r0) 0 0) /\
  (exists r0,
      implicit_run exp_approx inv_2x2 Float64.levels 50 1 50 (1#10) 0 (1#4) 2 2
        false true = Ok r0 /\
      exercise_value false 50 (Np.float 0 * run_dS r0) == 50 /\
      exercise_value false 50 (Np.float 0 * run_dS r0) <= Np.get (run_grid r0) 0 0).
Proof.
  assert (H1 : (1 <= 2)%nat) by lia.
  assert (H3 : ~ 50 == 0) by discriminate.
  assert (H4 : ~ 1 + (1#10) * (1 / Np.float 2) == 0) by discriminate.
  assert (H5 : levels_fit Float64.levels 50 2) by (vm_compute; reflexivity).
  assert (E : forall x, exercise_value false 50 (Np.float 0 * x) == 50).
  { intros x. unfold exercise_value. change (Np.float 0) with 0. ring. }
  split; [auto 6|].
  destruct (american_grid_dominates_exercise_value exp_approx inv_2x2 Float64.levels
              50 1 50 (1#10) 0 (1#4) 2 2 false H1 H1 H3) as [He Hi].
  split.
  - destruct (He H4) as (r0 & Hr & H). exists r0.
    split; [exact Hr|]. split; [apply E|apply H; lia].
  - edestruct Hi as (r1 & Hr1 & H).
    + vm_compute. reflexivity.
    + split; [reflexivity|]. repeat constructor.
    + exact H5.
    + exists r1. split; [exact Hr1|]. split; [apply E|apply H; lia].
Defined.

(** ** Sums and the entries of the operator *)

Lemma get_map_seq2 (g : nat -> nat -> Q) (n i j : nat) :
  (i < n)%nat -> (j < n)%nat ->
  Np.get (map (fun i => map (fun j => g i j) (seq 0 n)) (seq 0 n)) i j = g i j.
Proof.
  intros Hi Hj. unfold Np.get.
  rewrite (nth_map_seq (fun i => map (fun j => g i j) (seq 0 n))) by auto.
  now rewrite nth_map_seq.
Qed.

Lemma get_madd (n m i j : nat) (X Y : matrix) :
  shape n m X -> shape n m Y -> (i < n)%nat -> (j < m)%nat ->
  Np.get (Np.madd X Y) i j = Np.get X i j + Np.get Y i j.
Proof.
  intros HX HY Hi Hj. unfold Np.get, Np.madd.
  rewrite (nth_zip_with _ X Y i [] [] []) by (destruct HX, HY; lia).
  unfold Np.vadd. apply nth_zip_with; rewrite (shape_row n m); auto.
Qed.

(** The entries of the tridiagonal matrix. *)
Lemma get_tridiagonal (a b c : vec) (M i j : nat) :
  (1 <= M)%nat -> length a = M -> length b = M -> length c = M ->
  (i < M)%nat -> (j < M)%nat ->
  Np.get (tridiagonal a b c) i j
  == if (j =? i)%nat then nth i b 0
     else if (j + 1 =? i)%nat then nth i a 0
     else if (j =? i + 1)%nat then nth i c 0
     else 0.
Proof.
  intros HM Ha Hb Hc Hi Hj. unfold tridiagonal.
  pose proof (shape_diag b 0) as H0.
  pose proof (shape_diag (tl a) (-1)) as H1.
  pose proof (shape_diag (removelast c) 1) as H2.
  rewrite length_tl, Ha in H1. rewrite length_removelast', Hc in H2. rewrite Hb in H0.
  simpl Z.abs_nat in *.
  replace (M - 1 + Pos.to_nat 1)%nat with M in * by lia.
  replace (M + 0)%nat with M in * by lia.
  rewrite (get_madd M M), (get_madd M M); auto using shape_madd.
  unfold Np.diag.
  rewrite length_tl, length_removelast', Ha, Hb, Hc. simpl Z.abs_nat.
  replace (M - 1 + Pos.to_nat 1)%nat with M by lia.
  replace (M + 0)%nat with M by lia.
  rewrite !get_map_seq2 by auto.
  destruct (Nat.eqb_spec j i) as [->|Hji].
  - replace (Z.of_nat i =? Z.of_nat i + 0)%Z with true by (symmetry; apply Z.eqb_eq; lia).
    replace (Z.of_nat i =? Z.of_nat i + -1)%Z with false by (symmetry; apply Z.eqb_neq; lia).
    replace (Z.of_nat i =? Z.of_nat i + 1)%Z with false by (symmetry; apply Z.eqb_neq; lia).
    rewrite Nat.min_id. ring.
  - replace (Z.of_nat j =? Z.of_nat i + 0)%Z with false by (symmetry; apply Z.eqb_neq; lia).
    destruct (Nat.eqb_spec (j + 1) i) as [Hj1|Hj1].
    + replace (Z.of_nat j =? Z.of_nat i + -1)%Z with true by (symmetry; apply Z.eqb_eq; lia).
      replace (Z.of_nat j =? Z.of_nat i + 1)%Z with false by (symmetry; apply Z.eqb_neq; lia).
      replace (Nat.min i j) with j by lia.
      replace (nth j (tl a) 0) with (nth i a 0).
      * ring.
      * subst i. destruct a; simpl; [now destruct j|]. now rewrite Nat.add_1_r.
    + replace (Z.of_nat j =? Z.of_nat i + -1)%Z with false by (symmetry; apply Z.eqb_neq; lia).
      destruct (Nat.eqb_spec j (i + 1)) as [Hj2|Hj2].
      * replace (Z.of_nat j =? Z.of_nat i + 1)%Z with true by (symmetry; apply Z.eqb_eq; lia).
        replace (Nat.min i j) with i by lia.
        rewrite removelast_firstn_len, nth_firstn.
        destruct (Nat.ltb_spec i (Init.Nat.pred (length c))); [ring|lia].
      * replace (Z.of_nat j =? Z.of_nat i + 1)%Z with false by (symmetry; apply Z.eqb_neq; lia).
        ring.
Qed.

Lemma vsum_map_plus (f g : nat -> Q) (l : list nat) :
  vsum (map (fun j => f j + g j) l) == vsum (map f l) + vsum (map g l).
Proof.
  induction l as [|x t IH]; simpl; [reflexivity|]. rewrite IH. ring.
Qed.

Lemma vsum_map_ext (f g : nat -> Q) (l : list nat) :
  (forall j, In j l -> f j == g j) -> vsum (map f l) == vsum (map g l).
Proof.
  induction l as [|x t IH]; intros H; simpl; [reflexivity|].
  rewrite (H x) by (now left). rewrite IH; [reflexivity|].
  intros j Hj. apply H. now right.
Qed.

Lemma vsum_indicator (k : nat) (x : Q) (s n : nat) :
  vsum (map (fun j => if (j =? k)%nat then x else 0) (seq s n))
  == if ((s <=? k)%nat && (k <? s + n)%nat)%bool then x else 0.
Proof.
  revert s; induction n as [|n IH]; intros s; simpl.
  - destruct (Nat.leb_spec s k), (Nat.ltb_spec k (s + 0)); simpl; try reflexivity; lia.
  - rewrite IH.
    destruct (Nat.eqb_spec s k), (Nat.leb_spec (S s) k), (Nat.ltb_spec k (S s + n)),
      (Nat.leb_spec s k), (Nat.ltb_spec k (s + S n)); simpl; try lia; ring.
Qed.

(** ** The coefficients, entry by entry *)

Lemma Qmult_le_compat_l_nonneg (z x y : Q) : 0 <= z -> x <= y -> z * x <= z * y.
Proof.
  intros Hz H. rewrite (Qmult_comm z x), (Qmult_comm z y).
  now apply Qmult_le_compat_r.
Qed.

Lemma nth_compute_transition_probabilities (M : nat) (dt r q sigma : Q) (a b c : vec)
    (j : nat) :
  compute_transition_probabilities M dt r q sigma = (a, b, c) -> (j < M)%nat ->
  nth j a 0 = (1#2) * (r - q) * Np.float j * dt - (1#2) * sigma ^ 2 * Np.float j ^ 2 * dt /\
  nth j b 0 = 1 + sigma ^ 2 * Np.float j ^ 2 * dt + r * dt /\
  nth j c 0 = - (1#2) * (r - q) * Np.float j * dt - (1#2) * sigma ^ 2 * Np.float j ^ 2 * dt.
Proof.
  unfold compute_transition_probabilities, Np.arange_n. intros H Hj.
  inversion H; subst. rewrite !map_map. now rewrite !nth_map_seq.
Qed.

Lemma nth_explicit_coefficients (M : nat) (dt r q sigma : Q) (a b c : vec) (j : nat) :
  explicit_coefficients M dt r q sigma = (a, b, c) -> (j < M)%nat ->
  nth j a 0 = (- (1#2) * (r - q) * dt * Np.float j + (1#2) * sigma ^ 2 * dt * Np.float j ^ 2)
              / (1 + r * dt) /\
  nth j b 0 = (1 - sigma ^ 2 * dt * Np.float j ^ 2) / (1 + r * dt) /\
  nth j c 0 = ((1#2) * (r - q) * dt * Np.float j + (1#2) * sigma ^ 2 * dt * Np.float j ^ 2)
              / (1 + r * dt).
Proof.
  unfold explicit_coefficients, Np.arange_n. intros H Hj.
  inversion H; subst. rewrite !map_map. now rewrite !nth_map_seq.
Qed.

Lemma float_le (n m : nat) : (n <= m)%nat -> Np.float n <= Np.float m.
Proof. intros H. unfold Np.float. rewrite <- Zle_Qle. lia. Qed.

Lemma float_ge_1 (n : nat) : (1 <= n)%nat -> 1 <= Np.float n.
Proof. intros H. change 1 with (Np.float 1). now apply float_le. Qed.

Lemma Qsquare_le (x y : Q) : 0 <= x -> x <= y -> x * x <= y * y.
Proof.
  intros Hx Hxy. apply Qle_trans with (x * y).
  - now apply Qmult_le_compat_l_nonneg.
  - apply Qmult_le_compat_r; lra.
Qed.

Lemma Qsquare_nonneg (x : Q) : 0 <= x ^ 2.
Proof.
  assert (E : x ^ 2 == x * x) by ring. rewrite E.
  destruct (Qlt_le_dec x 0) as [Hn|Hp].
  - assert (E' : x * x == (- x) * (- x)) by ring. rewrite E'.
    apply Qmult_le_0_compat; lra.
  - now apply Qmult_le_0_compat.
Qed.

(** ** Order-preserving steps *)

Lemma vec_le_nth (v v' : vec) (j : nat) : vec_le v v' -> nth j v 0 <= nth j v' 0.
Proof. intros H. apply Forall2_nth; [exact H|apply Qle_refl]. Qed.

Lemma nonneg_zeros (n : nat) : nonneg (Np.zeros n).
Proof. apply Forall_forall. intros x H. apply repeat_spec in H. subst. apply Qle_refl. Qed.

Lemma explicit_row_mono (A : matrix) (a c : vec) (M : nat) (row row' : vec) :
  nonneg_matrix A -> nonneg a -> nonneg c ->
  vec_le row row' -> vec_le (explicit_row A a c M row) (explicit_row A a c M row').
Proof.
  intros HA Ha Hc H. unfold explicit_row. apply vadd_mono.
  - apply dot_mono; auto. now apply Forall2_firstn.
  - repeat apply Forall2_upd; try apply vec_le_refl;
      apply Qmult_le_compat_l_nonneg; auto using nonneg_nth, vec_le_nth.
Qed.

Lemma explicit_row_nonneg (A : matrix) (a c : vec) (M : nat) (row : vec) :
  nonneg_matrix A -> nonneg a -> nonneg c ->
  nonneg row -> nonneg (explicit_row A a c M row).
Proof.
  intros HA Ha Hc H. unfold explicit_row. apply vadd_nonneg.
  - apply dot_nonneg; auto. now apply Forall_firstn.
  - repeat apply Forall_upd; try apply nonneg_zeros;
      apply Qmult_le_0_compat; auto using nonneg_nth.
Qed.

(** The grid of the boundary conditions has no negative entry when the
    strike and the values of [numpy.exp] are not negative. *)
Lemma nonneg_initial_grid (np_exp : Q -> Q) (N M : nat) (dS K r dt : Q) (isCall : bool) :
  0 <= K -> (forall x, 0 <= np_exp x) ->
  nonneg_matrix (initial_grid np_exp N M dS K r dt isCall).
Proof.
  intros HK Hexp. unfold initial_grid. apply Forall_upd.
  - assert (Hz : nonneg_matrix (Np.zeros2 (N + 1) (M + 1))).
    { apply Forall_forall. intros row H. apply repeat_spec in H. subst.
      apply nonneg_zeros. }
    assert (Hcol : forall X j xs, nonneg_matrix X -> nonneg xs ->
                                  nonneg_matrix (Np.set_col X j xs)).
    { intros X j xs HX Hxs. unfold Np.set_col.
      apply (Forall_zip_with nonneg (fun x => 0 <= x)); auto.
      intros row x Hrow Hx. now apply Forall_upd. }
    assert (Hsc : forall X j x, nonneg_matrix X -> 0 <= x ->
                                nonneg_matrix (Np.set_col_scalar X j x)).
    { intros X j x HX Hx. unfold Np.set_col_scalar. apply Forall_map.
      eapply Forall_impl; [|exact HX]. intros row Hrow. now apply Forall_upd. }
    assert (Hd : forall X, 0 <= X ->
                   nonneg (map (discounted np_exp N X r dt) (seq 0 (N + 1)))).
    { intros X HX. apply Forall_map, Forall_forall. intros i _.
      unfold discounted. now apply Qmult_le_0_compat. }
    unfold boundary_columns. destruct isCall.
    + apply Hcol; [apply Hsc; [exact Hz|apply Qle_refl]|apply Hd; lra].
    + apply Hsc; [apply Hcol; [exact Hz|apply Hd; lra]|apply Qle_refl].
  - unfold terminal_payoffs, Np.maximum_scalar. apply Forall_map, Forall_forall.
    intros x _. apply Q.le_max_r.
Qed.

(** ** Rows from column 1 on *)

Lemma nth_S_tl {A : Type} (l : list A) (j : nat) (d : A) : nth (S j) l d = nth j (tl l) d.
Proof. destruct l; simpl; auto. now destruct j. Qed.

Lemma tail_le_nth (v v' : vec) (j : nat) :
  tail_le v v' -> (1 <= j)%nat -> nth j v 0 <= nth j v' 0.
Proof.
  intros H Hj. destruct j as [|j]; [lia|]. rewrite !nth_S_tl. now apply vec_le_nth.
Qed.

Lemma tail_nonneg_nth (v : vec) (j : nat) :
  tail_nonneg v -> (1 <= j)%nat -> 0 <= nth j v 0.
Proof.
  intros H Hj. destruct j as [|j]; [lia|]. rewrite nth_S_tl. now apply nonneg_nth.
Qed.

Lemma tail_le_refl (v : vec) : tail_le v v.
Proof. apply vec_le_refl. Qed.

Lemma tl_zip_with {A B C : Type} (f : A -> B -> C) (l : list A) (l' : list B) :
  tl (zip_with f l l') = zip_with f (tl l) (tl l').
Proof. destruct l as [|x t], l' as [|y t']; simpl; auto. now destruct t. Qed.

Lemma tl_firstn {A : Type} (n : nat) (l : list A) : tl (firstn (S n) l) = firstn n (tl l).
Proof. destruct l; simpl; auto. now destruct n. Qed.

Lemma tl_map_seq {A : Type} (g : nat -> A) (n : nat) :
  tl (map g (seq 0 n)) = map g (seq 1 (n - 1)).
Proof. destruct n; simpl; auto. now rewrite Nat.sub_0_r. Qed.

Lemma Forall2_map_in {A B : Type} (R : A -> B -> Prop) (f : nat -> A) (g : nat -> B)
    (l : list nat) :
  (forall i, In i l -> R (f i) (g i)) -> Forall2 R (map f l) (map g l).
Proof.
  induction l as [|x t IH]; intros H; simpl; constructor.
  - apply H. now left.
  - apply IH. intros i Hi. apply H. now right.
Qed.

(** From column 1 on, the product by a [tail_monotone] matrix does not read
    the first entry of the vector. *)
Lemma dot_entry_tail (v : vec) (A : matrix) (j : nat) :
  tail_monotone A -> (1 <= j)%nat ->
  vsum (zip_with Qmult v (Np.column A j))
  == vsum (zip_with Qmult (tl v) (Np.column (tl A) j)).
Proof.
  intros HA Hj. destruct (HA j Hj) as [H0 _].
  destruct v as [|v0 vt], A as [|r0 At]; simpl; try reflexivity.
  - now destruct vt.
  - simpl in H0. rewrite H0. ring.
Qed.

Lemma nonneg_column_tail (A : matrix) (j : nat) :
  tail_monotone A -> (1 <= j)%nat -> nonneg (Np.column (tl A) j).
Proof.
  intros HA Hj. destruct (HA j Hj) as [_ H]. unfold Np.column. now apply Forall_map.
Qed.

Lemma dot_tail_mono (v v' : vec) (A : matrix) :
  tail_monotone A -> tail_le v v' -> tail_le (Np.dot v A) (Np.dot v' A).
Proof.
  intros HA Hv. unfold tail_le, Np.dot. rewrite !tl_map_seq.
  apply Forall2_map_in. intros j Hj. apply in_seq in Hj.
  rewrite (dot_entry_tail v A j), (dot_entry_tail v' A j) by (auto; lia).
  apply vsum_mul_mono; auto. apply nonneg_column_tail; auto; lia.
Qed.

Lemma dot_tail_nonneg (v : vec) (A : matrix) :
  tail_monotone A -> tail_nonneg v -> tail_nonneg (Np.dot v A).
Proof.
  intros HA Hv. unfold tail_nonneg, Np.dot. rewrite tl_map_seq.
  apply Forall_map, Forall_forall. intros j Hj. apply in_seq in Hj.
  rewrite (dot_entry_tail v A j) by (auto; lia).
  apply vsum_mul_nonneg; auto. apply nonneg_column_tail; auto; lia.
Qed.

(** The correction vector from column 1 on. *)
Lemma tl_correction (M : nat) (u w : Q) :
  tl (upd (M - 1) u (upd 0 w (Np.zeros M))) = upd (M - 2) u (Np.zeros (M - 1)).
Proof.
  destruct M as [|[|M]]; try reflexivity.
  replace (S (S M) - 1)%nat with (S M) by lia.
  replace (S (S M) - 2)%nat with M by lia.
  reflexivity.
Qed.

Lemma correction_tail_le (M : nat) (u u' w w' : Q) :
  u <= u' ->
  tail_le (upd (M - 1) u (upd 0 w (Np.zeros M))) (upd (M - 1) u' (upd 0 w' (Np.zeros M))).
Proof.
  intros H. unfold tail_le. rewrite !tl_correction.
  apply Forall2_upd; auto. apply vec_le_refl.
Qed.

Lemma correction_tail_nonneg (M : nat) (u w : Q) :
  0 <= u -> tail_nonneg (upd (M - 1) u (upd 0 w (Np.zeros M))).
Proof.
  intros H. unfold tail_nonneg. rewrite tl_correction.
  apply Forall_upd; auto. apply nonneg_zeros.
Qed.

Lemma firstn_tail_le (M : nat) (v v' : vec) :
  tail_le v v' -> tail_le (firstn M v) (firstn M v').
Proof.
  intros H. unfold tail_le. destruct M as [|M]; [constructor|].
  rewrite !tl_firstn. now apply Forall2_firstn.
Qed.

Lemma firstn_tail_nonneg (M : nat) (v : vec) :
  tail_nonneg v -> tail_nonneg (firstn M v).
Proof.
  intros H. unfold tail_nonneg. destruct M as [|M]; [constructor|].
  rewrite tl_firstn. now apply Forall_firstn.
Qed.

Lemma vadd_tail_le (x x' y y' : vec) :
  tail_le x x' -> tail_le y y' -> tail_le (Np.vadd x y) (Np.vadd x' y').
Proof.
  intros Hx Hy. unfold tail_le, Np.vadd. rewrite !tl_zip_with. now apply vadd_mono.
Qed.

Lemma vadd_tail_nonneg (x y : vec) :
  tail_nonneg x -> tail_nonneg y -> tail_nonneg (Np.vadd x y).
Proof.
  intros Hx Hy. unfold tail_nonneg, Np.vadd. rewrite tl_zip_with. now apply vadd_nonneg.
Qed.

(** The two steps keep the order and the sign from column 1 on. *)
Lemma explicit_row_tail_mono (A : matrix) (a c : vec) (M : nat) (row row' : vec) :
  tail_monotone A -> 0 <= nth (M - 1) c 0 -> (1 <= M)%nat ->
  tail_le row row' -> tail_le (explicit_row A a c M row) (explicit_row A a c M row').
Proof.
  intros HA Hc HM H. unfold explicit_row. apply vadd_tail_le.
  - apply dot_tail_mono; auto. now apply firstn_tail_le.
  - apply correction_tail_le. apply Qmult_le_compat_l_nonneg; auto.
    apply tail_le_nth; auto.
Qed.

Lemma explicit_row_tail_nonneg (A : matrix) (a c : vec) (M : nat) (row : vec) :
  tail_monotone A -> 0 <= nth (M - 1) c 0 -> (1 <= M)%nat ->
  tail_nonneg row -> tail_nonneg (explicit_row A a c M row).
Proof.
  intros HA Hc HM H. unfold explicit_row. apply vadd_tail_nonneg.
  - apply dot_tail_nonneg; auto. now apply firstn_tail_nonneg.
  - apply correction_tail_nonneg. apply Qmult_le_0_compat; auto.
    apply tail_nonneg_nth; auto.
Qed.

Lemma implicit_row_tail_mono (B : matrix) (a c : vec) (M : nat) (row row' : vec) :
  tail_monotone B -> nth (M - 1) c 0 <= 0 -> (1 <= M)%nat ->
  tail_le row row' -> tail_le (implicit_row B a c M row) (implicit_row B a c M row').
Proof.
  intros HB Hc HM H. unfold implicit_row. apply dot_tail_mono; auto.
  apply vadd_tail_le; [now apply firstn_tail_le|].
  apply correction_tail_le. apply Qmult_le_compat_l_nonneg; [lra|].
  apply tail_le_nth; auto.
Qed.

Lemma implicit_row_tail_nonneg (B : matrix) (a c : vec) (M : nat) (row : vec) :
  tail_monotone B -> nth (M - 1) c 0 <= 0 -> (1 <= M)%nat ->
  tail_nonneg row -> tail_nonneg (implicit_row B a c M row).
Proof.
  intros HB Hc HM H. unfold implicit_row. apply dot_tail_nonneg; auto.
  apply vadd_tail_nonneg; [now apply firstn_tail_nonneg|].
  apply correction_tail_nonneg. apply Qmult_le_0_compat; [lra|].
  apply tail_nonneg_nth; auto.
Qed.

Lemma upd_nth_same {A : Type} (k : nat) (d : A) (X : list A) : upd k (nth k X d) X = X.
Proof.
  revert k; induction X as [|x X IH]; intros [|k]; simpl; auto. now rewrite IH.
Qed.

Section LoopOrder.

Variables (f : vec -> vec) (floor_row : vec) (N M : nat).
Hypothesis f_length : forall row, length (f row) = M.
Hypothesis floor_length : length floor_row = (M + 1)%nat.

(** An order on rows that the step and the floor respect. *)
Variable R : vec -> vec -> Prop.
Hypothesis R_nil : R [] [].
Hypothesis R_step : forall r r' x x', R r r' -> R x x' -> R (f r ++ skipn M x) (f r' ++ skipn M x').
Hypothesis R_floor_r : forall x y, R x y -> length y = (M + 1)%nat -> R x (zip_with Qmax floor_row y).

(** The loop with the floor dominates the loop without it. *)
Lemma loop_with_american_above (n : nat) (FVe FVa : matrix) :
  shape (N + 1) (M + 1) FVa ->
  Forall2 R FVe FVa ->
  Forall2 R (loop_with f floor_row false M n FVe) (loop_with f floor_row true M n FVa).
Proof.
  revert FVe FVa; induction n as [|k IH]; intros FVe FVa Ha Hle; cbn [loop_with]; auto.
  apply IH.
  - apply (shape_body_with f floor_row true N M f_length floor_length); auto.
  - assert (Hs : shape (N + 1) (M + 1) (step_with f M FVa k))
      by (apply (shape_step_with f N M f_length); auto).
    assert (Hstep : Forall2 R (step_with f M FVe k) (step_with f M FVa k)).
    { unfold step_with, Np.set_row_prefix. apply Forall2_upd; auto.
      apply R_step; apply (Forall2_nth R); auto. }
    unfold body_with, floored.
    destruct (Nat.lt_ge_cases k (N + 1)) as [Hk|Hk].
    + rewrite <- (upd_nth_same k [] (step_with f M FVe k)) at 1.
      apply Forall2_upd; auto.
      apply R_floor_r; [apply (Forall2_nth R); auto|].
      rewrite (shape_row (N + 1) (M + 1)); auto.
    + rewrite upd_out_of_range; auto. destruct Hs; lia.
Qed.

End LoopOrder.

Section LoopSign.

Variables (f : vec -> vec) (floor_row : vec) (M : nat).

(** A property of rows that the step and the floor keep. *)
Variable P : vec -> Prop.
Hypothesis P_nil : P [].
Hypothesis P_step : forall r x, P r -> P x -> P (f r ++ skipn M x).
Hypothesis P_floor : forall x, P x -> P (zip_with Qmax floor_row x).

Lemma loop_with_keeps (american : bool) (n : nat) (FV : matrix) :
  Forall P FV -> Forall P (loop_with f floor_row american M n FV).
Proof.
  revert FV; induction n as [|k IH]; intros FV H; cbn [loop_with]; auto.
  apply IH.
  assert (Hstep : Forall P (step_with f M FV k)).
  { unfold step_with, Np.set_row_prefix. apply Forall_upd; auto.
    apply P_step; apply (Forall_nth P); auto. }
  unfold body_with, floored. destruct american; auto.
  apply Forall_upd; auto.
  apply P_floor. apply (Forall_nth P); auto.
Qed.

End LoopSign.

(** Rows compared from column 1 on. *)
Lemma tail_le_nil : tail_le [] [].
Proof. constructor. Qed.

Lemma tail_nonneg_nil : tail_nonneg [].
Proof. constructor. Qed.

Lemma tl_zip_max (fl x : vec) : tl (zip_with Qmax fl x) = zip_with Qmax (tl fl) (tl x).
Proof. destruct fl, x; simpl; auto. destruct fl; auto. Qed.

Lemma tail_le_floor_r (fl x y : vec) :
  tail_le x y -> length fl = length y -> tail_le x (zip_with Qmax fl y).
Proof.
  unfold tail_le. intros H Hl. rewrite tl_zip_max. apply vec_le_zip_max_r; auto.
  destruct fl, y; simpl in *; lia.
Qed.

Lemma tail_nonneg_floor (fl x : vec) : tail_nonneg x -> tail_nonneg (zip_with Qmax fl x).
Proof.
  unfold tail_nonneg. intros H. rewrite tl_zip_max. now apply nonneg_zip_max_r.
Qed.

Lemma tl_app_skipn (M : nat) (u x : vec) :
  length u = M -> (1 <= M)%nat -> tl (u ++ skipn M x) = tl u ++ skipn (M - 1) (tl x).
Proof.
  intros Hu HM. destruct u as [|a u]; simpl in *; [lia|].
  f_equal. replace M with (S (length u)) by lia. simpl. rewrite Nat.sub_0_r.
  destruct x; simpl; auto. now destruct (length u).
Qed.

Lemma tail_le_step (M : nat) (u u' x x' : vec) :
  length u = M -> length u' = M -> (1 <= M)%nat ->
  tail_le u u' -> tail_le x x' -> tail_le (u ++ skipn M x) (u' ++ skipn M x').
Proof.
  unfold tail_le. intros Hu Hu' HM H1 H2.
  rewrite !tl_app_skipn by auto. apply Forall2_app; auto. now apply Forall2_skipn.
Qed.

Lemma tail_nonneg_step (M : nat) (u x : vec) :
  length u = M -> (1 <= M)%nat ->
  tail_nonneg u -> tail_nonneg x -> tail_nonneg (u ++ skipn M x).
Proof.
  unfold tail_nonneg, nonneg. intros Hu HM H1 H2.
  rewrite tl_app_skipn by auto. apply Forall_app. split; auto. now apply Forall_skipn.
Qed.

Lemma tail_le_get (X Y : matrix) (i j : nat) :
  Forall2 tail_le X Y -> (1 <= j)%nat -> Np.get X i j <= Np.get Y i j.
Proof.
  intros H Hj. unfold Np.get. apply tail_le_nth; auto.
  apply (Forall2_nth tail_le); auto. apply tail_le_nil.
Qed.

Lemma tail_nonneg_get (X : matrix) (i j : nat) :
  Forall tail_nonneg X -> (1 <= j)%nat -> 0 <= Np.get X i j.
Proof.
  intros H Hj. unfold Np.get. apply tail_nonneg_nth; auto.
  apply (Forall_nth tail_nonneg); auto. apply tail_nonneg_nil.
Qed.

(** ** Products with the tridiagonal operator *)

Lemma vsum_zip_nth (v w : vec) :
  length v = length w ->
  vsum (zip_with Qmult v w) == vsum (map (fun l => nth l v 0 * nth l w 0) (seq 0 (length v))).
Proof.
  revert w; induction v as [|x v IH]; intros [|y w] H; simpl in *; try discriminate;
    [reflexivity|].
  rewrite <- seq_shift, map_map. rewrite (IH w) by lia. reflexivity.
Qed.

Lemma nth_column (A : matrix) (k l : nat) : nth l (Np.column A k) 0 = Np.get A l k.
Proof.
  unfold Np.column, Np.get.
  replace 0 with ((fun row : vec => nth k row 0) []) at 1 by (destruct k; reflexivity).
  apply (map_nth (fun row : vec => nth k row 0)).
Qed.

Lemma dot_entry_sum (v : vec) (A : matrix) (n k : nat) :
  length v = n -> shape n n A -> (k < n)%nat ->
  nth k (Np.dot v A) 0 == vsum (map (fun l => nth l v 0 * Np.get A l k) (seq 0 n)).
Proof.
  intros Hv HA Hk.
  rewrite nth_dot by (rewrite (shape_ncols n n); auto; lia).
  rewrite vsum_zip_nth by (unfold Np.column; rewrite length_map; destruct HA; lia).
  rewrite Hv. apply vsum_map_ext. intros l _. now rewrite nth_column.
Qed.

Lemma dot_tridiagonal (a b c g : vec) (M k : nat) :
  (1 <= M)%nat -> length a = M -> length b = M -> length c = M -> length g = M ->
  (k < M)%nat ->
  nth k (Np.dot g (tridiagonal a b c)) 0
  == tridiagonal_column a b c M (fun j => nth j g 0) k.
Proof.
  intros HM Ha Hb Hc Hg Hk.
  rewrite (dot_entry_sum g _ M) by (auto using shape_tridiagonal).
  rewrite (vsum_map_ext _
             (fun l => (if (l =? k)%nat then nth k g 0 * nth k b 0 else 0)
                       + ((if (l =? k - 1)%nat
                           then (if (1 <=? k)%nat then nth (k - 1) g 0 * nth (k - 1) c 0 else 0)
                           else 0)
                          + (if (l =? k + 1)%nat then nth (k + 1) g 0 * nth (k + 1) a 0 else 0)))).
  - rewrite vsum_map_plus, vsum_map_plus, !vsum_indicator. unfold tridiagonal_column.
    destruct (Nat.leb_spec 0 k), (Nat.ltb_spec k (0 + M)), (Nat.leb_spec 0 (k - 1)),
      (Nat.ltb_spec (k - 1) (0 + M)), (Nat.leb_spec 0 (k + 1)),
      (Nat.ltb_spec (k + 1) (0 + M)), (Nat.ltb_spec (k + 1) M), (Nat.leb_spec 1 k);
      simpl; try lia; ring.
  - intros l Hl. apply in_seq in Hl.
    rewrite (get_tridiagonal a b c M) by (auto; lia).
    destruct (Nat.eqb_spec k l), (Nat.eqb_spec (k + 1) l), (Nat.eqb_spec k (l + 1)),
      (Nat.eqb_spec l k), (Nat.eqb_spec l (k - 1)), (Nat.eqb_spec l (k + 1)),
      (Nat.leb_spec 1 k); subst; try lia; try ring.
    replace (l + 1 - 1)%nat with l by lia. ring.
Qed.

(** ** The minimum principle *)

Lemma exists_min_index (g : nat -> Q) (n : nat) :
  (1 <= n)%nat ->
  exists m, (1 <= m <= n)%nat /\ forall j, (1 <= j <= n)%nat -> g m <= g j.
Proof.
  induction n as [|n IH]; [lia|]. intros _.
  destruct n as [|n].
  - exists 1%nat. split; [lia|]. intros j Hj. replace j with 1%nat by lia. apply Qle_refl.
  - destruct IH as (m & Hm & Hmin); [lia|].
    destruct (Qlt_le_dec (g (S (S n))) (g m)) as [Hlt|Hle].
    + exists (S (S n)). split; [lia|]. intros j Hj.
      destruct (Nat.eq_dec j (S (S n))) as [->|Hne]; [apply Qle_refl|].
      apply Qle_trans with (g m); [lra|]. apply Hmin. lia.
    + exists m. split; [lia|]. intros j Hj.
      destruct (Nat.eq_dec j (S (S n))) as [->|Hne]; [exact Hle|]. apply Hmin. lia.
Qed.

Lemma Qmult_le_nonpos (x y z : Q) : y <= x -> z <= 0 -> x * z <= y * z.
Proof. intros H Hz. nra. Qed.

(** A vector [g] whose product with a tridiagonal matrix is non-negative in
    the columns [1..M-1] is non-negative there, when in those columns the
    entries off the diagonal are not positive and the entries of each column
    sum to a positive number.  Column 0 does not take part: [c[0] = 0]. *)
Lemma tail_min_principle (a b c : vec) (M : nat) (g : nat -> Q) :
  nth 0 c 0 == 0 ->
  (forall j, (2 <= j < M)%nat -> nth j a 0 <= 0) ->
  (forall j, (1 <= j < M)%nat -> nth j c 0 <= 0) ->
  (forall k, (1 <= k < M)%nat ->
     0 < nth (k - 1) c 0 + nth k b 0 + (if (k + 1 <? M)%nat then nth (k + 1) a 0 else 0)) ->
  (forall k, (1 <= k < M)%nat -> 0 <= tridiagonal_column a b c M g k) ->
  forall j, (1 <= j < M)%nat -> 0 <= g j.
Proof.
  intros Hc0 Ha Hc Hsum Hg j Hj.
  destruct (exists_min_index g (M - 1)) as (m & Hm & Hmin); [lia|].
  apply Qle_trans with (g m); [|apply Hmin; lia].
  destruct (Qlt_le_dec (g m) 0) as [Hneg|]; [exfalso|assumption].
  assert (Hk := Hg m ltac:(lia)). assert (Hs := Hsum m ltac:(lia)).
  unfold tridiagonal_column in Hk.
  destruct (Nat.leb_spec 1 m) as [_|]; [|lia].
  assert (H1 : g (m - 1)%nat * nth (m - 1) c 0 <= g m * nth (m - 1) c 0).
  { destruct (Nat.eq_dec m 1) as [->|Hne].
    - simpl. rewrite Hc0. lra.
    - apply Qmult_le_nonpos; [apply Hmin; lia|apply Hc; lia]. }
  destruct (Nat.ltb_spec (m + 1) M) as [Hlt|Hge].
  - assert (H2 : g (m + 1)%nat * nth (m + 1) a 0 <= g m * nth (m + 1) a 0).
    { apply Qmult_le_nonpos; [apply Hmin; lia|apply Ha; lia]. }
    nra.
  - nra.
Qed.

(** ** The inverse of the implicit operator *)

Lemma nth_overflow_0 (v : vec) (j : nat) : (length v <= j)%nat -> nth j v 0 = 0.
Proof. intros H. now apply nth_overflow. Qed.

Lemma tail_monotone_left_inverse (a b c : vec) (M : nat) (B : matrix) :
  (1 <= M)%nat -> length a = M -> length b = M -> length c = M ->
  shape M M B -> is_left_inverse M B (tridiagonal a b c) ->
  nth 0 c 0 == 0 ->
  (forall j, (2 <= j < M)%nat -> nth j a 0 <= 0) ->
  (forall j, (1 <= j < M)%nat -> nth j c 0 <= 0) ->
  (forall k, (1 <= k < M)%nat ->
     0 < nth (k - 1) c 0 + nth k b 0 + (if (k + 1 <? M)%nat then nth (k + 1) a 0 else 0)) ->
  tail_monotone B.
Proof.
  intros HM La Lb Lc HB Hinv Hc0 Ha Hc Hsum.
  assert (Hcol : forall l k, (l < M)%nat -> (k < M)%nat ->
            tridiagonal_column a b c M (fun j => nth j (nth l B []) 0) k
            == if (l =? k)%nat then 1 else 0).
  { intros l k Hl Hk. rewrite <- (Hinv l k Hl Hk).
    symmetry. apply dot_tridiagonal; auto. now apply (shape_row M M). }
  assert (Hopp : forall g k, tridiagonal_column a b c M (fun j => - g j) k
                             == - tridiagonal_column a b c M g k).
  { intros g k. unfold tridiagonal_column.
    destruct (1 <=? k)%nat, (k + 1 <? M)%nat; ring. }
  intros j Hj. split.
  - destruct (Nat.lt_ge_cases j M) as [HjM|HjM].
    + destruct B as [|row0 B']; [destruct HB; simpl in *; lia|]. simpl.
      assert (H1 : 0 <= nth j row0 0).
      { apply (tail_min_principle a b c M (fun j => nth j row0 0)); auto.
        intros k Hk. rewrite (Hcol 0%nat k) by lia.
        destruct (Nat.eqb_spec 0 k); [lia|apply Qle_refl]. }
      assert (H2 : 0 <= - nth j row0 0).
      { apply (tail_min_principle a b c M (fun j => - nth j row0 0)); auto.
        intros k Hk. rewrite Hopp, (Hcol 0%nat k) by lia.
        destruct (Nat.eqb_spec 0 k); [lia|]. apply Qle_refl. }
      lra.
    + rewrite nth_overflow_0; [reflexivity|].
      destruct B as [|row0 B']; simpl; [lia|].
      destruct HB as [_ HB]. inversion HB; subst. lia.
  - apply Forall_forall. intros row Hrow.
    destruct (In_nth _ _ [] Hrow) as (l & Hl & <-).
    rewrite length_tl in Hl. destruct HB as [HB1 HB2].
    replace (nth l (tl B) []) with (nth (S l) B []) by (apply nth_S_tl).
    destruct (Nat.lt_ge_cases j M) as [HjM|HjM].
    + apply (tail_min_principle a b c M (fun j => nth j (nth (S l) B []) 0)); auto.
      intros k Hk. rewrite (Hcol (S l) k) by lia.
      destruct (Nat.eqb_spec (S l) k); discriminate.
    + rewrite nth_overflow_0; [apply Qle_refl|].
      rewrite (shape_row M M); auto; [split; auto|lia].
Qed.

(** ** The coefficients in the monotone range *)

Lemma drift_below_diffusion_from (dt s2 u : Q) (m n : nat) :
  0 <= dt -> 0 <= s2 -> 0 <= s2 * Np.float m + u -> (m <= n)%nat ->
  0 <= dt * (Np.float n * (s2 * Np.float n + u)).
Proof.
  intros Hdt Hs Hu Hmn.
  pose proof (float_nonneg n) as Hn. pose proof (float_le m n Hmn) as Hle.
  apply Qmult_le_0_compat; auto. apply Qmult_le_0_compat; auto.
  assert (P : 0 <= s2 * (Np.float n - Np.float m)) by (apply Qmult_le_0_compat; lra).
  assert (E : s2 * Np.float n + u == s2 * (Np.float n - Np.float m) + (s2 * Np.float m + u))
    by ring.
  rewrite E. lra.
Qed.

Lemma float_pred (n : nat) : (1 <= n)%nat -> Np.float (n - 1) == Np.float n - 1.
Proof.
  intros H. destruct n as [|n]; [lia|].
  replace (S n - 1)%nat with n by lia. rewrite float_S. ring.
Qed.

Lemma float_succ (n : nat) : Np.float (n + 1) == Np.float n + 1.
Proof. replace (n + 1)%nat with (S n) by lia. apply float_S. Qed.

Lemma explicit_coefficients_tail_nonneg (M : nat) (dt r q sigma : Q) (a b c : vec) :
  explicit_coefficients M dt r q sigma = (a, b, c) ->
  explicit_monotone_range M dt r q sigma ->
  nth 0 c 0 == 0 /\
  (forall j, (2 <= j < M)%nat -> 0 <= nth j a 0) /\
  (forall j, (1 <= j < M)%nat -> 0 <= nth j b 0) /\
  (forall j, (1 <= j < M)%nat -> 0 <= nth j c 0).
Proof.
  intros E (Hdt & Hd & H1 & H2 & H3).
  assert (Hne : ~ 1 + r * dt == 0) by lra.
  pose proof (Qsquare_nonneg sigma) as Hs.
  assert (Hquot : forall x, 0 <= x -> 0 <= x / (1 + r * dt)).
  { intros x Hx. apply Qle_shift_div_l; auto. lra. }
  split; [apply (explicit_a0_zero M dt r q sigma a b c Hne E)|].
  split; [|split]; intros j Hj;
    destruct (nth_explicit_coefficients _ _ _ _ _ _ _ _ j E ltac:(lia)) as (Ea & Eb & Ec).
  - rewrite Ea. apply Hquot.
    pose proof (drift_below_diffusion_from dt (sigma ^ 2) (- (r - q)) 2 j Hdt Hs) as P.
    assert (E' : - (1#2) * (r - q) * dt * Np.float j + (1#2) * sigma ^ 2 * dt * Np.float j ^ 2
                 == (1#2) * (dt * (Np.float j * (sigma ^ 2 * Np.float j + - (r - q)))))
      by ring.
    rewrite E'. change (Np.float 2) with 2 in P.
    assert (0 <= dt * (Np.float j * (sigma ^ 2 * Np.float j + - (r - q))))
      by (apply P; [lra|lia]).
    lra.
  - rewrite Eb. apply Hquot.
    pose proof (float_nonneg j) as Hj0.
    pose proof (float_le j (M - 1) ltac:(lia)) as Hjm.
    pose proof (Qsquare_le _ _ Hj0 Hjm) as Hsq.
    assert (P : 0 <= sigma ^ 2 * dt) by (now apply Qmult_le_0_compat).
    pose proof (Qmult_le_compat_l_nonneg _ _ _ P Hsq) as Hb.
    assert (E1 : sigma ^ 2 * dt * Np.float j ^ 2
                 == sigma ^ 2 * dt * (Np.float j * Np.float j)) by ring.
    assert (E2 : sigma ^ 2 * dt * Np.float (M - 1) ^ 2
                 == sigma ^ 2 * dt * (Np.float (M - 1) * Np.float (M - 1))) by ring.
    rewrite E1. rewrite E2 in H3. lra.
  - rewrite Ec. apply Hquot.
    pose proof (drift_below_diffusion_from dt (sigma ^ 2) (r - q) 1 j Hdt Hs) as P.
    assert (E' : (1#2) * (r - q) * dt * Np.float j + (1#2) * sigma ^ 2 * dt * Np.float j ^ 2
                 == (1#2) * (dt * (Np.float j * (sigma ^ 2 * Np.float j + (r - q)))))
      by ring.
    rewrite E'. change (Np.float 1) with 1 in P.
    assert (0 <= dt * (Np.float j * (sigma ^ 2 * Np.float j + (r - q))))
      by (apply P; [lra|lia]).
    lra.
Qed.

Lemma implicit_coefficients_tail (M : nat) (dt r q sigma : Q) (a b c : vec) :
  compute_transition_probabilities M dt r q sigma = (a, b, c) ->
  implicit_monotone_range dt r q sigma ->
  nth 0 c 0 == 0 /\
  (forall j, (2 <= j < M)%nat -> nth j a 0 <= 0) /\
  (forall j, (1 <= j < M)%nat -> nth j c 0 <= 0) /\
  (forall k, (1 <= k < M)%nat ->
     0 < nth (k - 1) c 0 + nth k b 0 + (if (k + 1 <? M)%nat then nth (k + 1) a 0 else 0)).
Proof.
  intros E (Hdt & H1 & H2 & H3).
  pose proof (Qsquare_nonneg sigma) as Hs.
  assert (Ha : forall j, (2 <= j)%nat ->
            (1#2) * (r - q) * Np.float j * dt - (1#2) * sigma ^ 2 * Np.float j ^ 2 * dt <= 0).
  { intros j Hj.
    pose proof (drift_below_diffusion_from dt (sigma ^ 2) (- (r - q)) 2 j Hdt Hs) as P.
    change (Np.float 2) with 2 in P.
    assert (0 <= dt * (Np.float j * (sigma ^ 2 * Np.float j + - (r - q))))
      by (apply P; [lra|lia]).
    assert (E' : (1#2) * (r - q) * Np.float j * dt - (1#2) * sigma ^ 2 * Np.float j ^ 2 * dt
                 == - ((1#2) * (dt * (Np.float j * (sigma ^ 2 * Np.float j + - (r - q))))))
      by ring.
    rewrite E'. lra. }
  split; [apply (implicit_a0_zero M dt r q sigma a b c E)|].
  split; [|split].
  - intros j Hj.
    destruct (nth_compute_transition_probabilities _ _ _ _ _ _ _ _ j E ltac:(lia))
      as (Ea & _ & _).
    rewrite Ea. apply Ha. lia.
  - intros j Hj.
    destruct (nth_compute_transition_probabilities _ _ _ _ _ _ _ _ j E ltac:(lia))
      as (_ & _ & Ec).
    rewrite Ec.
    pose proof (drift_below_diffusion_from dt (sigma ^ 2) (r - q) 1 j Hdt Hs) as P.
    change (Np.float 1) with 1 in P.
    assert (0 <= dt * (Np.float j * (sigma ^ 2 * Np.float j + (r - q))))
      by (apply P; [lra|lia]).
    assert (E' : - (1#2) * (r - q) * Np.float j * dt - (1#2) * sigma ^ 2 * Np.float j ^ 2 * dt
                 == - ((1#2) * (dt * (Np.float j * (sigma ^ 2 * Np.float j + (r - q))))))
      by ring.
    rewrite E'. lra.
  - intros k Hk.
    destruct (nth_compute_transition_probabilities _ _ _ _ _ _ _ _ (k - 1) E ltac:(lia))
      as (_ & _ & Ec).
    destruct (nth_compute_transition_probabilities _ _ _ _ _ _ _ _ k E ltac:(lia))
      as (_ & Eb & _).
    rewrite Ec, Eb. rewrite (float_pred k) by lia.
    assert (Hsum : - (1#2) * (r - q) * (Np.float k - 1) * dt
                   - (1#2) * sigma ^ 2 * (Np.float k - 1) ^ 2 * dt
                   + (1 + sigma ^ 2 * Np.float k ^ 2 * dt + r * dt)
                   + ((1#2) * (r - q) * (Np.float k + 1) * dt
                      - (1#2) * sigma ^ 2 * (Np.float k + 1) ^ 2 * dt)
                   == 1 + (2 * r - q - sigma ^ 2) * dt) by ring.
    pose proof (Ha (k + 1)%nat ltac:(lia)) as Hak. rewrite float_succ in Hak.
    destruct (Nat.ltb_spec (k + 1) M) as [Hlt|Hge].
    + destruct (nth_compute_transition_probabilities _ _ _ _ _ _ _ _ (k + 1) E Hlt)
        as (Ea & _ & _).
      rewrite Ea, float_succ. lra.
    + lra.
Qed.

(** ** Operators that keep the order from column 1 on *)

Lemma hd_nth_0 {A : Type} (l : list A) (d : A) : hd d l = nth 0 l d.
Proof. now destruct l. Qed.

Lemma tail_monotone_tridiagonal (a b c : vec) (M : nat) :
  (1 <= M)%nat -> length a = M -> length b = M -> length c = M ->
  nth 0 c 0 == 0 ->
  (forall j, (2 <= j < M)%nat -> 0 <= nth j a 0) ->
  (forall j, (1 <= j < M)%nat -> 0 <= nth j b 0) ->
  (forall j, (1 <= j < M)%nat -> 0 <= nth j c 0) ->
  tail_monotone (tridiagonal a b c).
Proof.
  intros HM La Lb Lc Hc0 Ha Hb Hc.
  pose proof (shape_tridiagonal a b c M HM La Lb Lc) as Hs.
  intros j Hj. split.
  - rewrite hd_nth_0.
    destruct (Nat.lt_ge_cases j M) as [HjM|HjM].
    + change (Np.get (tridiagonal a b c) 0 j == 0).
      rewrite (get_tridiagonal a b c M) by (auto; lia).
      destruct (Nat.eqb_spec j 0), (Nat.eqb_spec (j + 1) 0), (Nat.eqb_spec j (0 + 1));
        try lia; auto; reflexivity.
    + rewrite nth_overflow_0; [reflexivity|]. rewrite (shape_row M M); auto; lia.
  - apply Forall_forall. intros row Hrow.
    destruct (In_nth _ _ [] Hrow) as (l & Hl & <-).
    rewrite length_tl in Hl. destruct Hs as [Hs1 Hs2].
    replace (nth l (tl (tridiagonal a b c)) []) with (nth (S l) (tridiagonal a b c) [])
      by (apply nth_S_tl).
    destruct (Nat.lt_ge_cases j M) as [HjM|HjM].
    + change (0 <= Np.get (tridiagonal a b c) (S l) j).
      rewrite (get_tridiagonal a b c M) by (auto; lia).
      destruct (Nat.eqb_spec j (S l)), (Nat.eqb_spec (j + 1) (S l)),
        (Nat.eqb_spec j (S l + 1)); try lia; try apply Qle_refl.
      * apply Hb. lia.
      * apply Ha. lia.
      * apply Hc. lia.
    + rewrite nth_overflow_0; [apply Qle_refl|].
      rewrite (shape_row M M); auto; [split; auto|lia].
Qed.

Lemma Forall2_tail_le_refl (X : matrix) : Forall2 tail_le X X.
Proof. induction X; constructor; auto. apply tail_le_refl. Qed.

Lemma nonneg_tail_nonneg (X : matrix) : nonneg_matrix X -> Forall tail_nonneg X.
Proof.
  intros H. eapply Forall_impl; [|exact H]. intros row Hrow.
  unfold tail_nonneg. now apply nonneg_tl.
Qed.

Lemma explicit_column_pos (M : nat) : (1 <= (M + 1 + 1) / 2)%nat.
Proof. apply Nat.div_le_lower_bound; lia. Qed.

Lemma implicit_column_pos (M : nat) : (2 <= M)%nat -> (1 <= M / 2)%nat.
Proof. intros H. apply Nat.div_le_lower_bound; lia. Qed.

(** ** The loops in the monotone range *)

Section MonotoneRange.

Variables (dt r q sigma : Q) (M : nat).
Hypothesis HM : (1 <= M)%nat.

Lemma explicit_step_facts (a b c : vec) :
  explicit_coefficients M dt r q sigma = (a, b, c) ->
  explicit_monotone_range M dt r q sigma ->
  let f := explicit_row (tridiagonal a b c) a c M in
  (forall row, length (f row) = M) /\
  (forall u u' x x', tail_le u u' -> tail_le x x' ->
                     tail_le (f u ++ skipn M x) (f u' ++ skipn M x')) /\
  (forall u x, tail_nonneg u -> tail_nonneg x -> tail_nonneg (f u ++ skipn M x)).
Proof.
  intros E Hr.
  destruct (length_explicit_coefficients _ _ _ _ _ _ _ _ E) as (La & Lb & Lc).
  destruct (explicit_coefficients_tail_nonneg M dt r q sigma a b c E Hr)
    as (Hc0 & Ha & Hb & Hc).
  assert (HA : tail_monotone (tridiagonal a b c))
    by (now apply (tail_monotone_tridiagonal a b c M)).
  assert (HcM : 0 <= nth (M - 1) c 0).
  { destruct (Nat.eq_dec M 1) as [->|Hne]; [simpl; rewrite Hc0; apply Qle_refl|].
    apply Hc. lia. }
  assert (Hlen : forall row, length (explicit_row (tridiagonal a b c) a c M row) = M).
  { intros row. apply length_explicit_row; auto. now apply shape_tridiagonal. }
  split; [exact Hlen|]. split.
  - intros u u' x x' Hu Hx. apply tail_le_step; auto.
    now apply explicit_row_tail_mono.
  - intros u x Hu Hx. apply tail_nonneg_step; auto.
    now apply explicit_row_tail_nonneg.
Qed.

Lemma implicit_step_facts (a b c : vec) (B : matrix) :
  compute_transition_probabilities M dt r q sigma = (a, b, c) ->
  implicit_monotone_range dt r q sigma -> (2 <= M)%nat ->
  shape M M B -> is_left_inverse M B (tridiagonal a b c) ->
  let f := implicit_row B a c M in
  (forall row, length (f row) = M) /\
  (forall u u' x x', tail_le u u' -> tail_le x x' ->
                     tail_le (f u ++ skipn M x) (f u' ++ skipn M x')) /\
  (forall u x, tail_nonneg u -> tail_nonneg x -> tail_nonneg (f u ++ skipn M x)).
Proof.
  intros E Hr HM2 HB Hinv.
  destruct (length_compute_transition_probabilities _ _ _ _ _ _ _ _ E) as (La & Lb & Lc).
  destruct (implicit_coefficients_tail M dt r q sigma a b c E Hr)
    as (Hc0 & Ha & Hc & Hsum).
  assert (HBm : tail_monotone B)
    by (now apply (tail_monotone_left_inverse a b c M B)).
  assert (HcM : nth (M - 1) c 0 <= 0) by (apply Hc; lia).
  assert (Hlen : forall row, length (implicit_row B a c M row) = M).
  { intros row. now apply length_implicit_row. }
  split; [exact Hlen|]. split.
  - intros u u' x x' Hu Hx. apply tail_le_step; auto.
    now apply implicit_row_tail_mono.
  - intros u x Hu Hx. apply tail_nonneg_step; auto.
    now apply implicit_row_tail_nonneg.
Qed.

End MonotoneRange.

(** ** C7: American against European *)

Lemma Ok_fst {A B : Type} (x : A * B) (a : A) (b : B) : Ok x = Ok (a, b) -> fst x = a.
Proof. intros H. injection H as ->. reflexivity. Qed.

Lemma left_inverse_check_ok (M : nat) (B A : matrix) :
  left_inverse_check M B A = true -> is_left_inverse M B A.
Proof.
  unfold left_inverse_check, is_left_inverse. intros H l k Hl Hk.
  rewrite forallb_forall in H.
  assert (H1 := H l ltac:(apply in_seq; lia)).
  rewrite forallb_forall in H1.
  assert (H2 := H1 k ltac:(apply in_seq; lia)).
  now apply Qeq_bool_iff.
Qed.

Lemma Ok_pair {A B : Type} (x : A * B) : Ok x = Ok (fst x, snd x).
Proof. now destruct x. Qed.

Ltac range_by_computation :=
  unfold explicit_monotone_range, implicit_monotone_range;
  repeat split; vm_compute; first [reflexivity | discriminate].

(** The two runs of an entry point, with a strict inequality between the
    fair values. *)
Lemma strictly_ordered_runs (x y : result (Q * Q)) (u v : Q * Q) :
  x = Ok u -> y = Ok v -> snd u = snd v -> fst v < fst u ->
  exists am eu nrm, x = Ok (am, nrm) /\ y = Ok (eu, nrm) /\ eu < am.
Proof.
  intros -> -> Hn Hlt. exists (fst u), (fst v), (snd u).
  split; [apply Ok_pair|]. split; [rewrite Hn; apply Ok_pair|exact Hlt].
Qed.

(** The input of the repository is in both ranges. *)
Lemma sample_input_in_monotone_range :
  explicit_monotone_range 40 (1 / Np.float 100) (1#10) 0 (1#4) /\
  implicit_monotone_range (1 / Np.float 100) (1#10) 0 (1#4).
Proof. split; range_by_computation. Qed.

(** C7 (as the code behaves).  With [N >= 1], [M >= 1], [K <> 0] and
    [dt = T / N], the fair value of the American contract is at least that
    of the European one, with the same norm, in the range where the step
    keeps the order of rows from column 1 on:
    - explicit scheme: [dt >= 0], [1 + r*dt > 0], [r - q <= 2*sigma^2],
      [q - r <= sigma^2] and [sigma^2 * dt * (M-1)^2 <= 1];
    - implicit scheme: [M >= 2], [dt >= 0], [r - q <= 2*sigma^2],
      [q - r <= sigma^2] and [1 + (2r - q - sigma^2)*dt > 0], for a matrix
      [B] of [M] rows and [M] columns that [la.inv] returned with
      [np.dot(B, A)] the identity, and a call that builds its grid
      ([np.arange(0, S_max + dS, dS)] has [M + 1] entries).
    The input of the repository ([T = 1], [r = 0.1], [q = 0],
    [sigma = 0.25], [N = 100], [M = 40]) is in both ranges. *)
Theorem american_dominates_european_for_monotone_steps
    (np_exp : Q -> Q) (la_inv : matrix -> result matrix)
    (np_levels : Q -> Q -> nat)
    (S_0 T K r q sigma : Q) (N M : nat) (isCall : bool) :
  (1 <= N)%nat -> (1 <= M)%nat -> ~ K == 0 ->
  (explicit_monotone_range M (T / Np.float N) r q sigma ->
   exists am eu nrm,
     VanillaOption_Explicit np_exp S_0 T K r q sigma N M isCall true = Ok (am, nrm) /\
     VanillaOption_Explicit np_exp S_0 T K r q sigma N M isCall false = Ok (eu, nrm) /\
     eu <= am)
  /\
  (forall B,
      (2 <= M)%nat ->
      implicit_monotone_range (T / Np.float N) r q sigma ->
      la_inv (implicit_operator M (T / Np.float N) r q sigma) = Ok B -> shape M M B ->
      is_left_inverse M B (implicit_operator M (T / Np.float N) r q sigma) ->
      levels_fit np_levels K M ->
      exists am eu nrm,
        vanilla_option_implicit np_exp la_inv np_levels S_0 T K r q sigma N M isCall true
        = Ok (am, nrm) /\
        vanilla_option_implicit np_exp la_inv np_levels S_0 T K r q sigma N M isCall false
        = Ok (eu, nrm) /\
        eu <= am).
Proof.
  intros HN HM HK. split.
  - intros Hr.
    rewrite !explicit_entry_ok by auto.
    unfold explicit_trace.
    destruct (explicit_coefficients M (T / Np.float N) r q sigma) as [[a b] c] eqn:E.
    destruct (explicit_step_facts (T / Np.float N) r q sigma M HM a b c E Hr) as (Hlen & Hstep & _).
    cbn [run_out].
    eexists _, _, _. split; [reflexivity|]. split; [reflexivity|].
    apply tail_le_get; [|apply explicit_column_pos].
    apply (loop_with_american_above _ _ N M); auto.
    + now rewrite length_explicit_floor_row, length_price_levels.
    + apply tail_le_nil.
    + intros x y Hxy Hy. apply tail_le_floor_r; auto.
      now rewrite length_explicit_floor_row, length_price_levels.
    + apply shape_initial_grid.
    + apply Forall2_tail_le_refl.
  - intros B HM2 Hr Hinv HB Hleft HL.
    rewrite !(implicit_entry_ok _ _ _ _ _ _ _ _ _ _ _ _ _ B) by auto.
    unfold implicit_trace. unfold implicit_operator in Hleft.
    destruct (compute_transition_probabilities M (T / Np.float N) r q sigma)
      as [[a b] c] eqn:E.
    destruct (implicit_step_facts (T / Np.float N) r q sigma M HM a b c B E Hr HM2 HB Hleft)
      as (Hlen & Hstep & _).
    cbn [run_out].
    eexists _, _, _. split; [reflexivity|]. split; [reflexivity|].
    apply tail_le_get; [|now apply implicit_column_pos].
    apply (loop_with_american_above _ _ N M); auto.
    + apply length_implicit_floor_row.
    + apply tail_le_nil.
    + intros x y Hxy Hy. apply tail_le_floor_r; auto.
      now rewrite length_implicit_floor_row.
    + apply shape_initial_grid.
    + apply Forall2_tail_le_refl.
Qed.

(** C7, counterexamples, whatever [numpy.exp] computes.
    Explicit scheme: put, [K = 50], [T = 5], [r = 0.1], [q = 0],
    [sigma = 0.5], [N = 4], [M = 4]: the American fair value is
    [163975/17496] (about 9.37) and the European one [57925/5832] (about
    9.93).
    Implicit scheme, with the exact inverse for [la.inv]: put, [K = 50],
    [T = 5], [r = 0], [q = 1], [sigma = 0.05], [N = 3], [M = 4]: the
    American fair value is 0 and the European one about 0.079. *)
Lemma american_fair_value_below_european :
  (~ exists (np_exp : Q -> Q) (am eu nA nE : Q),
      VanillaOption_Explicit np_exp 50 5 50 (1#10) 0 (1#2) 4 4 false true = Ok (am, nA) /\
      VanillaOption_Explicit np_exp 50 5 50 (1#10) 0 (1#2) 4 4 false false = Ok (eu, nE) /\
      eu <= am)
  /\
  (forall np_exp : Q -> Q,
      exists am eu nrm,
        vanilla_option_implicit np_exp inv_exact Float64.levels 50 5 50 0 1 (1#20) 3 4
          false false = Ok (eu, nrm) /\
        vanilla_option_implicit np_exp inv_exact Float64.levels 50 5 50 0 1 (1#20) 3 4
          false true = Ok (am, nrm) /\
        am < eu)
  /\
  (exists B,
      inv_exact (implicit_operator 4 (5 / Np.float 3) 0 1 (1#20)) = Ok B /\
      is_left_inverse 4 B (implicit_operator 4 (5 / Np.float 3) 0 1 (1#20))).
Proof.
  split; [|split].
  - intros (np_exp & am & eu & nA & nE & Ha & He & H).
    rewrite explicit_entry_ok in Ha by (lia || discriminate).
    rewrite explicit_entry_ok in He by (lia || discriminate).
    apply Ok_fst in Ha. apply Ok_fst in He. rewrite <- Ha, <- He in H.
    vm_compute in H. apply H. reflexivity.
  - intros np_exp.
    destruct (inv_exact (implicit_operator 4 (5 / Np.float 3) 0 1 (1#20)))
      as [B|e] eqn:EB; [|vm_compute in EB; discriminate EB].
    assert (HB : shape 4 4 B).
    { vm_compute in EB. apply Ok_inj in EB. subst B. split; [reflexivity|repeat constructor]. }
    assert (H3 : (1 <= 3)%nat) by lia.
    assert (H4 : (1 <= 4)%nat) by lia.
    assert (HK : ~ 50 == 0) by discriminate.
    destruct (strictly_ordered_runs _ _ _ _
             (implicit_entry_ok np_exp inv_exact Float64.levels 50 5 50 0 1 (1#20)
                3 4 false false B H3 H4 HK EB HB float64_levels_50_4)
             (implicit_entry_ok np_exp inv_exact Float64.levels 50 5 50 0 1 (1#20)
                3 4 false true B H3 H4 HK EB HB float64_levels_50_4))
      as (eu & am & nrm & He & Ha & Hlt).
    + vm_compute in EB. apply Ok_inj in EB. subst B. vm_compute. reflexivity.
    + vm_compute in EB. apply Ok_inj in EB. subst B. vm_compute. reflexivity.
    + exists am, eu, nrm. auto.
  - destruct (inv_exact (implicit_operator 4 (5 / Np.float 3) 0 1 (1#20)))
      as [B|e] eqn:EB; [|vm_compute in EB; discriminate EB].
    exists B. split; [reflexivity|].
    apply left_inverse_check_ok. vm_compute in EB. apply Ok_inj in EB. subst B.
    vm_compute. reflexivity.
Qed.

(** C7, witness: a put with [K = 50], [r = 0.1], [q = 0], [sigma = 0.25],
    [M = 4]; [T = 3], [N = 3] for the explicit scheme, [T = 1], [N = 2] and
    the exact inverse for the implicit one.  In both the American fair value
    is strictly above the European one. *)
Lemma american_dominates_european_for_monotone_steps_witness :
  ((1 <= 3)%nat /\ (1 <= 4)%nat /\ ~ 50 == 0 /\
   explicit_monotone_range 4 (3 / Np.float 3) (1#10) 0 (1#4)) /\
  (exists am eu nrm,
      VanillaOption_Explicit exp_approx 50 3 50 (1#10) 0 (1#4) 3 4 false true = Ok (am, nrm) /\
      VanillaOption_Explicit exp_approx 50 3 50 (1#10) 0 (1#4) 3 4 false false = Ok (eu, nrm) /\
      eu <= am) /\
  (exists am eu nrm,
      VanillaOption_Explicit exp_approx 50 3 50 (1#10) 0 (1#4) 3 4 false true = Ok (am, nrm) /\
      VanillaOption_Explicit exp_approx 50 3 50 (1#10) 0 (1#4) 3 4 false false = Ok (eu, nrm) /\
      eu < am) /\
  (exists B,
      (1 <= 2)%nat /\ (2 <= 4)%nat /\
      implicit_monotone_range (1 / Np.float 2) (1#10) 0 (1#4) /\
      inv_exact (implicit_operator 4 (1 / Np.float 2) (1#10) 0 (1#4)) = Ok B /\
      shape 4 4 B /\
      is_left_inverse 4 B (implicit_operator 4 (1 / Np.float 2) (1#10) 0 (1#4)) /\
      levels_fit Float64.levels 50 4) /\
  (exists am eu nrm,
      vanilla_option_implicit exp_approx inv_exact Float64.levels 50 1 50 (1#10) 0 (1#4) 2 4
        false true = Ok (am, nrm) /\
      vanilla_option_implicit exp_approx inv_exact Float64.levels 50 1 50 (1#10) 0 (1#4) 2 4
        false false = Ok (eu, nrm) /\
      eu <= am) /\
  (exists am eu nrm,
      vanilla_option_implicit exp_approx inv_exact Float64.levels 50 1 50 (1#10) 0 (1#4) 2 4
        false true = Ok (am, nrm) /\
      vanilla_option_implicit exp_approx inv_exact Float64.levels 50 1 50 (1#10) 0 (1#4) 2 4
        false false = Ok (eu, nrm) /\
      eu < am).
Proof.
  assert (H2 : (1 <= 2)%nat) by lia.
  assert (H3 : (1 <= 3)%nat) by lia.
  assert (H4 : (1 <= 4)%nat) by lia.
  assert (H24 : (2 <= 4)%nat) by lia.
  assert (HK : ~ 50 == 0) by discriminate.
  assert (He : explicit_monotone_range 4 (3 / Np.float 3) (1#10) 0 (1#4))
    by range_by_computation.
  assert (Hi : implicit_monotone_range (1 / Np.float 2) (1#10) 0 (1#4))
    by range_by_computation.
  destruct (inv_exact (implicit_operator 4 (1 / Np.float 2) (1#10) 0 (1#4)))
    as [B|e] eqn:EB; [|vm_compute in EB; discriminate EB].
  assert (HB : shape 4 4 B).
  { vm_compute in EB. apply Ok_inj in EB. subst B. split; [reflexivity|repeat constructor]. }
  assert (Hl : is_left_inverse 4 B (implicit_operator 4 (1 / Np.float 2) (1#10) 0 (1#4))).
  { apply left_inverse_check_ok. vm_compute in EB. apply Ok_inj in EB. subst B.
    vm_compute. reflexivity. }
  split; [tauto|]. split; [|split; [|split; [|split]]].
  - exact (proj1 (american_dominates_european_for_monotone_steps exp_approx inv_exact
                    Float64.levels 50 3 50 (1#10) 0 (1#4) 3 4 false H3 H4 HK) He).
  - apply (strictly_ordered_runs _ _ _ _
             (explicit_entry_ok exp_approx 50 3 50 (1#10) 0 (1#4) 3 4 false true H3 H4 HK)
             (explicit_entry_ok exp_approx 50 3 50 (1#10) 0 (1#4) 3 4 false false H3 H4 HK));
      vm_compute; reflexivity.
  - exists B.
    exact (conj H2 (conj H24 (conj Hi (conj eq_refl (conj HB (conj Hl float64_levels_50_4)))))).
  - exact (proj2 (american_dominates_european_for_monotone_steps exp_approx inv_exact
                    Float64.levels 50 1 50 (1#10) 0 (1#4) 2 4 false H2 H4 HK)
                 B H24 Hi EB HB Hl float64_levels_50_4).
  - apply (strictly_ordered_runs _ _ _ _
             (implicit_entry_ok exp_approx inv_exact Float64.levels 50 1 50 (1#10) 0 (1#4)
                2 4 false true B H2 H4 HK EB HB float64_levels_50_4)
             (implicit_entry_ok exp_approx inv_exact Float64.levels 50 1 50 (1#10) 0 (1#4)
                2 4 false false B H2 H4 HK EB HB float64_levels_50_4)).
    + vm_compute in EB. apply Ok_inj in EB. subst B. vm_compute. reflexivity.
    + vm_compute in EB. apply Ok_inj in EB. subst B. vm_compute. reflexivity.
Defined.

(** ** C8: bounds on the fair value *)

Lemma exp_approx_nonneg (x : Q) : 0 <= exp_approx x.
Proof.
  unfold exp_approx. destruct (Qle_bool 0 x) eqn:E.
  - apply Qle_bool_iff in E. lra.
  - assert (Hx : x < 0).
    { apply Qnot_le_lt. intros H. apply Qle_bool_iff in H. congruence. }
    unfold Qdiv. rewrite Qmult_1_l. apply Qlt_le_weak, Qinv_lt_0_compat. lra.
Qed.

Lemma positive_run (x : result (Q * Q)) (u : Q * Q) :
  x = Ok u -> 0 < fst u -> exists p nrm, x = Ok (p, nrm) /\ 0 < p.
Proof.
  intros -> H. exists (fst u), (snd u). split; [apply Ok_pair|exact H].
Qed.

(** C8 (as the code behaves).  With [N >= 1], [M >= 1], [K > 0],
    [dt = T / N] and [numpy.exp] without negative values, the fair value is
    not negative in the range where the step keeps the sign of rows from
    column 1 on:
    - explicit scheme: [dt >= 0], [1 + r*dt > 0], [r - q <= 2*sigma^2],
      [q - r <= sigma^2] and [sigma^2 * dt * (M-1)^2 <= 1];
    - implicit scheme: [M >= 2], [dt >= 0], [r - q <= 2*sigma^2],
      [q - r <= sigma^2] and [1 + (2r - q - sigma^2)*dt > 0], for a matrix
      [B] of [M] rows and [M] columns that [la.inv] returned with
      [np.dot(B, A)] the identity, and a call that builds its grid.
    Nothing is stated about the bound [S_max]. *)
Theorem fair_value_nonnegative_for_monotone_steps
    (np_exp : Q -> Q) (la_inv : matrix -> result matrix)
    (np_levels : Q -> Q -> nat)
    (S_0 T K r q sigma : Q) (N M : nat) (isCall isAmerican : bool) :
  (1 <= N)%nat -> (1 <= M)%nat -> 0 < K -> (forall x, 0 <= np_exp x) ->
  (explicit_monotone_range M (T / Np.float N) r q sigma ->
   exists p nrm,
     VanillaOption_Explicit np_exp S_0 T K r q sigma N M isCall isAmerican = Ok (p, nrm) /\
     0 <= p)
  /\
  (forall B,
      (2 <= M)%nat ->
      implicit_monotone_range (T / Np.float N) r q sigma ->
      la_inv (implicit_operator M (T / Np.float N) r q sigma) = Ok B -> shape M M B ->
      is_left_inverse M B (implicit_operator M (T / Np.float N) r q sigma) ->
      levels_fit np_levels K M ->
      exists p nrm,
        vanilla_option_implicit np_exp la_inv np_levels S_0 T K r q sigma N M isCall isAmerican
        = Ok (p, nrm) /\
        0 <= p).
Proof.
  intros HN HM HK Hexp.
  assert (HK' : ~ K == 0) by lra.
  assert (HK'' : 0 <= K) by lra.
  split.
  - intros Hr.
    rewrite explicit_entry_ok by auto.
    unfold explicit_trace.
    destruct (explicit_coefficients M (T / Np.float N) r q sigma) as [[a b] c] eqn:E.
    destruct (explicit_step_facts (T / Np.float N) r q sigma M HM a b c E Hr) as (_ & _ & Hstep).
    cbn [run_out].
    eexists _, _. split; [reflexivity|].
    apply tail_nonneg_get; [|apply explicit_column_pos].
    apply loop_with_keeps; auto.
    + apply tail_nonneg_nil.
    + intros x Hx. now apply tail_nonneg_floor.
    + apply nonneg_tail_nonneg. now apply nonneg_initial_grid.
  - intros B HM2 Hr Hinv HB Hleft HL.
    rewrite (implicit_entry_ok _ _ _ _ _ _ _ _ _ _ _ _ _ B) by auto.
    unfold implicit_trace. unfold implicit_operator in Hleft.
    destruct (compute_transition_probabilities M (T / Np.float N) r q sigma)
      as [[a b] c] eqn:E.
    destruct (implicit_step_facts (T / Np.float N) r q sigma M HM a b c B E Hr HM2 HB Hleft)
      as (_ & _ & Hstep).
    cbn [run_out].
    eexists _, _. split; [reflexivity|].
    apply tail_nonneg_get; [|now apply implicit_column_pos].
    apply loop_with_keeps; auto.
    + apply tail_nonneg_nil.
    + intros x Hx. now apply tail_nonneg_floor.
    + apply nonneg_tail_nonneg. now apply nonneg_initial_grid.
Qed.

(** C8, counterexamples, whatever [numpy.exp] computes.
    Explicit scheme, European put, [K = 50], [r = 0.1], [q = 0], [M = 4]:
    with [T = 5], [sigma = 0.4], [N = 3] the fair value is [-429/245], below
    0; with [T = 5], [sigma = 1], [N = 2] it is [231/2], above
    [S_max = 100].
    Implicit scheme, with the exact inverse for [la.inv]: European put,
    [K = 50], [T = 1], [r = 0], [q = 0.1], [sigma = 0.2], [N = 1], [M = 4]:
    the fair value is [-31875/51716] (about -0.62). *)
Lemma fair_value_outside_its_bounds :
  (~ exists (np_exp : Q -> Q) (p nrm : Q),
       VanillaOption_Explicit np_exp 50 5 50 (1#10) 0 (2#5) 3 4 false false = Ok (p, nrm) /\
       0 <= p /\ p <= 2 * 50)
  /\
  (~ exists (np_exp : Q -> Q) (p nrm : Q),
       VanillaOption_Explicit np_exp 50 5 50 (1#10) 0 1 2 4 false false = Ok (p, nrm) /\
       0 <= p /\ p <= 2 * 50)
  /\
  (forall np_exp : Q -> Q,
      exists p nrm,
        vanilla_option_implicit np_exp inv_exact Float64.levels 50 1 50 0 (1#10) (1#5) 1 4
          false false = Ok (p, nrm) /\
        p == - (31875 # 51716))
  /\
  (exists B,
      inv_exact (implicit_operator 4 (1 / Np.float 1) 0 (1#10) (1#5)) = Ok B /\
      is_left_inverse 4 B (implicit_operator 4 (1 / Np.float 1) 0 (1#10) (1#5))).
Proof.
  split; [|split; [|split]].
  - intros (np_exp & p & nrm & Hp & H0 & _).
    rewrite explicit_entry_ok in Hp by (lia || discriminate).
    apply Ok_fst in Hp. rewrite <- Hp in H0.
    vm_compute in H0. apply H0. reflexivity.
  - intros (np_exp & p & nrm & Hp & _ & H1).
    rewrite explicit_entry_ok in Hp by (lia || discriminate).
    apply Ok_fst in Hp. rewrite <- Hp in H1.
    vm_compute in H1. apply H1. reflexivity.
  - intros np_exp.
    destruct (inv_exact (implicit_operator 4 (1 / Np.float 1) 0 (1#10) (1#5)))
      as [B|e] eqn:EB; [|vm_compute in EB; discriminate EB].
    assert (HB : shape 4 4 B).
    { vm_compute in EB. apply Ok_inj in EB. subst B. split; [reflexivity|repeat constructor]. }
    assert (H1 : (1 <= 1)%nat) by lia.
    assert (H4 : (1 <= 4)%nat) by lia.
    assert (HK : ~ 50 == 0) by discriminate.
    rewrite (implicit_entry_ok np_exp inv_exact Float64.levels 50 1 50 0 (1#10) (1#5)
               1 4 false false B H1 H4 HK EB HB float64_levels_50_4).
    eexists _, _. split; [apply Ok_pair|].
    vm_compute in EB. apply Ok_inj in EB. subst B. vm_compute. reflexivity.
  - destruct (inv_exact (implicit_operator 4 (1 / Np.float 1) 0 (1#10) (1#5)))
      as [B|e] eqn:EB; [|vm_compute in EB; discriminate EB].
    exists B. split; [reflexivity|].
    apply left_inverse_check_ok. vm_compute in EB. apply Ok_inj in EB. subst B.
    vm_compute. reflexivity.
Qed.

(** C8, witness: [K = 50], [r = 0.1], [q = 0], [sigma = 0.25], [M = 4]; an
    American put with [T = 3], [N = 3] for the explicit scheme, a European
    call with [T = 1], [N = 2] and the exact inverse for the implicit one.
    Both fair values are positive. *)
Lemma fair_value_nonnegative_for_monotone_steps_witness :
  ((1 <= 3)%nat /\ (1 <= 4)%nat /\ 0 < 50 /\ (forall x, 0 <= exp_approx x) /\
   explicit_monotone_range 4 (3 / Np.float 3) (1#10) 0 (1#4)) /\
  (exists p nrm,
      VanillaOption_Explicit exp_approx 50 3 50 (1#10) 0 (1#4) 3 4 false true = Ok (p, nrm) /\
      0 <= p) /\
  (exists p nrm,
      VanillaOption_Explicit exp_approx 50 3 50 (1#10) 0 (1#4) 3 4 false true = Ok (p, nrm) /\
      0 < p) /\
  (exists B,
      (1 <= 2)%nat /\ (2 <= 4)%nat /\
      implicit_monotone_range (1 / Np.float 2) (1#10) 0 (1#4) /\
      inv_exact (implicit_operator 4 (1 / Np.float 2) (1#10) 0 (1#4)) = Ok B /\
      shape 4 4 B /\
      is_left_inverse 4 B (implicit_operator 4 (1 / Np.float 2) (1#10) 0 (1#4)) /\
      levels_fit Float64.levels 50 4) /\
  (exists p nrm,
      vanilla_option_implicit exp_approx inv_exact Float64.levels 50 1 50 (1#10) 0 (1#4) 2 4
        true false = Ok (p, nrm) /\
      0 <= p) /\
  (exists p nrm,
      vanilla_option_implicit exp_approx inv_exact Float64.levels 50 1 50 (1#10) 0 (1#4) 2 4
        true false = Ok (p, nrm) /\
      0 < p).
Proof.
  assert (H2 : (1 <= 2)%nat) by lia.
  assert (H3 : (1 <= 3)%nat) by lia.
  assert (H4 : (1 <= 4)%nat) by lia.
  assert (H24 : (2 <= 4)%nat) by lia.
  assert (HK : 0 < 50) by reflexivity.
  assert (HK' : ~ 50 == 0) by discriminate.
  assert (Hexp := exp_approx_nonneg).
  assert (He : explicit_monotone_range 4 (3 / Np.float 3) (1#10) 0 (1#4))
    by range_by_computation.
  assert (Hi : implicit_monotone_range (1 / Np.float 2) (1#10) 0 (1#4))
    by range_by_computation.
  destruct (inv_exact (implicit_operator 4 (1 / Np.float 2) (1#10) 0 (1#4)))
    as [B|e] eqn:EB; [|vm_compute in EB; discriminate EB].
  assert (HB : shape 4 4 B).
  { vm_compute in EB. apply Ok_inj in EB. subst B. split; [reflexivity|repeat constructor]. }
  assert (Hl : is_left_inverse 4 B (implicit_operator 4 (1 / Np.float 2) (1#10) 0 (1#4))).
  { apply left_inverse_check_ok. vm_compute in EB. apply Ok_inj in EB. subst B.
    vm_compute. reflexivity. }
  split; [tauto|]. split; [|split; [|split; [|split]]].
  - exact (proj1 (fair_value_nonnegative_for_monotone_steps exp_approx inv_exact
                    Float64.levels 50 3 50 (1#10) 0 (1#4) 3 4 false true H3 H4 HK Hexp) He).
  - apply (positive_run _ _
             (explicit_entry_ok exp_approx 50 3 50 (1#10) 0 (1#4) 3 4 false true H3 H4 HK')).
    vm_compute. reflexivity.
  - exists B.
    exact (conj H2 (conj H24 (conj Hi (conj eq_refl (conj HB (conj Hl float64_levels_50_4)))))).
  - exact (proj2 (fair_value_nonnegative_for_monotone_steps exp_approx inv_exact
                    Float64.levels 50 1 50 (1#10) 0 (1#4) 2 4 true false H2 H4 HK Hexp)
                 B H24 Hi EB HB Hl float64_levels_50_4).
  - apply (positive_run _ _
             (implicit_entry_ok exp_approx inv_exact Float64.levels 50 1 50 (1#10) 0 (1#4)
                2 4 true false B H2 H4 HK' EB HB float64_levels_50_4)).
    vm_compute in EB. apply Ok_inj in EB. subst B. vm_compute. reflexivity.
Defined.

(** * Further properties of the code *)

(** ** What the backward iteration reads *)

Lemma skipn_last_entry (M : nat) (row : vec) :
  length row = (M + 1)%nat -> skipn M row = [nth M row 0].
Proof.
  revert row; induction M as [|M IH]; intros row H.
  - destruct row as [|x [|y t]]; simpl in *; try discriminate. reflexivity.
  - destruct row as [|x t]; simpl in *; [discriminate|]. apply IH. lia.
Qed.

Section LoopInputs.

Variables (f : vec -> vec) (floor_row : vec) (american : bool) (N M : nat).
Hypothesis f_length : forall row, length (f row) = M.
Hypothesis floor_length : length floor_row = (M + 1)%nat.

Lemma body_with_agree (k : nat) (FV FV' : matrix) :
  (k < N + 1)%nat -> agree_from N M (S k) FV FV' ->
  agree_from N M k (body_with f floor_row american M k FV)
          (body_with f floor_row american M k FV').
Proof.
  intros Hk (HFV & HFV' & Hrows & Hcol).
  assert (Hb : shape (N + 1) (M + 1) (body_with f floor_row american M k FV))
    by (apply shape_body_with; auto).
  assert (Hb' : shape (N + 1) (M + 1) (body_with f floor_row american M k FV'))
    by (apply shape_body_with; auto).
  split; [exact Hb|]. split; [exact Hb'|]. split.
  - intros i Hi. destruct (Nat.eq_dec i k) as [->|Hne].
    + assert (Hs : shape (N + 1) (M + 1) (step_with f M FV k))
        by (apply shape_step_with; auto).
      assert (Hs' : shape (N + 1) (M + 1) (step_with f M FV' k))
        by (apply shape_step_with; auto).
      assert (E : nth k (step_with f M FV k) [] = nth k (step_with f M FV' k) []).
      { unfold step_with.
        rewrite !(row_set_row_prefix (N + 1) (M + 1)) by auto.
        rewrite (Hrows (k + 1)%nat) by lia. f_equal.
        rewrite !skipn_last_entry by (apply (shape_row (N + 1)); auto).
        f_equal. apply Hcol. lia. }
      unfold body_with, floored. destruct american.
      * rewrite !nth_upd_eq by (destruct Hs, Hs'; lia). now rewrite E.
      * exact E.
    + rewrite !body_with_other_row by auto. apply Hrows. lia.
  - intros i Hi. unfold Np.get. rewrite !body_with_other_row by lia.
    apply Hcol. lia.
Qed.

Lemma loop_with_agree (n : nat) (FV FV' : matrix) :
  (n <= N + 1)%nat -> agree_from N M n FV FV' ->
  agree_from N M 0 (loop_with f floor_row american M n FV)
          (loop_with f floor_row american M n FV').
Proof.
  revert FV FV'; induction n as [|k IH]; intros FV FV' Hn H; cbn [loop_with]; auto.
  apply IH; [lia|]. apply body_with_agree; auto.
Qed.

(** The loop reads its input grid through row [N] and column [M] only. *)
Lemma loop_with_reads_terminal_row_and_last_column (FV FV' : matrix) :
  shape (N + 1) (M + 1) FV -> shape (N + 1) (M + 1) FV' ->
  nth N FV [] = nth N FV' [] ->
  (forall i, (i < N)%nat -> Np.get FV i M = Np.get FV' i M) ->
  loop_with f floor_row american M N FV = loop_with f floor_row american M N FV'.
Proof.
  intros HFV HFV' Hrow Hcol.
  destruct (loop_with_agree N FV FV') as (H1 & H2 & Hrows & _).
  - lia.
  - split; [exact HFV|]. split; [exact HFV'|]. split; [|exact Hcol].
    intros i Hi. destruct (Nat.eq_dec i N) as [->|Hne]; [exact Hrow|].
    rewrite !nth_overflow; auto; destruct HFV, HFV'; lia.
  - apply (nth_ext _ _ [] []).
    + destruct H1, H2. congruence.
    + intros i _. apply Hrows. lia.
Qed.

End LoopInputs.

(** With too short a vector [a] or [c], the first pass of the loop raises
    [IndexError]. *)
Lemma backward_loop_short (B : matrix) (a c : vec) (M : nat) (dS K : Q)
    (is_call is_american : bool) (n : nat) (FV : matrix) :
  (1 <= M)%nat -> (1 <= n)%nat -> (length a = 0 \/ length c < M)%nat ->
  backward_loop B a c M dS K is_call is_american n FV = Raise IndexError.
Proof.
  intros HM Hn H. destruct n as [|i]; [lia|]. cbn [backward_loop].
  unfold implicit_body, implicit_step. now rewrite implicit_k_i_short.
Qed.

(** On a grid of [N + 1] rows and [M + 1] columns, with [B] an [M x M]
    matrix, [backward_iteration] returns when [a] has an entry and [c] has
    [M] of them ([a[0]] and [c[M-1]] are read): the grid it returns has the
    same shape, and its terminal row is the one it was given.  With an empty
    [a] or a [c] of fewer than [M] entries it raises [IndexError], unless
    there is no step to make ([N = 0]). *)
Theorem backward_iteration_keeps_shape_and_terminal_row
    (FV B : matrix) (a c : vec) (N M : nat) (dS K : Q) (is_call is_american : bool) :
  (1 <= M)%nat -> shape (N + 1) (M + 1) FV -> shape M M B ->
  ((1 <= length a)%nat -> (M <= length c)%nat ->
   exists FV',
     backward_iteration FV B a c N M dS K is_call is_american = Ok FV' /\
     shape (N + 1) (M + 1) FV' /\
     nth N FV' [] = nth N FV [])
  /\
  ((1 <= N)%nat -> (length a = 0 \/ length c < M)%nat ->
   backward_iteration FV B a c N M dS K is_call is_american = Raise IndexError).
Proof.
  intros HM HFV HB. unfold backward_iteration. split.
  - intros Ha Hc.
    rewrite (backward_loop_ok B a c N M) by auto.
    eexists. split; [reflexivity|]. split.
    + apply shape_loop_with; auto.
      * intros row. now apply length_implicit_row.
      * apply length_implicit_floor_row.
    + now apply loop_with_frame_rows.
  - intros HN H. now apply backward_loop_short.
Qed.

(** The witness: the grid of zeros with [N = 2], [M = 2], and the identity
    for [B]; with [c] of one entry the call raises. *)
Lemma backward_iteration_keeps_shape_and_terminal_row_witness :
  ((1 <= 2)%nat /\ shape (2 + 1) (2 + 1) (Np.zeros2 3 3) /\ shape 2 2 [[1; 0]; [0; 1]]) /\
  (exists FV',
      backward_iteration (Np.zeros2 3 3) [[1; 0]; [0; 1]] [0; 1] [0; -1] 2 2 25 50 true true
      = Ok FV' /\
      shape (2 + 1) (2 + 1) FV' /\
      nth 2 FV' [] = nth 2 (Np.zeros2 3 3) []) /\
  backward_iteration (Np.zeros2 3 3) [[1; 0]; [0; 1]] [0; 1] [0] 2 2 25 50 true true
  = Raise IndexError.
Proof.
  assert (H1 : (1 <= 2)%nat) by lia.
  assert (H2 : shape (2 + 1) (2 + 1) (Np.zeros2 3 3)) by apply shape_zeros2.
  assert (H3 : shape 2 2 [[1; 0]; [0; 1]]) by (split; [reflexivity|repeat constructor]).
  split; [auto|]. split.
  - apply (backward_iteration_keeps_shape_and_terminal_row
             (Np.zeros2 3 3) [[1; 0]; [0; 1]] [0; 1] [0; -1] 2 2 25 50 true true H1 H2 H3);
      simpl; lia.
  - apply (backward_iteration_keeps_shape_and_terminal_row
             (Np.zeros2 3 3) [[1; 0]; [0; 1]] [0; 1] [0] 2 2 25 50 true true H1 H2 H3);
      simpl; lia.
Defined.

(** [backward_iteration] reads its input grid through the terminal row and
    the last column only: two grids of the same shape that agree there give
    the same result (a grid when [a] has an entry and [c] has [M] of them). *)
Theorem backward_iteration_reads_terminal_row_and_last_column
    (FV FV' B : matrix) (a c : vec) (N M : nat) (dS K : Q) (is_call is_american : bool) :
  (1 <= M)%nat -> shape (N + 1) (M + 1) FV -> shape (N + 1) (M + 1) FV' -> shape M M B ->
  (1 <= length a)%nat -> (M <= length c)%nat ->
  nth N FV [] = nth N FV' [] ->
  (forall i, (i < N)%nat -> Np.get FV i M = Np.get FV' i M) ->
  succeeds (backward_iteration FV B a c N M dS K is_call is_american) /\
  backward_iteration FV B a c N M dS K is_call is_american
  = backward_iteration FV' B a c N M dS K is_call is_american.
Proof.
  intros HM HFV HFV' HB Ha Hc Hrow Hcol. unfold backward_iteration.
  rewrite !(backward_loop_ok B a c N M) by auto.
  split; [exact I|]. f_equal.
  apply (loop_with_reads_terminal_row_and_last_column _ _ _ N M); auto.
  - intros row. now apply length_implicit_row.
  - apply length_implicit_floor_row.
Qed.

(** The witness: two grids with [N = 1], [M = 2] that differ in [FV[0, 0]]
    and [FV[0, 1]] only. *)
Lemma backward_iteration_reads_terminal_row_and_last_column_witness :
  ((1 <= 2)%nat /\
   shape (1 + 1) (2 + 1) [[0; 0; 7]; [1; 2; 3]] /\
   shape (1 + 1) (2 + 1) [[5; 6; 7]; [1; 2; 3]] /\
   shape 2 2 [[1; 0]; [0; 1]] /\
   (1 <= length [0%Q; 1%Q])%nat /\ (2 <= length [0%Q; (-1)%Q])%nat) /\
  backward_iteration [[0; 0; 7]; [1; 2; 3]] [[1; 0]; [0; 1]] [0; 1] [0; -1] 1 2 25 50 true false
  = backward_iteration [[5; 6; 7]; [1; 2; 3]] [[1; 0]; [0; 1]] [0; 1] [0; -1] 1 2 25 50 true false.
Proof.
  assert (H1 : (1 <= 2)%nat) by lia.
  assert (H2 : shape (1 + 1) (2 + 1) [[0; 0; 7]; [1; 2; 3]])
    by (split; [reflexivity|repeat constructor]).
  assert (H3 : shape (1 + 1) (2 + 1) [[5; 6; 7]; [1; 2; 3]])
    by (split; [reflexivity|repeat constructor]).
  assert (H4 : shape 2 2 [[1; 0]; [0; 1]]) by (split; [reflexivity|repeat constructor]).
  assert (H5 : (1 <= length [0%Q; 1%Q])%nat) by (simpl; lia).
  assert (H6 : (2 <= length [0%Q; (-1)%Q])%nat) by (simpl; lia).
  split; [auto 7|].
  apply (backward_iteration_reads_terminal_row_and_last_column
           [[0; 0; 7]; [1; 2; 3]] [[5; 6; 7]; [1; 2; 3]] [[1; 0]; [0; 1]] [0; 1] [0; -1]
           1 2 25 50 true false H1 H2 H3 H4 H5 H6).
  - reflexivity.
  - intros i Hi. assert (i = 0%nat) as -> by lia. reflexivity.
Defined.

(** ** Puts never use [numpy.exp] *)

Lemma initial_grid_put_ignores_exp (np_exp np_exp' : Q -> Q) (N M : nat) (dS K r dt : Q) :
  (1 <= M)%nat ->
  nth N (initial_grid np_exp N M dS K r dt false) []
  = nth N (initial_grid np_exp' N M dS K r dt false) [] /\
  forall i, (i < N)%nat ->
    Np.get (initial_grid np_exp N M dS K r dt false) i M
    = Np.get (initial_grid np_exp' N M dS K r dt false) i M.
Proof.
  intros HM. split.
  - unfold initial_grid.
    rewrite !nth_upd_eq; auto;
      match goal with
      | |- context [boundary_columns ?e _ _ _ _ _ _ _ _] =>
          destruct (shape_boundary_columns e N M 0 (2 * K) K r dt false); lia
      end.
  - intros i Hi. now rewrite !get_initial_grid_boundary.
Qed.

(** The two grids [initialize_option_matrix] builds for a put from two
    functions [numpy.exp]: the same exception, or two grids that differ in
    column 0 at most. *)
Lemma initialize_option_matrix_put_agree (np_exp np_exp' : Q -> Q)
    (np_levels : Q -> Q -> nat) (N M : nat) (S_max dS K r dt : Q) :
  (1 <= M)%nat ->
  (exists e,
      initialize_option_matrix np_exp np_levels N M S_max dS K r dt false = Raise e /\
      initialize_option_matrix np_exp' np_levels N M S_max dS K r dt false = Raise e)
  \/
  (exists FV FV',
      initialize_option_matrix np_exp np_levels N M S_max dS K r dt false = Ok FV /\
      initialize_option_matrix np_exp' np_levels N M S_max dS K r dt false = Ok FV' /\
      shape (N + 1) (M + 1) FV /\ shape (N + 1) (M + 1) FV' /\
      nth N FV [] = nth N FV' [] /\
      forall i, (i < N)%nat -> Np.get FV i M = Np.get FV' i M).
Proof.
  intros HM. rewrite !initialize_option_matrix_unfold.
  unfold Np.arange_of_len.
  destruct (Qeq_bool dS 0); [left; exists ZeroDivisionError; split; reflexivity|].
  cbn [bind]. unfold Np.set_row_broadcast.
  pose proof (shape_boundary_columns np_exp N M 0 S_max K r dt false) as Hs.
  pose proof (shape_boundary_columns np_exp' N M 0 S_max K r dt false) as Hs'.
  rewrite !(shape_row (N + 1) (M + 1)) by (auto; lia).
  assert (Hgrids : forall row, length row = (M + 1)%nat ->
    shape (N + 1) (M + 1) (upd N row (boundary_columns np_exp N M 0 S_max K r dt false)) /\
    shape (N + 1) (M + 1) (upd N row (boundary_columns np_exp' N M 0 S_max K r dt false)) /\
    nth N (upd N row (boundary_columns np_exp N M 0 S_max K r dt false)) []
    = nth N (upd N row (boundary_columns np_exp' N M 0 S_max K r dt false)) [] /\
    forall i, (i < N)%nat ->
      Np.get (upd N row (boundary_columns np_exp N M 0 S_max K r dt false)) i M
      = Np.get (upd N row (boundary_columns np_exp' N M 0 S_max K r dt false)) i M).
  { intros row Hrow. split; [|split; [|split]].
    - now apply shape_upd.
    - now apply shape_upd.
    - rewrite !nth_upd_eq; auto; destruct Hs, Hs'; lia.
    - intros i Hi. rewrite !get_upd_other by lia.
      rewrite !get_boundary_columns by lia. now rewrite Nat.eqb_refl. }
  match goal with
  | |- context [(length ?t =? M + 1)%nat] => destruct (Nat.eqb_spec (length t) (M + 1)) as [E|E]
  end.
  - right. eexists _, _. split; [reflexivity|]. split; [reflexivity|]. now apply Hgrids.
  - match goal with
    | |- context [(length ?t =? 1)%nat] => destruct (Nat.eqb_spec (length t) 1) as [E1|E1]
    end.
    + right. eexists _, _. split; [reflexivity|]. split; [reflexivity|].
      apply Hgrids. apply repeat_length.
    + left. exists ValueError. split; reflexivity.
Qed.

(** For a put with [N >= 1], [M >= 1], [K <> 0], what either entry point
    returns does not depend on [numpy.exp]: the discounted strike that the
    boundary conditions write in column 0 is overwritten before it is read.
    ([la.inv] is taken to return [B], of the operator's shape; the implicit
    entry point returns a result when [np.arange] has the [M + 1] entries of
    a row, and the same exception for both functions otherwise.) *)
Theorem put_result_ignores_exp
    (np_exp np_exp' : Q -> Q) (la_inv : matrix -> result matrix)
    (np_levels : Q -> Q -> nat)
    (S_0 T K r q sigma : Q) (N M : nat) (isAmerican : bool) (B : matrix) :
  (1 <= N)%nat -> (1 <= M)%nat -> ~ K == 0 ->
  la_inv (implicit_operator M (T / Np.float N) r q sigma) = Ok B -> shape M M B ->
  (succeeds (VanillaOption_Explicit np_exp S_0 T K r q sigma N M false isAmerican) /\
   VanillaOption_Explicit np_exp S_0 T K r q sigma N M false isAmerican
   = VanillaOption_Explicit np_exp' S_0 T K r q sigma N M false isAmerican)
  /\
  ((levels_fit np_levels K M ->
    succeeds (vanilla_option_implicit np_exp la_inv np_levels S_0 T K r q sigma N M
                false isAmerican)) /\
   vanilla_option_implicit np_exp la_inv np_levels S_0 T K r q sigma N M false isAmerican
   = vanilla_option_implicit np_exp' la_inv np_levels S_0 T K r q sigma N M false isAmerican).
Proof.
  intros HN HM HK Hinv HB.
  destruct (initial_grid_put_ignores_exp np_exp np_exp' N M ((2 * K - 0) / Np.float M)
              K r (T / Np.float N) HM) as [He1 He2].
  split.
  - rewrite !explicit_entry_ok by auto. split; [exact I|]. f_equal.
    unfold explicit_trace.
    destruct (explicit_coefficients M (T / Np.float N) r q sigma) as [[a b] c] eqn:E.
    destruct (length_explicit_coefficients _ _ _ _ _ _ _ _ E) as (La & Lb & Lc).
    cbn [run_out]. f_equal. f_equal.
    apply (loop_with_reads_terminal_row_and_last_column _ _ _ N M);
      auto using shape_initial_grid.
    + intros row. apply length_explicit_row; auto. now apply shape_tridiagonal.
    + now rewrite length_explicit_floor_row, length_price_levels.
  - split.
    + intros HL. now rewrite (implicit_entry_ok _ _ _ _ _ _ _ _ _ _ _ _ _ B).
    + unfold vanilla_option_implicit, implicit_run. cbv zeta.
      unfold implicit_operator in Hinv.
      rewrite !py_div_float_ok by auto. cbn [bind].
      destruct (compute_transition_probabilities M (T / Np.float N) r q sigma)
        as [[a b] c] eqn:E.
      cbv beta iota.
      destruct (length_compute_transition_probabilities _ _ _ _ _ _ _ _ E) as (La & Lb & Lc).
      unfold create_tridiagonal_matrix. rewrite Hinv. cbn [bind fst snd].
      destruct (initialize_option_matrix_put_agree np_exp np_exp' np_levels N M (2 * K)
                  (2 * K / Np.float M) K r (T / Np.float N) HM)
        as [(e & -> & ->)|(FV & FV' & -> & -> & HFV & HFV' & Hrow & Hcol)];
        [reflexivity|].
      cbn [bind]. unfold backward_iteration.
      rewrite !(backward_loop_ok B a c N M) by (auto; lia).
      cbn [bind run_out]. do 3 f_equal.
      apply (loop_with_reads_terminal_row_and_last_column _ _ _ N M); auto.
      * intros row. now apply length_implicit_row.
      * apply length_implicit_floor_row.
Qed.

(** The witness: [exp_approx] against the constant 1, [N = 2], [M = 2]. *)
Lemma put_result_ignores_exp_witness :
  ((1 <= 2)%nat /\ ~ 50 == 0 /\
   succeeds (inv_2x2 (implicit_operator 2 (1 / Np.float 2) (1#10) 0 (1#4))) /\
   levels_fit Float64.levels 50 2) /\
  VanillaOption_Explicit exp_approx 50 1 50 (1#10) 0 (1#4) 2 2 false true
  = VanillaOption_Explicit (fun _ => 1) 50 1 50 (1#10) 0 (1#4) 2 2 false true /\
  succeeds (vanilla_option_implicit exp_approx inv_2x2 Float64.levels 50 1 50 (1#10) 0 (1#4)
              2 2 false true) /\
  vanilla_option_implicit exp_approx inv_2x2 Float64.levels 50 1 50 (1#10) 0 (1#4) 2 2
    false true
  = vanilla_option_implicit (fun _ => 1) inv_2x2 Float64.levels 50 1 50 (1#10) 0 (1#4) 2 2
      false true.
Proof.
  assert (H1 : (1 <= 2)%nat) by lia.
  assert (HK : ~ 50 == 0) by discriminate.
  assert (Hinv : exists B, inv_2x2 (implicit_operator 2 (1 / Np.float 2) (1#10) 0 (1#4))
                           = Ok B /\ shape 2 2 B).
  { eexists. split; [vm_compute; reflexivity|]. split; [reflexivity|repeat constructor]. }
  destruct Hinv as (B & Hinv & HB).
  split.
  - split; [exact H1|]. split; [exact HK|].
    split; [now rewrite Hinv|exact float64_levels_50_2].
  - destruct (put_result_ignores_exp exp_approx (fun _ => 1) inv_2x2 Float64.levels
                50 1 50 (1#10) 0 (1#4) 2 2 true B H1 H1 HK Hinv HB) as [[_ He] [Hs Hi]].
    split; [exact He|]. split; [exact (Hs float64_levels_50_2)|exact Hi].
Defined.

(** ** [initialize_option_matrix] on arbitrary arguments *)

Lemma Qceiling_lower (x : Q) (z : Z) : inject_Z z < x -> (z < Qceiling x)%Z.
Proof.
  intros H. rewrite Zlt_Qlt. eapply Qlt_le_trans; [exact H|apply Qle_ceiling].
Qed.

(** The number of levels in exact arithmetic. *)
Lemma levels_exact_fit (M : nat) (S_max dS : Q) :
  0 < dS -> Np.float M * dS - dS < S_max -> S_max <= Np.float M * dS ->
  Np.levels_exact S_max dS = (M + 1)%nat.
Proof.
  intros HdS Hlo Hhi. unfold Np.levels_exact.
  rewrite <- (Nat2Z.id (M + 1)). f_equal.
  assert (E : (S_max + dS - 0) / dS == S_max / dS + 1) by (field; lra).
  rewrite E.
  assert (H1 : Np.float M - 1 < S_max / dS).
  { apply Qlt_shift_div_l; auto. lra. }
  assert (H2 : S_max / dS <= Np.float M).
  { apply Qle_shift_div_r; auto. }
  replace (M + 1)%nat with (S M) by lia.
  apply Qceiling_unique;
    change (inject_Z (Z.of_nat (S M))) with (Np.float (S M)); rewrite float_S; lra.
Qed.

Lemma levels_exact_too_many (M : nat) (S_max dS : Q) :
  0 < dS -> Np.float M * dS < S_max -> (M + 1 < Np.levels_exact S_max dS)%nat.
Proof.
  intros HdS Hlo. unfold Np.levels_exact.
  assert (Hc : (Z.of_nat (M + 1) < Qceiling ((S_max + dS - 0) / dS))%Z).
  { apply Qceiling_lower.
    assert (E' : (S_max + dS - 0) / dS == S_max / dS + 1) by (field; lra).
    rewrite E'.
    assert (H1 : Np.float M < S_max / dS) by (apply Qlt_shift_div_l; auto).
    replace (M + 1)%nat with (S M) by lia.
    change (inject_Z (Z.of_nat (S M))) with (Np.float (S M)). rewrite float_S. lra. }
  lia.
Qed.

(** [initialize_option_matrix] on any arguments, by the number [levels] of
    entries [np.arange(0, S_max + dS, dS)] has.  It raises
    [ZeroDivisionError] when [dS] is 0 (the step of [np.arange]).  Otherwise,
    with [levels = M + 1] it returns a grid of [N + 1] rows and [M + 1]
    columns whose row [N] holds the payoffs at the prices [j * dS]; with one
    level only (and [M >= 1]) the payoff at the price 0 is broadcast to the
    row; with any other number the assignment of row [N] raises
    [ValueError].  In exact arithmetic [levels] is [M + 1] when
    [0 < dS] and [(M - 1) * dS < S_max <= M * dS], and more when
    [S_max > M * dS]. *)
Theorem initialize_option_matrix_outcomes
    (np_exp : Q -> Q) (np_levels : Q -> Q -> nat)
    (N M : nat) (S_max dS K r dt : Q) (is_call : bool) :
  let levels := np_levels S_max dS in
  (dS == 0 ->
   initialize_option_matrix np_exp np_levels N M S_max dS K r dt is_call
   = Raise ZeroDivisionError)
  /\
  (~ dS == 0 -> levels = (M + 1)%nat ->
   exists FV,
     initialize_option_matrix np_exp np_levels N M S_max dS K r dt is_call = Ok FV /\
     shape (N + 1) (M + 1) FV /\
     forall j, (j <= M)%nat -> Np.get FV N j == payoff is_call K (Np.float j * dS))
  /\
  (~ dS == 0 -> levels = 1%nat -> (1 <= M)%nat ->
   exists FV,
     initialize_option_matrix np_exp np_levels N M S_max dS K r dt is_call = Ok FV /\
     shape (N + 1) (M + 1) FV /\
     forall j, (j <= M)%nat -> Np.get FV N j == payoff is_call K 0)
  /\
  (~ dS == 0 -> levels <> (M + 1)%nat -> levels <> 1%nat ->
   initialize_option_matrix np_exp np_levels N M S_max dS K r dt is_call = Raise ValueError)
  /\
  (0 < dS -> Np.float M * dS - dS < S_max -> S_max <= Np.float M * dS ->
   Np.levels_exact S_max dS = (M + 1)%nat)
  /\
  (0 < dS -> Np.float M * dS < S_max -> (M + 1 < Np.levels_exact S_max dS)%nat).
Proof.
  intros levels. rewrite initialize_option_matrix_unfold. fold levels.
  pose proof (shape_boundary_columns np_exp N M 0 S_max K r dt is_call) as Hs.
  split; [|split; [|split; [|split; [|split]]]].
  - intros H. now rewrite arange_of_len_zero_step.
  - intros HdS HL. rewrite arange_of_len_ok by auto. rewrite HL. cbn [bind].
    fold (price_levels dS M).
    rewrite set_terminal_row_broadcast by apply length_price_levels.
    eexists. split; [reflexivity|]. split.
    + apply shape_upd; auto.
      now rewrite length_terminal_payoffs, length_price_levels.
    + intros j Hj.
      rewrite get_upd_same by (destruct Hs; lia).
      unfold price_levels. rewrite nth_terminal_payoffs by lia.
      unfold payoff. destruct is_call; apply Q.max_compat; try reflexivity; ring.
  - intros HdS HL HM. rewrite arange_of_len_ok by auto. rewrite HL. cbn [bind].
    unfold Np.set_row_broadcast.
    rewrite length_terminal_payoffs, (shape_row (N + 1) (M + 1)) by (auto; lia).
    cbn [seq map length].
    destruct (Nat.eqb_spec 1 (M + 1)); [lia|]. cbn [Nat.eqb].
    eexists. split; [reflexivity|]. split.
    + apply shape_upd; auto. apply repeat_length.
    + intros j Hj.
      rewrite get_upd_same by (destruct Hs; lia).
      rewrite nth_repeat_lt by lia.
      unfold terminal_payoffs, Np.maximum_scalar, payoff.
      destruct is_call; cbn [map hd]; apply Q.max_compat; try reflexivity;
        change (Np.float 0) with 0; ring.
  - intros HdS HL HL1. rewrite arange_of_len_ok by auto. cbn [bind].
    apply set_terminal_row_mismatch; now rewrite length_map, length_seq.
  - apply levels_exact_fit.
  - apply levels_exact_too_many.
Qed.

(** The witness: [S_max = 100], [dS = 20], [M = 5] (the call of the
    notebook's [test_backward_iteration]), and [S_max = 0.2], [dS = 0.1],
    [M = 2], where [float64] computes 4 levels ([0.2 + 0.1] is above 0.3, the
    quotient by 0.1 above 3) and the call raises, though
    [(M - 1) * dS < S_max <= M * dS]. *)
Lemma initialize_option_matrix_outcomes_witness :
  (~ 20 == 0 /\ Float64.levels 100 20 = (5 + 1)%nat /\
   ~ (1#10) == 0 /\ Float64.levels (2#10) (1#10) <> (2 + 1)%nat /\
   Float64.levels (2#10) (1#10) <> 1%nat /\
   0 < 1#10 /\ Np.float 2 * (1#10) - (1#10) < 2#10 /\ 2#10 <= Np.float 2 * (1#10)) /\
  (exists FV,
      initialize_option_matrix exp_approx Float64.levels 5 5 100 20 50 (1#10) (1#100) true
      = Ok FV /\
      shape (5 + 1) (5 + 1) FV) /\
  initialize_option_matrix exp_approx Float64.levels 2 2 (2#10) (1#10) 50 (1#10) (1#100) true
  = Raise ValueError /\
  Np.levels_exact (2#10) (1#10) = (2 + 1)%nat.
Proof.
  assert (H0 : ~ 20 == 0) by discriminate.
  assert (H1 : Float64.levels 100 20 = (5 + 1)%nat) by (vm_compute; reflexivity).
  assert (H2 : ~ (1#10) == 0) by discriminate.
  assert (H3 : Float64.levels (2#10) (1#10) <> (2 + 1)%nat) by (vm_compute; discriminate).
  assert (H4 : Float64.levels (2#10) (1#10) <> 1%nat) by (vm_compute; discriminate).
  assert (H5 : 0 < 1#10) by reflexivity.
  assert (H6 : Np.float 2 * (1#10) - (1#10) < 2#10) by reflexivity.
  assert (H7 : 2#10 <= Np.float 2 * (1#10)) by discriminate.
  split; [repeat split; assumption|]. split; [|split].
  - destruct (initialize_option_matrix_outcomes exp_approx Float64.levels 5 5 100 20 50
                (1#10) (1#100) true) as (_ & H & _).
    destruct (H H0 H1) as (FV & HFV & Hs & _). exists FV. split; [exact HFV|exact Hs].
  - destruct (initialize_option_matrix_outcomes exp_approx Float64.levels 2 2 (2#10) (1#10)
                50 (1#10) (1#100) true) as (_ & _ & _ & H & _).
    exact (H H2 H3 H4).
  - destruct (initialize_option_matrix_outcomes exp_approx Float64.levels 2 2 (2#10) (1#10)
                50 (1#10) (1#100) true) as (_ & _ & _ & _ & H & _).
    exact (H H5 H6 H7).
Defined.

(** ** The grid of the boundary conditions *)

Lemma initial_grid_entries (np_exp : Q -> Q) (N M : nat) (dS K r dt : Q) (isCall : bool) :
  (1 <= M)%nat -> 0 < K -> Np.float M * dS == 2 * K -> (forall x, 0 <= np_exp x) ->
  let FV := initial_grid np_exp N M dS K r dt isCall in
  shape (N + 1) (M + 1) FV /\
  nonneg_matrix FV /\
  (forall i, (i <= N)%nat -> Np.get FV i (if isCall then 0%nat else M) == 0) /\
  (forall i, (i < N)%nat ->
     Np.get FV i (if isCall then M else 0%nat)
     = discounted np_exp N (if isCall then 2 * K else K) r dt i) /\
  (forall i j, (i < N)%nat -> (0 < j < M)%nat -> Np.get FV i j = 0).
Proof.
  intros HM HK HdS Hexp FV. unfold FV.
  split; [apply shape_initial_grid|].
  split; [apply nonneg_initial_grid; auto; lra|].
  repeat split.
  - intros i Hi. destruct (Nat.eq_dec i N) as [->|Hne].
    + rewrite get_initial_grid_terminal by (destruct isCall; lia).
      unfold payoff. destruct isCall.
      * apply Q.max_r. change (Np.float 0) with 0. lra.
      * apply Q.max_r. rewrite HdS. lra.
    + unfold initial_grid. rewrite get_upd_other by auto.
      rewrite get_boundary_columns by lia.
      destruct isCall.
      * destruct (Nat.eqb_spec 0 M); [lia|]. reflexivity.
      * rewrite Nat.eqb_refl. reflexivity.
  - intros i Hi. unfold initial_grid. rewrite get_upd_other by lia.
    rewrite get_boundary_columns by lia.
    destruct isCall.
    + rewrite Nat.eqb_refl. reflexivity.
    + destruct (Nat.eqb_spec 0 M); [lia|]. reflexivity.
  - intros i j Hi Hj. unfold initial_grid. rewrite get_upd_other by lia.
    rewrite get_boundary_columns by lia.
    destruct (Nat.eqb_spec j M); [lia|]. destruct (Nat.eqb_spec j 0); [lia|].
    now destruct isCall.
Qed.

(** With the arguments the entry points pass ([S_max = 2 * K],
    [dS = S_max / M]), [K > 0] and [numpy.exp] without negative values, the
    boundary conditions of both notebooks return a grid of [N + 1] rows and
    [M + 1] columns without negative entry.  A call has 0 in column 0 of every
    row and the discounted [S_max] in column [M] of the rows [i < N]; a put
    has 0 in column [M] of every row and the discounted strike in column 0 of
    the rows [i < N]; the other entries of the rows [i < N] are 0.  (The
    implicit notebook returns its grid when [np.arange] has the [M + 1]
    entries of a row.) *)
Theorem boundary_conditions_grid
    (np_exp : Q -> Q) (np_levels : Q -> Q -> nat) (N M : nat) (K r dt : Q) (isCall : bool) :
  (1 <= M)%nat -> 0 < K -> (forall x, 0 <= np_exp x) ->
  (exists FV,
      explicit_initialize np_exp N M 0 (2 * K) ((2 * K - 0) / Np.float M) K r dt isCall
      = Ok FV /\
      shape (N + 1) (M + 1) FV /\ nonneg_matrix FV /\
      (forall i, (i <= N)%nat -> Np.get FV i (if isCall then 0%nat else M) == 0) /\
      (forall i, (i < N)%nat ->
         Np.get FV i (if isCall then M else 0%nat)
         = discounted np_exp N (if isCall then 2 * K else K) r dt i) /\
      (forall i j, (i < N)%nat -> (0 < j < M)%nat -> Np.get FV i j = 0))
  /\
  (levels_fit np_levels K M ->
   exists FV,
      initialize_option_matrix np_exp np_levels N M (2 * K) (2 * K / Np.float M) K r dt isCall
      = Ok FV /\
      shape (N + 1) (M + 1) FV /\ nonneg_matrix FV /\
      (forall i, (i <= N)%nat -> Np.get FV i (if isCall then 0%nat else M) == 0) /\
      (forall i, (i < N)%nat ->
         Np.get FV i (if isCall then M else 0%nat)
         = discounted np_exp N (if isCall then 2 * K else K) r dt i) /\
      (forall i j, (i < N)%nat -> (0 < j < M)%nat -> Np.get FV i j = 0)).
Proof.
  intros HM HK Hexp.
  assert (HK' : ~ K == 0) by lra.
  pose proof (float_pos M HM) as Hf.
  split.
  - eexists. split; [now apply explicit_initialize_ok|].
    apply initial_grid_entries; auto. field. lra.
  - intros HL. eexists. split; [now apply initialize_option_matrix_ok|].
    apply initial_grid_entries; auto. field. lra.
Qed.

(** The witness: a call, [K = 50], [r = 0.1], [dt = 1/2], [N = 2], [M = 4]:
    the entry of row 0 and column 4 is [100 * exp_approx (- 0.1)]. *)
Lemma boundary_conditions_grid_witness :
  ((1 <= 4)%nat /\ 0 < 50 /\ (forall x, 0 <= exp_approx x) /\
   levels_fit Float64.levels 50 4) /\
  exists FV,
    initialize_option_matrix exp_approx Float64.levels 2 4 (2 * 50) (2 * 50 / Np.float 4) 50
      (1#10) (1#2) true = Ok FV /\
    nonneg_matrix FV /\ Np.get FV 2 0 == 0 /\ Np.get FV 0 4 == 1000 # 11.
Proof.
  assert (H1 : (1 <= 4)%nat) by lia.
  assert (H2 : 0 < 50) by reflexivity.
  split; [repeat split; auto using exp_approx_nonneg, float64_levels_50_4|].
  destruct (boundary_conditions_grid exp_approx Float64.levels 2 4 50 (1#10) (1#2) true H1 H2
              exp_approx_nonneg) as [_ H].
  destruct (H float64_levels_50_4) as (FV & HFV & _ & Hn & Hz & Hd & _).
  exists FV. split; [exact HFV|]. split; [exact Hn|]. split; [apply Hz; lia|].
  rewrite Hd by lia. vm_compute. reflexivity.
Defined.

(** ** The entries of the tridiagonal operator *)

(** The matrix both notebooks assemble from [a], [b], [c] of length
    [M >= 1] is [M x M], has [b[i]] on the diagonal, [a[i]] left of it
    (row [i], column [i - 1]), [c[i]] right of it (row [i], column [i + 1])
    and 0 elsewhere; [a[0]] and [c[M-1]] are not in the matrix. *)
Theorem tridiagonal_entries (a b c : vec) (M : nat) :
  (1 <= M)%nat -> length a = M -> length b = M -> length c = M ->
  shape M M (tridiagonal a b c) /\
  forall i j, (i < M)%nat -> (j < M)%nat ->
    Np.get (tridiagonal a b c) i j
    == if (j =? i)%nat then nth i b 0
       else if (j + 1 =? i)%nat then nth i a 0
       else if (j =? i + 1)%nat then nth i c 0
       else 0.
Proof.
  intros HM Ha Hb Hc. split; [now apply shape_tridiagonal|].
  intros i j Hi Hj. now apply (get_tridiagonal a b c M).
Qed.

(** The witness: [M = 3]; the entry of row 2 and column 1 is [a[2]]. *)
Lemma tridiagonal_entries_witness :
  ((1 <= 3)%nat /\ length [0; 1; 2] = 3%nat /\ length [3; 4; 5] = 3%nat /\
   length [6; 7; 8] = 3%nat) /\
  Np.get (tridiagonal [0; 1; 2] [3; 4; 5] [6; 7; 8]) 2 1 == 2.
Proof.
  assert (H1 : (1 <= 3)%nat) by lia.
  split; [repeat split; auto|].
  destruct (tridiagonal_entries [0; 1; 2] [3; 4; 5] [6; 7; 8] 3 H1 eq_refl eq_refl eq_refl)
    as [_ H].
  rewrite (H 2%nat 1%nat) by lia. reflexivity.
Defined.

(** ** The transition coefficients *)

(** The three coefficient vectors have [M] entries each, and at every node
    [j < M] they sum to the discount factor of one time step: [1 + r*dt] in
    the implicit scheme, [1 / (1 + r*dt)] in the explicit one (whose
    normaliser is taken non-zero); the drift is their difference:
    [a[j] - c[j] = (r - q) * j * dt] in the implicit scheme and
    [c[j] - a[j] = (r - q) * j * dt / (1 + r*dt)] in the explicit one. *)
Theorem transition_coefficients_sum (M : nat) (dt r q sigma : Q) (j : nat) :
  (j < M)%nat ->
  (let '(a, b, c) := compute_transition_probabilities M dt r q sigma in
   length a = M /\ length b = M /\ length c = M /\
   nth j a 0 + nth j b 0 + nth j c 0 == 1 + r * dt /\
   nth j a 0 - nth j c 0 == (r - q) * Np.float j * dt)
  /\
  (~ 1 + r * dt == 0 ->
   let '(a, b, c) := explicit_coefficients M dt r q sigma in
   length a = M /\ length b = M /\ length c = M /\
   nth j a 0 + nth j b 0 + nth j c 0 == 1 / (1 + r * dt) /\
   nth j c 0 - nth j a 0 == (r - q) * Np.float j * dt / (1 + r * dt)).
Proof.
  intros Hj. split.
  - destruct (compute_transition_probabilities M dt r q sigma) as [[a b] c] eqn:E.
    destruct (length_compute_transition_probabilities _ _ _ _ _ _ _ _ E) as (La & Lb & Lc).
    destruct (nth_compute_transition_probabilities _ _ _ _ _ _ _ _ j E Hj) as (Ha & Hb & Hc).
    repeat split; auto; rewrite ?Ha, ?Hb, ?Hc; ring.
  - intros Hd.
    destruct (explicit_coefficients M dt r q sigma) as [[a b] c] eqn:E.
    destruct (length_explicit_coefficients _ _ _ _ _ _ _ _ E) as (La & Lb & Lc).
    destruct (nth_explicit_coefficients _ _ _ _ _ _ _ _ j E Hj) as (Ha & Hb & Hc).
    repeat split; auto; rewrite ?Ha, ?Hb, ?Hc; field; exact Hd.
Qed.

(** The witness: the arguments of the notebook's
    [test_compute_transition_probabilities], node 1. *)
Lemma transition_coefficients_sum_witness :
  ((1 < 40)%nat /\ ~ 1 + (1#10) * (1#100) == 0) /\
  nth 1 (fst (fst (compute_transition_probabilities 40 (1#100) (1#10) (1#50) (1#4)))) 0
  + nth 1 (snd (fst (compute_transition_probabilities 40 (1#100) (1#10) (1#50) (1#4)))) 0
  + nth 1 (snd (compute_transition_probabilities 40 (1#100) (1#10) (1#50) (1#4))) 0
  == 1 + (1#10) * (1#100).
Proof.
  assert (H1 : (1 < 40)%nat) by lia.
  assert (H2 : ~ 1 + (1#10) * (1#100) == 0) by discriminate.
  split; [auto|].
  destruct (transition_coefficients_sum 40 (1#100) (1#10) (1#50) (1#4) 1 H1) as [H _].
  destruct (compute_transition_probabilities 40 (1#100) (1#10) (1#50) (1#4)) as [[a b] c].
  apply H.
Defined.

(** ** The infinity norm of the explicit operator *)

Lemma vsum_map_abs_ext (l : vec) (g : nat -> Q) (s : nat) :
  (forall j, (j < length l)%nat -> nth j l 0 == g (s + j)%nat) ->
  vsum (map Qabs l) == vsum (map (fun j => Qabs (g j)) (seq s (length l))).
Proof.
  revert s; induction l as [|x t IH]; intros s H; simpl; [reflexivity|].
  rewrite (IH (S s)).
  - assert (E := H 0%nat ltac:(simpl; lia)). simpl in E.
    rewrite Nat.add_0_r in E. now rewrite E.
  - intros j Hj. assert (E := H (S j) ltac:(simpl; lia)). simpl in E.
    now rewrite Nat.add_succ_r in E.
Qed.

Lemma tridiagonal_row_abs_sum (a b c : vec) (M i : nat) :
  (1 <= M)%nat -> length a = M -> length b = M -> length c = M -> (i < M)%nat ->
  vsum (map Qabs (nth i (tridiagonal a b c) []))
  == (if (1 <=? i)%nat then Qabs (nth i a 0) else 0) + Qabs (nth i b 0)
     + (if (i + 1 <? M)%nat then Qabs (nth i c 0) else 0).
Proof.
  intros HM Ha Hb Hc Hi.
  pose proof (shape_tridiagonal a b c M HM Ha Hb Hc) as Hs.
  pose proof (shape_row M M i _ Hs Hi) as Hl.
  rewrite (vsum_map_abs_ext _
             (fun j => if (j =? i)%nat then nth i b 0
                       else if (j + 1 =? i)%nat then nth i a 0
                       else if (j =? i + 1)%nat then nth i c 0 else 0) 0).
  - rewrite Hl.
    rewrite (vsum_map_ext _
               (fun j => (if (j =? i)%nat then Qabs (nth i b 0) else 0)
                         + ((if (j =? i - 1)%nat
                             then (if (1 <=? i)%nat then Qabs (nth i a 0) else 0) else 0)
                            + (if (j =? i + 1)%nat then Qabs (nth i c 0) else 0)))).
    + rewrite vsum_map_plus, vsum_map_plus, !vsum_indicator.
      destruct (Nat.leb_spec 0 i), (Nat.ltb_spec i (0 + M)), (Nat.leb_spec 0 (i - 1)),
        (Nat.ltb_spec (i - 1) (0 + M)), (Nat.leb_spec 0 (i + 1)),
        (Nat.ltb_spec (i + 1) (0 + M)), (Nat.ltb_spec (i + 1) M); simpl; try lia; ring.
    + intros j _.
      destruct (Nat.eqb_spec j i), (Nat.eqb_spec (j + 1) i), (Nat.eqb_spec j (i + 1)),
        (Nat.eqb_spec j (i - 1)), (Nat.leb_spec 1 i); try lia;
        try (change (Qabs 0) with 0); ring.
  - intros j Hj. rewrite Hl in Hj. simpl. now apply (get_tridiagonal a b c M).
Qed.

Lemma fold_max_upper (l : vec) (x : Q) : In x l -> x <= fold_right Qmax 0 l.
Proof.
  induction l as [|y t IH]; intros H; simpl; [contradiction|].
  destruct H as [->|H].
  - apply Q.le_max_l.
  - eapply Qle_trans; [now apply IH|apply Q.le_max_r].
Qed.

Lemma fold_max_least (l : vec) (u : Q) :
  0 <= u -> (forall x, In x l -> x <= u) -> fold_right Qmax 0 l <= u.
Proof.
  intros Hu. induction l as [|y t IH]; intros H; simpl; auto.
  apply Q.max_lub.
  - apply H. now left.
  - apply IH. intros x Hx. apply H. now right.
Qed.

Lemma norm_inf_ge_row (A : matrix) (i : nat) :
  (i < length A)%nat -> vsum (map Qabs (nth i A [])) <= Np.norm_inf A.
Proof.
  intros Hi. unfold Np.norm_inf. apply fold_max_upper.
  apply in_map_iff. exists (nth i A []). split; auto. now apply nth_In.
Qed.

Lemma norm_inf_le (A : matrix) (u : Q) :
  0 <= u -> (forall i, (i < length A)%nat -> vsum (map Qabs (nth i A [])) <= u) ->
  Np.norm_inf A <= u.
Proof.
  intros Hu H. unfold Np.norm_inf. apply fold_max_least; auto.
  intros x Hx. apply in_map_iff in Hx. destruct Hx as (row & <- & Hrow).
  destruct (In_nth _ _ [] Hrow) as (i & Hi & <-). now apply H.
Qed.

Lemma explicit_coefficients_row_sum (M : nat) (dt r q sigma : Q) (a b c : vec) (i : nat) :
  ~ 1 + r * dt == 0 ->
  explicit_coefficients M dt r q sigma = (a, b, c) -> (i < M)%nat ->
  nth i a 0 + nth i b 0 + nth i c 0 == 1 / (1 + r * dt).
Proof.
  intros Hne E Hi.
  destruct (nth_explicit_coefficients _ _ _ _ _ _ _ _ i E Hi) as (Ha & Hb & Hc).
  rewrite Ha, Hb, Hc. field. exact Hne.
Qed.

(** The norm [VanillaOption_Explicit] reports (the infinity norm of [A]) is
    never below the discount factor [1 / (1 + r*dt)] of one time step (taken
    positive), and it is exactly that factor when no coefficient is
    negative. *)
Theorem explicit_norm_and_discount_factor
    (np_exp : Q -> Q) (S_0 T K r q sigma : Q) (N M : nat) (isCall isAmerican : bool) :
  (1 <= N)%nat -> (1 <= M)%nat -> ~ K == 0 -> 0 < 1 + r * (T / Np.float N) ->
  exists p nrm,
    VanillaOption_Explicit np_exp S_0 T K r q sigma N M isCall isAmerican = Ok (p, nrm) /\
    1 / (1 + r * (T / Np.float N)) <= nrm /\
    ((let '(a, b, c) := explicit_coefficients M (T / Np.float N) r q sigma in
      nonneg a /\ nonneg b /\ nonneg c) ->
     nrm == 1 / (1 + r * (T / Np.float N))).
Proof.
  intros HN HM HK Hd.
  rewrite explicit_entry_ok by auto. unfold explicit_trace.
  destruct (explicit_coefficients M (T / Np.float N) r q sigma) as [[a b] c] eqn:E.
  destruct (length_explicit_coefficients _ _ _ _ _ _ _ _ E) as (La & Lb & Lc).
  cbn [run_out]. eexists _, _. split; [reflexivity|].
  assert (Hne : ~ 1 + r * (T / Np.float N) == 0) by lra.
  assert (Hpos : 0 < 1 / (1 + r * (T / Np.float N))).
  { unfold Qdiv. rewrite Qmult_1_l. now apply Qinv_lt_0_compat. }
  assert (Hlen : length (tridiagonal a b c) = M)
    by (destruct (shape_tridiagonal a b c M HM La Lb Lc); auto).
  assert (Hsum : forall i, (i < M)%nat ->
            nth i a 0 + nth i b 0 + nth i c 0 == 1 / (1 + r * (T / Np.float N))).
  { intros i Hi. now apply (explicit_coefficients_row_sum M _ r q sigma a b c i). }
  destruct (explicit_a0_zero _ _ _ _ _ _ _ _ Hne E) as [Ha0 Hc0].
  split.
  - eapply Qle_trans; [|apply (norm_inf_ge_row _ 0); lia].
    rewrite (tridiagonal_row_abs_sum a b c M 0) by (auto; lia).
    assert (Hb0 : nth 0 b 0 == 1 / (1 + r * (T / Np.float N))).
    { rewrite <- (Hsum 0%nat) by lia. rewrite Ha0, Hc0. ring. }
    simpl (1 <=? 0)%nat. cbv iota.
    destruct (0 + 1 <? M)%nat; rewrite ?Hc0, Hb0; change (Qabs 0) with 0;
      rewrite Qabs_pos by lra; lra.
  - intros (Ha & Hb & Hc). apply Qle_antisym.
    + apply norm_inf_le; [lra|]. intros i Hi. rewrite Hlen in Hi.
      rewrite (tridiagonal_row_abs_sum a b c M i) by auto.
      rewrite <- (Hsum i Hi).
      pose proof (nonneg_nth a i Ha). pose proof (nonneg_nth b i Hb).
      pose proof (nonneg_nth c i Hc).
      destruct (1 <=? i)%nat, (i + 1 <? M)%nat; rewrite !Qabs_pos by auto; lra.
    + eapply Qle_trans; [|apply (norm_inf_ge_row _ 0); lia].
      rewrite (tridiagonal_row_abs_sum a b c M 0) by (auto; lia).
      assert (Hb0 : nth 0 b 0 == 1 / (1 + r * (T / Np.float N))).
      { rewrite <- (Hsum 0%nat) by lia. rewrite Ha0, Hc0. ring. }
      simpl (1 <=? 0)%nat. cbv iota.
      destruct (0 + 1 <? M)%nat; rewrite ?Hc0, Hb0; change (Qabs 0) with 0;
        rewrite Qabs_pos by lra; lra.
Qed.

(** The witness: [K = 50], [T = 1], [r = 0.05], [q = 0], [sigma = 0.25],
    [N = 2], [M = 4], a put. *)
Lemma explicit_norm_and_discount_factor_witness :
  ((1 <= 2)%nat /\ (1 <= 4)%nat /\ ~ 50 == 0 /\ 0 < 1 + (1#20) * (1 / Np.float 2)) /\
  exists p nrm,
    VanillaOption_Explicit exp_approx 50 1 50 (1#20) 0 (1#4) 2 4 false false = Ok (p, nrm) /\
    1 / (1 + (1#20) * (1 / Np.float 2)) <= nrm.
Proof.
  assert (H2 : (1 <= 2)%nat) by lia.
  assert (H4 : (1 <= 4)%nat) by lia.
  assert (HK : ~ 50 == 0) by discriminate.
  assert (Hd : 0 < 1 + (1#20) * (1 / Np.float 2)) by reflexivity.
  split; [auto|].
  destruct (explicit_norm_and_discount_factor exp_approx 50 1 50 (1#20) 0 (1#4) 2 4
              false false H2 H4 HK Hd) as (p & nrm & Hp & Hn & _).
  exists p, nrm. split; [exact Hp|exact Hn].
Defined.

(** ** Errors of the entry points *)

(** With [N >= 1] and [M >= 1], a strike equal to 0 makes the step [dS] of
    [np.arange] zero: [VanillaOption_Explicit] raises [ZeroDivisionError]
    while it builds the terminal row, and so does [vanilla_option_implicit]
    once [la.inv] has returned. *)
Theorem zero_strike_raises_zero_division
    (np_exp : Q -> Q) (la_inv : matrix -> result matrix)
    (np_levels : Q -> Q -> nat)
    (S_0 T K r q sigma : Q) (N M : nat) (isCall isAmerican : bool) :
  (1 <= N)%nat -> (1 <= M)%nat -> K == 0 ->
  VanillaOption_Explicit np_exp S_0 T K r q sigma N M isCall isAmerican
  = Raise ZeroDivisionError /\
  (forall B,
      la_inv (implicit_operator M (T / Np.float N) r q sigma) = Ok B ->
      vanilla_option_implicit np_exp la_inv np_levels S_0 T K r q sigma N M isCall isAmerican
      = Raise ZeroDivisionError).
Proof.
  intros HN HM HK. split.
  - unfold VanillaOption_Explicit, explicit_run. cbv zeta.
    rewrite !py_div_float_ok by auto. cbn [bind].
    destruct (explicit_coefficients M (T / Np.float N) r q sigma) as [[a b] c].
    rewrite explicit_initialize_unfold, arange_zero_step; [reflexivity|].
    rewrite HK. unfold Qdiv. ring.
  - intros B Hinv.
    unfold vanilla_option_implicit, implicit_run. cbv zeta.
    rewrite !py_div_float_ok by auto. cbn [bind].
    unfold implicit_operator in Hinv.
    destruct (compute_transition_probabilities M (T / Np.float N) r q sigma) as [[a b] c].
    unfold create_tridiagonal_matrix. rewrite Hinv. cbn [bind fst snd].
    rewrite initialize_option_matrix_unfold, arange_of_len_zero_step; [reflexivity|].
    rewrite HK. unfold Qdiv. ring.
Qed.

(** The witness: [K = 0], [N = 1], [M = 2]. *)
Lemma zero_strike_raises_zero_division_witness :
  ((1 <= 1)%nat /\ (1 <= 2)%nat /\ 0 == 0) /\
  VanillaOption_Explicit exp_approx 50 1 0 (1#10) 0 (1#4) 1 2 true false
  = Raise ZeroDivisionError /\
  vanilla_option_implicit exp_approx inv_2x2 Float64.levels 50 1 0 (1#10) 0 (1#4) 1 2 true false
  = Raise ZeroDivisionError.
Proof.
  assert (H1 : (1 <= 1)%nat) by lia.
  assert (H2 : (1 <= 2)%nat) by lia.
  assert (H3 : 0 == 0) by reflexivity.
  split; [auto|].
  destruct (zero_strike_raises_zero_division exp_approx inv_2x2 Float64.levels
              50 1 0 (1#10) 0 (1#4) 1 2 true false H1 H2 H3) as [He Hi].
  split; [exact He|].
  eapply Hi. vm_compute. reflexivity.
Defined.

(** With [N >= 1] and [M >= 1], an exception of [la.inv] is the exception
    of [vanilla_option_implicit], whatever the other arguments: the inversion
    comes before the grid is built, and nothing catches its error. *)
Theorem inversion_failure_is_raised
    (np_exp : Q -> Q) (la_inv : matrix -> result matrix)
    (np_levels : Q -> Q -> nat)
    (S_0 T K r q sigma : Q) (N M : nat) (is_call is_american : bool) (e : exn) :
  (1 <= N)%nat -> (1 <= M)%nat ->
  la_inv (implicit_operator M (T / Np.float N) r q sigma) = Raise e ->
  vanilla_option_implicit np_exp la_inv np_levels S_0 T K r q sigma N M is_call is_american = Raise e.
Proof.
  intros HN HM Hinv.
  unfold vanilla_option_implicit, implicit_run. cbv zeta.
  rewrite !py_div_float_ok by auto. cbn [bind].
  unfold implicit_operator in Hinv.
  destruct (compute_transition_probabilities M (T / Np.float N) r q sigma) as [[a b] c].
  unfold create_tridiagonal_matrix. rewrite Hinv. reflexivity.
Qed.

(** The witness: [r * dt = -1] and [sigma = 0] make the first diagonal
    entry of the operator 0, and [inv_2x2] raises [LinAlgError]. *)
Lemma inversion_failure_is_raised_witness :
  ((1 <= 1)%nat /\ (1 <= 2)%nat /\
   inv_2x2 (implicit_operator 2 (1 / Np.float 1) (- (1)) 0 0) = Raise LinAlgError) /\
  vanilla_option_implicit exp_approx inv_2x2 Float64.levels 50 1 50 (- (1)) 0 0 1 2 true false
  = Raise LinAlgError.
Proof.
  assert (H1 : (1 <= 1)%nat) by lia.
  assert (H2 : (1 <= 2)%nat) by lia.
  assert (H3 : inv_2x2 (implicit_operator 2 (1 / Np.float 1) (- (1)) 0 0) = Raise LinAlgError)
    by (vm_compute; reflexivity).
  split; [auto|].
  exact (inversion_failure_is_raised exp_approx inv_2x2 Float64.levels
           50 1 50 (- (1)) 0 0 1 2 true false LinAlgError H1 H2 H3).
Defined.

(** ** The smallest even grid *)

(** With [M = 2] the column [VanillaOption_Explicit] reads, [(M + 2) / 2],
    is the boundary column [M] itself: for a European contract the value
    returned is the boundary value of row 0, the discounted [S_max] for a
    call and 0 for a put, whatever [q] and [sigma] are. *)
Theorem explicit_on_two_space_steps_returns_the_boundary
    (np_exp : Q -> Q) (S_0 T K r q sigma : Q) (N : nat) (isCall : bool) :
  (1 <= N)%nat -> ~ K == 0 ->
  exists nrm,
    VanillaOption_Explicit np_exp S_0 T K r q sigma N 2 isCall false
    = Ok (if isCall then discounted np_exp N (2 * K) r (T / Np.float N) 0 else 0, nrm).
Proof.
  intros HN HK.
  rewrite explicit_entry_ok by (auto; lia). unfold explicit_trace.
  destruct (explicit_coefficients 2 (T / Np.float N) r q sigma) as [[a b] c] eqn:E.
  destruct (length_explicit_coefficients _ _ _ _ _ _ _ _ E) as (La & Lb & Lc).
  cbn [run_out]. eexists. f_equal. f_equal.
  change ((2 + 1 + 1) / 2)%nat with 2%nat.
  rewrite (loop_with_frame_last_column _ _ N 2).
  - apply get_initial_grid_boundary; lia.
  - intros row. apply length_explicit_row; [|lia]. apply shape_tridiagonal; auto.
  - apply shape_initial_grid.
Qed.

(** The witness: a put, [K = 50], [N = 3]. *)
Lemma explicit_on_two_space_steps_returns_the_boundary_witness :
  ((1 <= 3)%nat /\ ~ 50 == 0) /\
  exists nrm,
    VanillaOption_Explicit exp_approx 50 1 50 (1#10) 0 (1#4) 3 2 false false = Ok (0, nrm).
Proof.
  assert (H1 : (1 <= 3)%nat) by lia.
  assert (H2 : ~ 50 == 0) by discriminate.
  split; [auto|].
  exact (explicit_on_two_space_steps_returns_the_boundary exp_approx 50 1 50 (1#10) 0 (1#4) 3 false
           H1 H2).
Defined.

(** ** The stable range of the explicit scheme *)

(** At every level [n] the diffusion term [s2 * n] outweighs a drift [u]
    with [- s2 <= u]; at level 0 both vanish. *)
Lemma drift_below_diffusion (dt s2 u : Q) (n : nat) :
  0 <= dt -> 0 <= s2 -> 0 <= s2 + u ->
  0 <= dt * (Np.float n * (s2 * Np.float n + u)).
Proof.
  intros Hdt Hs Hu. pose proof (float_nonneg n) as Hj.
  destruct n as [|n].
  - change (Np.float 0) with 0.
    assert (E : dt * (0 * (s2 * 0 + u)) == 0) by ring. rewrite E. lra.
  - apply Qmult_le_0_compat; auto. apply Qmult_le_0_compat; auto.
    pose proof (float_ge_1 (S n) ltac:(lia)) as Hj1.
    assert (P : 0 <= s2 * (Np.float (S n) - 1)) by (apply Qmult_le_0_compat; lra).
    assert (E : s2 * Np.float (S n) + u == s2 * (Np.float (S n) - 1) + (s2 + u)) by ring.
    rewrite E. lra.
Qed.

(** The coefficients of the explicit scheme are all non-negative when
    [dt >= 0], [1 + r*dt > 0], [|r - q| <= sigma^2] and
    [sigma^2 * dt * (M - 1)^2 <= 1]. *)
Lemma explicit_coefficients_nonneg (M : nat) (dt r q sigma : Q) :
  0 <= dt -> 0 < 1 + r * dt ->
  r - q <= sigma ^ 2 -> q - r <= sigma ^ 2 ->
  sigma ^ 2 * dt * Np.float (M - 1) ^ 2 <= 1 ->
  let '(a, b, c) := explicit_coefficients M dt r q sigma in
  nonneg a /\ nonneg b /\ nonneg c.
Proof.
  intros Hdt Hd H1 H2 H3. unfold explicit_coefficients, Np.arange_n.
  pose proof (Qsquare_nonneg sigma) as Hs.
  remember (sigma ^ 2) as s2 eqn:Es2. clear Es2.
  assert (Hquot : forall x, 0 <= x -> 0 <= x / (1 + r * dt)).
  { intros x Hx. apply Qle_shift_div_l; auto. lra. }
  assert (Hlin : forall n u, (n < M)%nat -> 0 <= s2 + u ->
            0 <= dt * (Np.float n * (s2 * Np.float n + u))).
  { intros n u _ Hu. now apply drift_below_diffusion. }
  repeat split; rewrite map_map; apply Forall_map, Forall_forall; intros n Hn;
    apply in_seq in Hn; apply Hquot.
  - pose proof (Hlin n (- (r - q)) ltac:(lia) ltac:(lra)) as P.
    assert (E : - (1#2) * (r - q) * dt * Np.float n + (1#2) * s2 * dt * Np.float n ^ 2
                == (1#2) * (dt * (Np.float n * (s2 * Np.float n + - (r - q))))) by ring.
    rewrite E. lra.
  - pose proof (float_nonneg n) as Hj.
    pose proof (float_le n (M - 1) ltac:(lia)) as Hjm.
    pose proof (Qsquare_le _ _ Hj Hjm) as Hsq.
    assert (P : 0 <= s2 * dt) by (now apply Qmult_le_0_compat).
    pose proof (Qmult_le_compat_l_nonneg _ _ _ P Hsq) as Hb.
    assert (E : s2 * dt * Np.float n ^ 2 == s2 * dt * (Np.float n * Np.float n)) by ring.
    assert (E' : s2 * dt * Np.float (M - 1) ^ 2
                 == s2 * dt * (Np.float (M - 1) * Np.float (M - 1))) by ring.
    rewrite E. rewrite E' in H3. lra.
  - pose proof (Hlin n (r - q) ltac:(lia) ltac:(lra)) as P.
    assert (E : (1#2) * (r - q) * dt * Np.float n + (1#2) * s2 * dt * Np.float n ^ 2
                == (1#2) * (dt * (Np.float n * (s2 * Np.float n + (r - q))))) by ring.
    rewrite E. lra.
Qed.

(** In that range, with [N >= 1], [M >= 1], [T >= 0], [K > 0] and a
    [numpy.exp] without negative values, [VanillaOption_Explicit] returns a
    fair value that is not negative, and the American value is not below the
    European one. *)
Theorem explicit_scheme_in_its_stable_range
    (np_exp : Q -> Q) (S_0 T K r q sigma : Q) (N M : nat) (isCall : bool) :
  (1 <= N)%nat -> (1 <= M)%nat -> 0 <= T -> 0 < K -> (forall x, 0 <= np_exp x) ->
  0 < 1 + r * (T / Np.float N) ->
  r - q <= sigma ^ 2 -> q - r <= sigma ^ 2 ->
  sigma ^ 2 * (T / Np.float N) * Np.float (M - 1) ^ 2 <= 1 ->
  exists am eu nrm,
    VanillaOption_Explicit np_exp S_0 T K r q sigma N M isCall true = Ok (am, nrm) /\
    VanillaOption_Explicit np_exp S_0 T K r q sigma N M isCall false = Ok (eu, nrm) /\
    0 <= eu /\ eu <= am.
Proof.
  intros HN HM HT HK Hexp Hd H1 H2 H3.
  assert (HK' : ~ K == 0) by lra.
  assert (Hdt : 0 <= T / Np.float N).
  { apply Qle_shift_div_l; [now apply float_pos|lra]. }
  pose proof (explicit_coefficients_nonneg M _ r q sigma Hdt Hd H1 H2 H3) as Hco.
  rewrite !explicit_entry_ok by auto. unfold explicit_trace.
  destruct (explicit_coefficients M (T / Np.float N) r q sigma) as [[a b] c] eqn:E.
  destruct Hco as (Ha & Hb & Hc).
  destruct (length_explicit_coefficients _ _ _ _ _ _ _ _ E) as (La & Lb & Lc).
  cbn [run_out]. eexists _, _, _. split; [reflexivity|]. split; [reflexivity|]. split.
  - apply nonneg_matrix_get. apply loop_with_nonneg.
    + intros row. apply explicit_row_nonneg; auto. now apply nonneg_tridiagonal.
    + apply nonneg_initial_grid; auto. lra.
  - apply grid_le_get. apply (loop_with_american_dominates _ _ N M).
    + intros row. apply length_explicit_row; auto. now apply shape_tridiagonal.
    + intros row row'. apply explicit_row_mono; auto. now apply nonneg_tridiagonal.
    + now rewrite length_explicit_floor_row, length_price_levels.
    + apply shape_initial_grid.
    + apply grid_le_refl.
Qed.

(** The witness: a put with [K = 50], [T = 1], [r = 0.05], [q = 0],
    [sigma = 0.25], [N = 2], [M = 4]: [sigma^2 * dt * (M-1)^2 = 9/32]. *)
Lemma explicit_scheme_in_its_stable_range_witness :
  ((1 <= 2)%nat /\ (1 <= 4)%nat /\ 0 <= 1 /\ 0 < 50 /\ (forall x, 0 <= exp_approx x) /\
   0 < 1 + (1#20) * (1 / Np.float 2) /\
   (1#20) - 0 <= (1#4) ^ 2 /\ 0 - (1#20) <= (1#4) ^ 2 /\
   (1#4) ^ 2 * (1 / Np.float 2) * Np.float (4 - 1) ^ 2 <= 1) /\
  exists am eu nrm,
    VanillaOption_Explicit exp_approx 50 1 50 (1#20) 0 (1#4) 2 4 false true = Ok (am, nrm) /\
    VanillaOption_Explicit exp_approx 50 1 50 (1#20) 0 (1#4) 2 4 false false = Ok (eu, nrm) /\
    0 <= eu /\ eu <= am.
Proof.
  assert (H2 : (1 <= 2)%nat) by lia.
  assert (H4 : (1 <= 4)%nat) by lia.
  assert (HT : 0 <= 1) by discriminate.
  assert (HK : 0 < 50) by reflexivity.
  assert (Hd : 0 < 1 + (1#20) * (1 / Np.float 2)) by reflexivity.
  assert (Ha : (1#20) - 0 <= (1#4) ^ 2) by discriminate.
  assert (Hb : 0 - (1#20) <= (1#4) ^ 2) by discriminate.
  assert (Hc : (1#4) ^ 2 * (1 / Np.float 2) * Np.float (4 - 1) ^ 2 <= 1) by discriminate.
  split; [repeat split; auto using exp_approx_nonneg|].
  exact (explicit_scheme_in_its_stable_range exp_approx 50 1 50 (1#20) 0 (1#4) 2 4 false
           H2 H4 HT HK exp_approx_nonneg Hd Ha Hb Hc).
Defined.

(** ** Sign and order under [backward_iteration] *)

Lemma implicit_row_nonneg_gen (B : matrix) (a c : vec) (M : nat) (row : vec) :
  nonneg_matrix B -> nth 0 a 0 <= 0 -> nth (M - 1) c 0 <= 0 ->
  nonneg row -> nonneg (implicit_row B a c M row).
Proof.
  intros HB Ha Hc H. unfold implicit_row. apply dot_nonneg; auto.
  apply vadd_nonneg; [now apply Forall_firstn|].
  repeat apply Forall_upd; try apply nonneg_zeros.
  - apply Qmult_le_0_compat; [lra|now apply nonneg_nth].
  - apply Qmult_le_0_compat; [lra|now apply nonneg_nth].
Qed.

Lemma implicit_row_mono_gen (B : matrix) (a c : vec) (M : nat) (row row' : vec) :
  nonneg_matrix B -> nth 0 a 0 <= 0 -> nth (M - 1) c 0 <= 0 ->
  vec_le row row' -> vec_le (implicit_row B a c M row) (implicit_row B a c M row').
Proof.
  intros HB Ha Hc H. unfold implicit_row. apply dot_mono; auto.
  apply vadd_mono; [now apply Forall2_firstn|].
  repeat apply Forall2_upd; try apply vec_le_refl.
  - apply Qmult_le_compat_l_nonneg; [lra|now apply vec_le_nth].
  - apply Qmult_le_compat_l_nonneg; [lra|now apply vec_le_nth].
Qed.

Lemma vec_le_zip_max_mono (fl x y : vec) :
  vec_le x y -> vec_le (zip_with Qmax fl x) (zip_with Qmax fl y).
Proof.
  intros H; revert fl; induction H as [|a b t t' Hab Ht IH]; intros [|u fl];
    simpl; try constructor.
  - apply Q.max_le_compat_l. exact Hab.
  - apply IH.
Qed.

(** The loop preserves the entrywise order of two grids when the step does. *)
Lemma loop_with_mono (f : vec -> vec) (floor_row : vec) (american : bool) (M n : nat)
    (FV FV' : matrix) :
  (forall row row', vec_le row row' -> vec_le (f row) (f row')) ->
  grid_le FV FV' ->
  grid_le (loop_with f floor_row american M n FV) (loop_with f floor_row american M n FV').
Proof.
  intros Hf. revert FV FV'; induction n as [|k IH]; intros FV FV' Hle; cbn [loop_with]; auto.
  apply IH.
  assert (Hstep : grid_le (step_with f M FV k) (step_with f M FV' k)).
  { unfold step_with, Np.set_row_prefix. apply Forall2_upd; auto.
    apply Forall2_app.
    - apply Hf. now apply grid_le_row.
    - apply Forall2_skipn. now apply grid_le_row. }
  unfold body_with, floored. destruct american; auto.
  apply Forall2_upd; auto.
  apply vec_le_zip_max_mono. now apply grid_le_row.
Qed.

(** When [B] has no negative entry, [a] has an entry [a[0] <= 0] and [c]
    has [M] entries with [c[M-1] <= 0], [backward_iteration] returns and maps a grid without negative entries to a grid
    without negative entries, whatever the style; it preserves the entrywise
    order of two grids; and with the early-exercise floor every entry is at
    least the one computed without it. *)
Theorem backward_iteration_keeps_sign_and_order
    (FV FV2 B : matrix) (a c : vec) (N M : nat) (dS K : Q) (is_call is_american : bool) :
  (1 <= M)%nat -> shape (N + 1) (M + 1) FV -> shape (N + 1) (M + 1) FV2 ->
  shape M M B ->
  (1 <= length a)%nat -> (M <= length c)%nat ->
  nonneg_matrix B -> nth 0 a 0 <= 0 -> nth (M - 1) c 0 <= 0 ->
  exists R R2 Re Ra,
    backward_iteration FV B a c N M dS K is_call is_american = Ok R /\
    backward_iteration FV2 B a c N M dS K is_call is_american = Ok R2 /\
    backward_iteration FV B a c N M dS K is_call false = Ok Re /\
    backward_iteration FV B a c N M dS K is_call true = Ok Ra /\
    (nonneg_matrix FV -> nonneg_matrix R) /\
    (grid_le FV FV2 -> grid_le R R2) /\
    grid_le Re Ra.
Proof.
  intros HM HFV HFV2 HB La Lc HBn Ha Hc. unfold backward_iteration.
  rewrite !(backward_loop_ok B a c N M) by auto.
  eexists _, _, _, _. repeat (split; [reflexivity|]).
  assert (Hlen : forall row, length (implicit_row B a c M row) = M).
  { intros row. now apply length_implicit_row. }
  assert (Hmono : forall row row', vec_le row row' ->
            vec_le (implicit_row B a c M row) (implicit_row B a c M row')).
  { intros row row'. now apply implicit_row_mono_gen. }
  split; [|split].
  - intros Hn. apply loop_with_nonneg; auto.
    intros row. now apply implicit_row_nonneg_gen.
  - intros Hle. now apply loop_with_mono.
  - apply (loop_with_american_dominates _ _ N M); auto.
    + apply length_implicit_floor_row.
    + apply grid_le_refl.
Qed.

(** The witness: [N = 2], [M = 2], the grid of zeros and a grid of ones,
    [B] the identity, [a = [-1/2; -1/2]], [c = [-1/2; -1/2]]. *)
Lemma backward_iteration_keeps_sign_and_order_witness :
  ((1 <= 2)%nat /\ shape (2 + 1) (2 + 1) (Np.zeros2 3 3) /\
   shape (2 + 1) (2 + 1) [[1; 1; 1]; [1; 1; 1]; [1; 1; 1]] /\
   shape 2 2 [[1; 0]; [0; 1]] /\
   (1 <= length [-(1#2); -(1#2)])%nat /\ (2 <= length [-(1#2); -(1#2)])%nat /\
   nonneg_matrix [[1; 0]; [0; 1]] /\
   nth 0 [-(1#2); -(1#2)] 0 <= 0 /\ nth (2 - 1) [-(1#2); -(1#2)] 0 <= 0) /\
  exists R R2 Re Ra,
    backward_iteration (Np.zeros2 3 3) [[1; 0]; [0; 1]] [-(1#2); -(1#2)] [-(1#2); -(1#2)]
      2 2 25 50 false true = Ok R /\
    backward_iteration [[1; 1; 1]; [1; 1; 1]; [1; 1; 1]] [[1; 0]; [0; 1]]
      [-(1#2); -(1#2)] [-(1#2); -(1#2)] 2 2 25 50 false true = Ok R2 /\
    backward_iteration (Np.zeros2 3 3) [[1; 0]; [0; 1]] [-(1#2); -(1#2)] [-(1#2); -(1#2)]
      2 2 25 50 false false = Ok Re /\
    backward_iteration (Np.zeros2 3 3) [[1; 0]; [0; 1]] [-(1#2); -(1#2)] [-(1#2); -(1#2)]
      2 2 25 50 false true = Ok Ra /\
    (nonneg_matrix (Np.zeros2 3 3) -> nonneg_matrix R) /\
    (grid_le (Np.zeros2 3 3) [[1; 1; 1]; [1; 1; 1]; [1; 1; 1]] -> grid_le R R2) /\
    grid_le Re Ra.
Proof.
  assert (H1 : (1 <= 2)%nat) by lia.
  assert (H2 : shape (2 + 1) (2 + 1) (Np.zeros2 3 3)) by apply shape_zeros2.
  assert (H2' : shape (2 + 1) (2 + 1) [[1; 1; 1]; [1; 1; 1]; [1; 1; 1]])
    by (split; [reflexivity|repeat constructor]).
  assert (H3 : shape 2 2 [[1; 0]; [0; 1]]) by (split; [reflexivity|repeat constructor]).
  assert (H4 : nonneg_matrix [[1; 0]; [0; 1]]) by (repeat constructor; discriminate).
  assert (H5 : nth 0 [-(1#2); -(1#2)] 0 <= 0) by discriminate.
  assert (H6 : nth (2 - 1) [-(1#2); -(1#2)] 0 <= 0) by discriminate.
  assert (L1 : (1 <= length [-(1#2); -(1#2)])%nat) by (simpl; lia).
  assert (L2 : (2 <= length [-(1#2); -(1#2)])%nat) by (simpl; lia).
  split; [repeat split; auto; destruct H2; destruct H2'; destruct H3; auto|].
  exact (backward_iteration_keeps_sign_and_order
           (Np.zeros2 3 3) [[1; 1; 1]; [1; 1; 1]; [1; 1; 1]] [[1; 0]; [0; 1]]
           [-(1#2); -(1#2)] [-(1#2); -(1#2)] 2 2 25 50 false true H1 H2 H2' H3 L1 L2
           H4 H5 H6).
Defined.

(** ** The signs of the implicit coefficients *)

(** When [dt >= 0] and [|r - q| <= sigma^2], every [a[j]] and [c[j]] of
    [compute_transition_probabilities] is at most 0 and every [b[j]] is at
    least [1 + r*dt]: the matrix built from them has no positive
    off-diagonal entry, and its diagonal exceeds the absolute off-diagonal
    entries of the same index by exactly [1 + r*dt]. *)
Theorem implicit_coefficients_signs
    (M : nat) (dt r q sigma : Q) (a b c : vec) (j : nat) :
  compute_transition_probabilities M dt r q sigma = (a, b, c) -> (j < M)%nat ->
  0 <= dt -> r - q <= sigma ^ 2 -> q - r <= sigma ^ 2 ->
  nth j a 0 <= 0 /\ nth j c 0 <= 0 /\ 1 + r * dt <= nth j b 0 /\
  nth j b 0 - Qabs (nth j a 0) - Qabs (nth j c 0) == 1 + r * dt.
Proof.
  intros E Hj Hdt H1 H2.
  destruct (nth_compute_transition_probabilities _ _ _ _ _ _ _ _ j E Hj) as (Ea & Eb & Ec).
  pose proof (Qsquare_nonneg sigma) as Hs.
  rewrite Ea, Eb, Ec. clear Ea Eb Ec E.
  remember (sigma ^ 2) as s2 eqn:Es2. clear Es2.
  pose proof (drift_below_diffusion dt s2 (- (r - q)) j Hdt Hs ltac:(lra)) as Pa.
  pose proof (drift_below_diffusion dt s2 (r - q) j Hdt Hs ltac:(lra)) as Pc.
  pose proof (float_nonneg j) as Hf.
  assert (Pb : 0 <= s2 * Np.float j ^ 2 * dt).
  { apply Qmult_le_0_compat; auto. apply Qmult_le_0_compat; auto. apply Qsquare_nonneg. }
  assert (Na : (1#2) * (r - q) * Np.float j * dt - (1#2) * s2 * Np.float j ^ 2 * dt
               == - ((1#2) * (dt * (Np.float j * (s2 * Np.float j + - (r - q)))))) by ring.
  assert (Nc : - (1#2) * (r - q) * Np.float j * dt - (1#2) * s2 * Np.float j ^ 2 * dt
               == - ((1#2) * (dt * (Np.float j * (s2 * Np.float j + (r - q)))))) by ring.
  assert (La : (1#2) * (r - q) * Np.float j * dt - (1#2) * s2 * Np.float j ^ 2 * dt <= 0)
    by (rewrite Na; lra).
  assert (Lc : - (1#2) * (r - q) * Np.float j * dt - (1#2) * s2 * Np.float j ^ 2 * dt <= 0)
    by (rewrite Nc; lra).
  repeat split; auto; [lra|].
  rewrite (Qabs_neg _ La), (Qabs_neg _ Lc). ring.
Qed.

(** The witness: [M = 40], [dt = 1/100], [r = 1/10], [q = 1/50],
    [sigma = 3/10], at index 1. *)
Lemma implicit_coefficients_signs_witness :
  let '(a, b, c) := compute_transition_probabilities 40 (1#100) (1#10) (1#50) (3#10) in
  nth 1 a 0 <= 0 /\ nth 1 c 0 <= 0 /\ 1 + (1#10) * (1#100) <= nth 1 b 0 /\
  nth 1 b 0 - Qabs (nth 1 a 0) - Qabs (nth 1 c 0) == 1 + (1#10) * (1#100).
Proof.
  destruct (compute_transition_probabilities 40 (1#100) (1#10) (1#50) (3#10))
    as [[a b] c] eqn:E.
  apply (implicit_coefficients_signs 40 (1#100) (1#10) (1#50) (3#10) a b c 1 E);
    [lia|discriminate|discriminate|discriminate].
Defined.
